(** * UltraVectorDB: a shallow embedding of the multi-stage retrieval engine

    The development follows the TypeScript sources module by module:

    - [JS]: the pieces of the JavaScript runtime the code relies on
      (32-bit integer operators, typed-array stores, whitespace, the
      stable [Array.prototype.sort]);
    - [Similarity]: [cosineSimilarity] (src/utils/cosineSimilarity.ts);
    - [MatryoshkaGenerator]: the deterministic embedding provider;
    - [HNSWGraph]: the graph index;
    - [ColBERTEngine] and [UltraVectorDB]: the scorer and the orchestrator.

    Each model module is followed by the facts proved about it; the
    modules [FloatFacts] and [FloatBounds] hold what is needed of binary64
    arithmetic (order, signs, and bounds that rounding preserves).  The
    closing modules, from [SymmetryFacts] on, prove further properties of
    the same functions: symmetry and ranges of the scorers, the bit count
    of the nano distance, insertion and search on any graph state, the
    nearest-first orders, and the chunk store.

    JavaScript numbers are IEEE-754 binary64 values and are modelled by
    Rocq's primitive floats, so every arithmetic step of the source is
    evaluated with the rounding the engine performs.  Integers that the
    source only uses as sizes, indices and layer numbers are [nat]; 32-bit
    words are [Z] with the wrap-around written out. *)

From Stdlib Require Import ZArith Lia List Floats Permutation.
From stdpp Require Import gmap strings list fin_maps sorting.

Set Warnings "-inexact-float".

(* ===================================================================== *)
(** * JavaScript runtime primitives *)
(* ===================================================================== *)

Module JS.

(** ** Numbers *)

(** [ToInt32] and [ToUint32] of an integral number. *)
Definition toInt32 (z : Z) : Z := ((z + 2 ^ 31) mod 2 ^ 32 - 2 ^ 31)%Z.
Definition toUint32 (z : Z) : Z := (z mod 2 ^ 32)%Z.

(** The integer operators [x << n], [x >> n], [x >>> 0], [x ^ y], [x & y],
    [x | y]: operands go through [ToInt32], the shift count is taken
    modulo 32, and the result is a signed 32-bit integer (unsigned for
    [>>>]). *)
Definition shl (x n : Z) : Z := toInt32 (Z.shiftl (toInt32 x) (n mod 32)).
Definition sar (x n : Z) : Z := Z.shiftr (toInt32 x) (n mod 32).
Definition ushr0 (x : Z) : Z := toUint32 x.
Definition bxor (x y : Z) : Z := toInt32 (Z.lxor (toInt32 x) (toInt32 y)).
Definition band (x y : Z) : Z := toInt32 (Z.land (toInt32 x) (toInt32 y)).
Definition bor (x y : Z) : Z := toInt32 (Z.lor (toInt32 x) (toInt32 y)).

(** An integer read as a [number] (exact below 2^53). *)
Definition ofZ (z : Z) : float :=
  match z with
  | Z0 => 0%float
  | Zpos _ => PrimFloat.of_uint63 (Uint63.of_Z z)
  | Zneg _ => (- PrimFloat.of_uint63 (Uint63.of_Z (- z)))%float
  end.
Definition ofNat (n : nat) : float := ofZ (Z.of_nat n).

(** A store into a [Float32Array]: the value is rounded to binary32
    (round to nearest, ties to even) and read back as a binary64. *)
Definition fround (x : float) : float :=
  match Prim2SF x with
  | S754_finite s m e =>
      SF2Prim (binary_normalize 24 128 (cond_Zopp s (Zpos m)) e s)
  | _ => x
  end.

(** [x > y], [x === y] on numbers. *)
Definition gt (x y : float) : bool := (y <? x)%float.
Definition strict_eq (x y : float) : bool := (x =? y)%float.

(** ** Strings *)

(** Text is a sequence of UTF-16 code units; [text.length] is the length
    of the list. *)
Definition text := list N.

Fixpoint of_ascii_string (s : string) : text :=
  match s with
  | EmptyString => []
  | String c s' => Ascii.N_of_ascii c :: of_ascii_string s'
  end.

(** ECMAScript [WhiteSpace] and [LineTerminator] code units: what
    [String.prototype.trim] strips and the regular expression class
    [\s] matches. *)
Definition is_space (c : N) : bool :=
  ((c =? 9) || (c =? 10) || (c =? 11) || (c =? 12) || (c =? 13) || (c =? 32)
   || (c =? 160) || (c =? 5760) || ((8192 <=? c) && (c <=? 8202))
   || (c =? 8232) || (c =? 8233) || (c =? 8239) || (c =? 8287)
   || (c =? 12288) || (c =? 65279))%N.

Fixpoint trim_start (t : text) : text :=
  match t with
  | c :: t' => if is_space c then trim_start t' else t
  | [] => []
  end.

Definition trim (t : text) : text := rev (trim_start (rev (trim_start t))).

(** [t.split(/\s+/).filter(Boolean)]: the maximal runs of non-white-space
    code units, in order.  [cur] is the run being read, reversed. *)
Fixpoint split_ws_aux (t : text) (cur : text) : list text :=
  match t with
  | [] => match cur with [] => [] | _ => [rev cur] end
  | c :: t' =>
      if is_space c
      then match cur with
           | [] => split_ws_aux t' []
           | _ => rev cur :: split_ws_aux t' []
           end
      else split_ws_aux t' (c :: cur)
  end.

Definition split_ws (t : text) : list text := split_ws_aux t [].

(** ** Arrays *)

(** [Array.prototype.sort(cmp)].  The sort is stable; [after a b] is the
    test [cmp(a, b) > 0] ("[a] goes after [b]").  Insertion from the right
    yields the one stable arrangement any conforming engine returns for a
    consistent comparator. *)
Section Sort.
Context {A : Type}.
Variable after : A -> A -> bool.

Fixpoint sort_insert (x : A) (l : list A) : list A :=
  match l with
  | [] => [x]
  | y :: l' => if after x y then y :: sort_insert x l' else x :: l
  end.

Fixpoint sort (l : list A) : list A :=
  match l with
  | [] => []
  | x :: l' => sort_insert x (sort l')
  end.

End Sort.

(** [arr.slice(0, n)] for a non-negative integer [n]. *)
Definition slice0 {A} (n : nat) (l : list A) : list A := firstn n l.

(** A [Set<string>] keeps its elements in insertion order; [add] of a
    member leaves it unchanged. *)
Definition set_add (x : string) (s : list string) : list string :=
  if bool_decide (x ∈ s) then s else s ++ [x].

(** [new Set(array)] and [[...new Set(array)]]: first occurrences, in
    order. *)
Definition set_of_list (l : list string) : list string :=
  fold_left (fun s x => set_add x s) l [].

(** ** Exceptions *)

(** How a call ends: with a value, with the [TypeError] JavaScript raises
    on reading a property of [undefined], or with the loop budget of the
    model used up (shown never to happen where a claim depends on it; a
    call whose loop is shown to exit for no budget is recorded the same
    way). *)
Inductive outcome (A : Type) :=
| Ok (a : A)
| TypeError
| OutOfFuel.
Arguments Ok {A} a.
Arguments TypeError {A}.
Arguments OutOfFuel {A}.

Definition bind {A B} (o : outcome A) (k : A -> outcome B) : outcome B :=
  match o with
  | Ok a => k a
  | TypeError => TypeError
  | OutOfFuel => OutOfFuel
  end.

Notation "'do' x <- o ; k" := (bind o (fun x => k))
  (at level 10, x name, o at level 100, k at level 200).

(** [array.map(f)] for an [f] that can throw. *)
Fixpoint mapM {A B} (f : A -> outcome B) (l : list A) : outcome (list B) :=
  match l with
  | [] => Ok []
  | x :: l' =>
      do y <- f x ;
      do ys <- mapM f l' ;
      Ok (y :: ys)
  end.

End JS.

(* ===================================================================== *)
(** * Facts about binary64 arithmetic *)
(* ===================================================================== *)

(** Derived from the specification of the primitive operations
    ([Stdlib.Floats.FloatAxioms]): how rounding treats a non-zero
    magnitude, the order on the non-NaN values, the sign of a difference,
    and a lower bound on square roots. *)

Module FloatFacts.
Local Open Scope Z_scope.

(** A number other than NaN. *)
Definition is_number (x : float) : bool := negb (PrimFloat.is_nan x).

Lemma digits2_bounds p :
  2 ^ (Zpos (digits2_pos p) - 1) <= Zpos p < 2 ^ Zpos (digits2_pos p).
Proof.
  induction p as [p IH | p IH |]; cbn [digits2_pos].
  - rewrite Pos2Z.inj_succ, Z.pow_succ_r by lia.
    replace (Z.succ (Zpos (digits2_pos p)) - 1) with (Z.succ (Zpos (digits2_pos p) - 1)) by lia.
    rewrite Z.pow_succ_r by lia. lia.
  - rewrite Pos2Z.inj_succ, Z.pow_succ_r by lia.
    replace (Z.succ (Zpos (digits2_pos p)) - 1) with (Z.succ (Zpos (digits2_pos p) - 1)) by lia.
    rewrite Z.pow_succ_r by lia. lia.
  - cbn. lia.
Qed.

Lemma iter_xO_pow m d : Zpos (Pos.iter xO m d) = Zpos m * 2 ^ Zpos d.
Proof.
  induction d as [| d IH] using Pos.peano_ind.
  - cbn. lia.
  - rewrite Pos.iter_succ, Pos2Z.inj_xO, IH, Pos2Z.inj_succ, Z.pow_succ_r by lia. lia.
Qed.

Lemma iter_pos_nat {A} (f : A -> A) p x :
  SpecFloat.iter_pos f p x = Nat.iter (Pos.to_nat p) f x.
Proof.
  revert x. induction p as [p IH | p IH |]; intros x; cbn [SpecFloat.iter_pos].
  - rewrite !IH, Pos2Nat.inj_xI.
    replace (S (2 * Pos.to_nat p)) with (Pos.to_nat p + (Pos.to_nat p + 1))%nat by lia.
    rewrite !Nat.iter_add. reflexivity.
  - rewrite !IH, Pos2Nat.inj_xO.
    replace (2 * Pos.to_nat p)%nat with (Pos.to_nat p + Pos.to_nat p)%nat by lia.
    rewrite Nat.iter_add. reflexivity.
  - reflexivity.
Qed.

Lemma shr_1_m r : 0 <= shr_m r -> shr_m (shr_1 r) = shr_m r / 2.
Proof.
  destruct r as [m rb sb]. cbn [shr_m]. intros Hm.
  destruct m as [| [p | p |] | p]; cbn [shr_1 shr_m].
  - reflexivity.
  - rewrite Pos2Z.inj_xI. apply Z.div_unique with (r := 1); lia.
  - rewrite Pos2Z.inj_xO. apply Z.div_unique with (r := 0); lia.
  - reflexivity.
  - lia.
Qed.

Lemma shr_iter_m n r :
  0 <= shr_m r -> shr_m (Nat.iter n shr_1 r) = shr_m r / 2 ^ Z.of_nat n.
Proof.
  intros Hm. induction n as [| n IH].
  - cbn. now rewrite Z.div_1_r.
  - rewrite Nat.iter_succ, shr_1_m.
    + rewrite IH, Nat2Z.inj_succ, Z.pow_succ_r, Z.div_div by lia. f_equal. lia.
    + rewrite IH. apply Z.div_pos; lia.
Qed.

(** Shifting a positive mantissa right by fewer places than it has digits
    leaves a positive mantissa; the exponent never decreases and ends at
    least [emin]. *)
Lemma shr_fexp_positive m e l :
  fexp prec emax (Zpos (digits2_pos m) + e) - e < Zpos (digits2_pos m) ->
  exists m2 rb sb e2,
    shr_fexp prec emax (Zpos m) e l = (Build_shr_record (Zpos m2) rb sb, e2)
    /\ e <= e2 /\ -1074 <= e2.
Proof.
  intros Hn. unfold shr_fexp. cbn [Zdigits2].
  set (n := fexp prec emax (Zpos (digits2_pos m) + e) - e) in *.
  assert (Hfexp : -1074 <= n + e).
  { subst n. unfold fexp, SpecFloat.emin, prec, emax. lia. }
  assert (Hrec : exists rb sb, shr_record_of_loc (Zpos m) l = Build_shr_record (Zpos m) rb sb).
  { destruct l as [| []]; cbn; eauto. }
  destruct Hrec as (rb & sb & ->).
  unfold shr. destruct n as [| p | p] eqn:En.
  - exists m, rb, sb, e. repeat split; lia.
  - rewrite iter_pos_nat.
    pose proof (shr_iter_m (Pos.to_nat p) (Build_shr_record (Zpos m) rb sb)) as Hm.
    cbn [shr_m] in Hm. specialize (Hm ltac:(lia)).
    rewrite positive_nat_Z in Hm.
    destruct (Nat.iter (Pos.to_nat p) shr_1 _) as [m2 rb2 sb2]. cbn [shr_m] in Hm.
    pose proof (digits2_bounds m) as [Hlo _].
    assert (1 <= m2).
    { subst m2. apply Z.div_le_lower_bound; [lia |].
      rewrite Z.mul_1_r. etransitivity; [| exact Hlo].
      apply Z.pow_le_mono_r; lia. }
    destruct m2 as [| m2 | m2]; try lia.
    exists m2, rb2, sb2, (e + Zpos p). repeat split; lia.
  - exists m, rb, sb, e. repeat split; lia.
Qed.

Lemma fexp_small_shift m e :
  -1074 <= e ->
  fexp prec emax (Zpos (digits2_pos m) + e) - e < Zpos (digits2_pos m).
Proof. unfold fexp, SpecFloat.emin, prec, emax. lia. Qed.

Lemma round_nearest_even_positive m l :
  exists m', round_nearest_even (Zpos m) l = Zpos m'.
Proof.
  destruct l as [| []]; cbn [round_nearest_even];
    try destruct (Z.even (Zpos m)); eexists; reflexivity.
Qed.

(** Rounding a non-zero magnitude never produces a zero or a NaN, and
    keeps the sign. *)
Lemma binary_round_aux_sign s m e l :
  fexp prec emax (Zpos (digits2_pos m) + e) - e < Zpos (digits2_pos m) ->
  binary_round_aux prec emax s (Zpos m) e l = S754_infinity s
  \/ exists m' e', binary_round_aux prec emax s (Zpos m) e l = S754_finite s m' e'
                   /\ e <= e'.
Proof.
  intros Hn. unfold binary_round_aux.
  destruct (shr_fexp_positive m e l Hn) as (m1 & rb1 & sb1 & e1 & -> & He1 & Hmin1).
  cbn [shr_m].
  destruct (round_nearest_even_positive m1 (loc_of_shr_record (Build_shr_record (Zpos m1) rb1 sb1)))
    as (m1' & ->).
  destruct (shr_fexp_positive m1' e1 loc_Exact (fexp_small_shift m1' e1 Hmin1))
    as (m2 & rb2 & sb2 & e2 & -> & He2 & Hmin2).
  cbn [shr_m]. destruct (e2 <=? emax - prec).
  - right. exists m2, e2. split; [reflexivity | lia].
  - now left.
Qed.

(** ** The order on numbers *)

(** A rank that orders the non-NaN values lexicographically the way
    [SFcompare] does. *)
Definition rank (x : spec_float) : Z * Z * Z :=
  match x with
  | S754_infinity true => (-2, 0, 0)
  | S754_finite true m e => (-1, - e, - Zpos m)
  | S754_zero _ => (0, 0, 0)
  | S754_nan => (0, 0, 0)
  | S754_finite false m e => (1, e, Zpos m)
  | S754_infinity false => (2, 0, 0)
  end.

Definition lex_lt (p q : Z * Z * Z) : Prop :=
  let '(a, b, c) := p in
  let '(a', b', c') := q in
  a < a' \/ (a = a' /\ (b < b' \/ (b = b' /\ c < c'))).

Lemma SFcompare_rank x y :
  x <> S754_nan -> y <> S754_nan ->
  exists c, SFcompare x y = Some c /\
    (c = Lt <-> lex_lt (rank x) (rank y)) /\
    (c = Gt <-> lex_lt (rank y) (rank x)).
Proof.
  intros Hx Hy.
  destruct x as [[] | [] | | [] mx ex], y as [[] | [] | | [] my ey]; try congruence;
    cbn [SFcompare rank lex_lt]; (eexists; split; [reflexivity |]).
  all: try (split; split; intros H; try discriminate; try reflexivity; lia).
  all: change (Pos.compare_cont Eq mx my) with (Pos.compare mx my);
    destruct (Z.compare_spec ex ey); [destruct (Pos.compare_spec mx my) |..];
    cbn [CompOpp]; split; split; intros H'; try discriminate; try reflexivity; lia.
Qed.

Lemma is_number_spec x : is_number x = true <-> Prim2SF x <> S754_nan.
Proof.
  unfold is_number, is_nan. rewrite FloatAxioms.eqb_spec. unfold SFeqb. split.
  - intros H E. rewrite E in H. discriminate.
  - intros H. destruct (SFcompare_rank _ _ H H) as (c & -> & HLt & HGt).
    destruct c; [reflexivity | |].
    + exfalso. pose proof (proj1 HLt eq_refl) as H1. unfold lex_lt in H1.
      destruct (rank (Prim2SF x)) as [[a b] d]. lia.
    + exfalso. pose proof (proj1 HGt eq_refl) as H1. unfold lex_lt in H1.
      destruct (rank (Prim2SF x)) as [[a b] d]. lia.
Qed.

Definition num_rank (x : float) : Z * Z * Z := rank (Prim2SF x).

Lemma ltb_rank x y :
  is_number x = true -> is_number y = true ->
  ((x <? y)%float = true <-> lex_lt (num_rank x) (num_rank y)).
Proof.
  rewrite !is_number_spec. intros Hx Hy. rewrite FloatAxioms.ltb_spec. unfold SFltb, num_rank.
  destruct (SFcompare_rank _ _ Hx Hy) as (c & -> & HLt & HGt).
  rewrite <- HLt. destruct c; split; congruence.
Qed.

Lemma ltb_nan_l x y : is_number x = false -> (x <? y)%float = false.
Proof.
  unfold is_number. intros H. rewrite FloatAxioms.ltb_spec. unfold SFltb.
  destruct (Prim2SF x) eqn:E; try reflexivity.
  all: exfalso; assert (Hn : is_number x = true) by (apply is_number_spec; congruence);
    unfold is_number in Hn; congruence.
Qed.


Lemma ltb_nan_r x y : is_number y = false -> (x <? y)%float = false.
Proof.
  unfold is_number. intros H. rewrite FloatAxioms.ltb_spec. unfold SFltb.
  destruct (Prim2SF y) eqn:E; try (destruct (Prim2SF x); reflexivity).
  all: exfalso; assert (Hn : is_number y = true) by (apply is_number_spec; congruence);
    unfold is_number in Hn; congruence.
Qed.

Lemma ltb_true_numbers x y :
  (x <? y)%float = true -> is_number x = true /\ is_number y = true.
Proof.
  intros H. split.
  - destruct (is_number x) eqn:E; [reflexivity |]. now rewrite ltb_nan_l in H.
  - destruct (is_number y) eqn:E; [reflexivity |]. now rewrite ltb_nan_r in H.
Qed.

Lemma leb_rank x y :
  is_number x = true -> is_number y = true ->
  ((x <=? y)%float = true <-> ~ lex_lt (num_rank y) (num_rank x)).
Proof.
  rewrite !is_number_spec. intros Hx Hy. rewrite FloatAxioms.leb_spec. unfold SFleb, num_rank.
  destruct (SFcompare_rank _ _ Hx Hy) as (c & -> & HLt & HGt).
  rewrite <- HGt. destruct c; split; congruence.
Qed.

Lemma lex_lt_trans p q r : lex_lt p q -> lex_lt q r -> lex_lt p r.
Proof.
  destruct p as [[a b] c], q as [[a' b'] c'], r as [[a'' b''] c'']. unfold lex_lt. lia.
Qed.

Lemma lex_lt_asym p q : lex_lt p q -> ~ lex_lt q p.
Proof. destruct p as [[a b] c], q as [[a' b'] c']. unfold lex_lt. lia. Qed.

Lemma ltb_trans x y z :
  (x <? y)%float = true -> (y <? z)%float = true -> (x <? z)%float = true.
Proof.
  intros Hxy Hyz.
  destruct (ltb_true_numbers _ _ Hxy) as [Nx Ny].
  destruct (ltb_true_numbers _ _ Hyz) as [_ Nz].
  apply ltb_rank in Hxy; auto. apply ltb_rank in Hyz; auto. apply ltb_rank; auto.
  eapply lex_lt_trans; eauto.
Qed.

Lemma ltb_asym x y : (x <? y)%float = true -> (y <? x)%float = false.
Proof.
  intros Hxy. destruct (ltb_true_numbers _ _ Hxy) as [Nx Ny].
  apply ltb_rank in Hxy; auto.
  destruct (y <? x)%float eqn:E; [| reflexivity].
  apply ltb_rank in E; auto. exfalso. eapply lex_lt_asym; eauto.
Qed.

Lemma ltb_leb x y : (x <? y)%float = true -> (x <=? y)%float = true.
Proof.
  intros Hxy. destruct (ltb_true_numbers _ _ Hxy) as [Nx Ny].
  apply ltb_rank in Hxy; auto. apply leb_rank; auto. now apply lex_lt_asym.
Qed.

Lemma not_ltb_leb x y :
  is_number x = true -> is_number y = true ->
  (x <? y)%float = false -> (y <=? x)%float = true.
Proof.
  intros Nx Ny H. apply leb_rank; auto. intros Hlt.
  apply ltb_rank in Hlt; auto. congruence.
Qed.

(** ** The sign of a difference *)

Lemma bounded_cases m e :
  bounded prec emax m e = true ->
  -1074 <= e <= 971 /\ Zpos (digits2_pos m) <= 53
  /\ (e = -1074 \/ Zpos (digits2_pos m) = 53).
Proof.
  unfold bounded, canonical_mantissa, fexp, SpecFloat.emin, prec, emax.
  rewrite Bool.andb_true_iff, Z.eqb_eq, Z.leb_le. lia.
Qed.

Definition aligned (m : positive) (e ez : Z) : Z := Zpos (fst (shl_align m e ez)).

Lemma aligned_pow m e ez : ez <= e -> aligned m e ez = Zpos m * 2 ^ (e - ez).
Proof.
  intros H. unfold aligned, shl_align. destruct (ez - e) as [| p | p] eqn:E; cbn [fst].
  - replace (e - ez) with 0 by lia. lia.
  - lia.
  - rewrite iter_xO_pow. f_equal. f_equal. lia.
Qed.

Lemma aligned_lt m1 e1 m2 e2 :
  bounded prec emax m1 e1 = true -> bounded prec emax m2 e2 = true ->
  e1 < e2 -> aligned m1 e1 e1 < aligned m2 e2 e1.
Proof.
  intros H1 H2 He.
  apply bounded_cases in H1 as (Hr1 & Hd1 & _).
  apply bounded_cases in H2 as (Hr2 & _ & Hn2).
  rewrite !aligned_pow by lia. rewrite Z.sub_diag, Z.mul_1_r.
  assert (Hd2 : Zpos (digits2_pos m2) = 53) by lia.
  pose proof (digits2_bounds m1) as [_ Hu1].
  pose proof (digits2_bounds m2) as [Hl2 _]. rewrite Hd2 in Hl2.
  assert (Zpos m1 < 2 ^ 53).
  { eapply Z.lt_le_trans; [exact Hu1 |]. apply Z.pow_le_mono_r; lia. }
  assert (2 ^ 1 <= 2 ^ (e2 - e1)) by (apply Z.pow_le_mono_r; lia).
  change (2 ^ (53 - 1)) with 4503599627370496 in Hl2.
  change (2 ^ 53) with 9007199254740992 in *.
  change (2 ^ 1) with 2 in *. nia.
Qed.

Lemma aligned_compare m1 e1 m2 e2 :
  bounded prec emax m1 e1 = true -> bounded prec emax m2 e2 = true ->
  (aligned m1 e1 (Z.min e2 e1) ?= aligned m2 e2 (Z.min e2 e1)) =
  match e1 ?= e2 with
  | Lt => Lt
  | Gt => Gt
  | Eq => Pos.compare m1 m2
  end.
Proof.
  intros H1 H2. destruct (Z.compare_spec e1 e2) as [E | E | E].
  - subst e2. rewrite Z.min_id, !aligned_pow, Z.sub_diag, !Z.mul_1_r by lia. reflexivity.
  - rewrite Z.min_r by lia. apply Z.compare_lt_iff. now apply aligned_lt.
  - rewrite Z.min_l by lia. apply Z.compare_gt_iff. now apply aligned_lt.
Qed.

Lemma binary_round_sign s m e :
  -1074 <= e ->
  SFltb (S754_zero false) (binary_round prec emax s m e) = negb s.
Proof.
  intros He. unfold binary_round.
  destruct (shl_align m e (fexp prec emax (Zpos (digits2_pos m) + e))) as [mz ez] eqn:E.
  assert (Hez : -1074 <= ez).
  { unfold shl_align in E.
    destruct (fexp prec emax (Zpos (digits2_pos m) + e) - e) eqn:E';
      inversion E; subst; try lia.
    unfold fexp, SpecFloat.emin, prec, emax. lia. }
  destruct (binary_round_aux_sign s mz ez loc_Exact (fexp_small_shift mz ez Hez))
    as [-> | (m' & e' & -> & _)]; destruct s; reflexivity.
Qed.

Lemma binary_normalize_sign D e :
  -1074 <= e ->
  SFltb (S754_zero false) (binary_normalize prec emax D e false) = (0 <? D).
Proof.
  intros He. destruct D as [| p | p]; cbn [binary_normalize].
  - reflexivity.
  - now rewrite binary_round_sign.
  - now rewrite binary_round_sign.
Qed.

Lemma SFsub_sign A B :
  valid_binary A = true -> valid_binary B = true ->
  A <> S754_nan -> B <> S754_nan ->
  SFltb (S754_zero false) (SF64sub B A) = SFltb A B.
Proof.
  intros VA VB NA NB.
  destruct A as [[] | [] | | sa ma ea], B as [[] | [] | | sb mb eb]; try congruence;
    try reflexivity; try (destruct sa; reflexivity); try (destruct sb; reflexivity).
  cbn [valid_binary] in VA, VB.
  unfold SF64sub. cbn [SFsub].
  pose proof (bounded_cases _ _ VA) as (Ha & _).
  pose proof (bounded_cases _ _ VB) as (Hb & _).
  rewrite binary_normalize_sign by lia.
  pose proof (aligned_compare ma ea mb eb VA VB) as Hc.
  fold (aligned mb eb (Z.min eb ea)). fold (aligned ma ea (Z.min eb ea)).
  set (Ma := aligned ma ea (Z.min eb ea)) in *.
  set (Mb := aligned mb eb (Z.min eb ea)) in *.
  assert (0 < Ma) by (subst Ma; unfold aligned; lia).
  assert (0 < Mb) by (subst Mb; unfold aligned; lia).
  unfold SFltb. cbn [SFcompare].
  change (Pos.compare_cont Eq ma mb) with (Pos.compare ma mb).
  destruct (Z.compare_spec Ma Mb) as [E | E | E];
    destruct sa, sb; cbn [cond_Zopp];
    destruct (ea ?= eb); try destruct (Pos.compare ma mb); try discriminate Hc;
    cbn [CompOpp]; first [ apply Z.ltb_lt; lia | apply Z.ltb_ge; lia ].
Qed.

(** [cmp > 0] for a comparator [(a, b) => y - x] is the test [x < y]. *)
Lemma sub_pos x y :
  is_number x = true -> is_number y = true ->
  (0 <? y - x)%float = (x <? y)%float.
Proof.
  intros Hx Hy. rewrite !FloatAxioms.ltb_spec, FloatAxioms.sub_spec.
  change (Prim2SF 0) with (S754_zero false).
  apply SFsub_sign; try apply FloatAxioms.Prim2SF_valid; now apply is_number_spec.
Qed.


(** ** Square roots and their products never underflow to zero *)

(** A value far from zero: NaN, an infinity, or a normal number of
    magnitude at least [2^-537]. *)
Definition far_from_zero (r : spec_float) : Prop :=
  match r with
  | S754_zero _ => False
  | S754_finite _ m e => Zpos (digits2_pos m) = 53 /\ -589 <= e
  | _ => True
  end.

Lemma SFsqrt_far x :
  valid_binary x = true -> valid_binary (SF64sqrt x) = true ->
  SFeqb x (S754_zero false) = false ->
  far_from_zero (SF64sqrt x).
Proof.
  intros Vx Vr Hnz.
  destruct x as [[] | [] | | [] m e]; try discriminate Hnz; try exact I.
  cbn [valid_binary] in Vx. apply bounded_cases in Vx as (He & Hd & _).
  unfold SF64sqrt in *. cbn [SFsqrt] in *.
  unfold SFsqrt_core_binary in *. cbn [Zdigits2] in *.
  set (e' := Z.min (fexp prec emax (Z.div2 (Zpos (digits2_pos m) + e + 1))) (Z.div2 e)) in *.
  assert (He' : -589 <= e' /\ 2 * e' <= e).
  { subst e'. rewrite !Z.div2_div. unfold fexp, SpecFloat.emin, prec, emax.
    pose proof (Z.mul_div_le e 2 ltac:(lia)).
    pose proof (Z.mul_succ_div_gt (Zpos (digits2_pos m) + e + 1) 2 ltac:(lia)).
    pose proof (Z.mul_succ_div_gt e 2 ltac:(lia)).
    lia. }
  set (mm := match e - 2 * e' with
             | 0 => Zpos m
             | Zpos _ => Z.shiftl (Zpos m) (e - 2 * e')
             | Zneg _ => 0
             end) in *.
  assert (Hmm : exists p, mm = Zpos p).
  { subst mm. destruct (e - 2 * e') as [| p | p] eqn:E; [eauto | | lia].
    rewrite Z.shiftl_mul_pow2 by lia.
    assert (0 < Zpos m * 2 ^ Zpos p) by (apply Z.mul_pos_pos; [| apply Z.pow_pos_nonneg]; lia).
    destruct (Zpos m * 2 ^ Zpos p); try lia. eauto. }
  destruct Hmm as (p & Hp). rewrite Hp in *. cbn [Z.sqrtrem] in *.
  destruct (Pos.sqrtrem p) as [q r].
  assert (Hq : exists l, (let (q0, r0) := match r with
                                          | Pos.IsPos r1 => (Zpos q, Zpos r1)
                                          | _ => (Zpos q, 0)
                                          end in
                          (q0, e', if r0 =? 0 then loc_Exact
                                   else loc_Inexact (if r0 <=? q0 then Lt else Gt)))
                         = (Zpos q, e', l)).
  { destruct r; eauto. }
  destruct Hq as (l & Hq). rewrite Hq in *. clear Hq.
  destruct (binary_round_aux_sign false q e' l (fexp_small_shift q e' ltac:(lia)))
    as [E | (m2 & e2 & E & Hle)]; rewrite E in *; [exact I |].
  cbn [far_from_zero]. cbn [valid_binary] in Vr.
  apply bounded_cases in Vr. lia.
Qed.

Lemma digits2_product m1 m2 :
  Zpos (digits2_pos m1) = 53 -> Zpos (digits2_pos m2) = 53 ->
  105 <= Zpos (digits2_pos (m1 * m2)).
Proof.
  intros H1 H2.
  pose proof (digits2_bounds m1) as [L1 _]. rewrite H1 in L1.
  pose proof (digits2_bounds m2) as [L2 _]. rewrite H2 in L2.
  pose proof (digits2_bounds (m1 * m2)) as [_ U].
  destruct (Z.le_gt_cases 105 (Zpos (digits2_pos (m1 * m2)))) as [| Hlt]; [assumption |].
  exfalso.
  assert (2 ^ Zpos (digits2_pos (m1 * m2)) <= 2 ^ 104) by (apply Z.pow_le_mono_r; lia).
  rewrite Pos2Z.inj_mul in U.
  change (2 ^ (53 - 1)) with 4503599627370496 in *.
  change (2 ^ 104) with (4503599627370496 * 4503599627370496) in *.
  nia.
Qed.

Lemma SFmul_far r1 r2 :
  far_from_zero r1 -> far_from_zero r2 ->
  SFeqb (SF64mul r1 r2) (S754_zero false) = false.
Proof.
  intros F1 F2.
  destruct r1 as [s1 | s1 | | s1 m1 e1], r2 as [s2 | s2 | | s2 m2 e2];
    cbn [far_from_zero] in *; try contradiction; try reflexivity;
    try (destruct s1, s2; reflexivity).
  destruct F1 as [D1 E1], F2 as [D2 E2].
  unfold SF64mul. cbn [SFmul].
  pose proof (digits2_product m1 m2 D1 D2) as HD.
  destruct (binary_round_aux_sign (xorb s1 s2) (m1 * m2) (e1 + e2) loc_Exact) as
    [-> | (m' & e' & -> & _)].
  - unfold fexp, SpecFloat.emin, prec, emax. lia.
  - destruct (xorb s1 s2); reflexivity.
  - destruct (xorb s1 s2); reflexivity.
Qed.

(** The denominator of a guarded cosine is never zero. *)
Lemma sqrt_product_nonzero x y :
  (x =? 0)%float = false -> (y =? 0)%float = false ->
  (sqrt x * sqrt y =? 0)%float = false.
Proof.
  rewrite !FloatAxioms.eqb_spec, FloatAxioms.mul_spec, !FloatAxioms.sqrt_spec.
  change (Prim2SF 0) with (S754_zero false).
  intros Hx Hy. apply SFmul_far.
  - apply SFsqrt_far; [apply FloatAxioms.Prim2SF_valid | | exact Hx].
    unfold SF64sqrt. rewrite <- FloatAxioms.sqrt_spec. apply FloatAxioms.Prim2SF_valid.
  - apply SFsqrt_far; [apply FloatAxioms.Prim2SF_valid | | exact Hy].
    unfold SF64sqrt. rewrite <- FloatAxioms.sqrt_spec. apply FloatAxioms.Prim2SF_valid.
Qed.

End FloatFacts.

(* ===================================================================== *)
(** * Similarity kernel (src/utils/cosineSimilarity.ts) *)
(* ===================================================================== *)

Module Similarity.

(** A [Float32Array] read as numbers; an index past the end reads
    [undefined], which is [NaN] in arithmetic. *)
Definition Float32Array := list float.
Definition at_index (a : Float32Array) (i : nat) : float := nth i a nan.

(** One iteration of the [for] loop: [(dot, normA, normB)] updated at
    index [i]. *)
Definition cosine_step (a b : Float32Array) (acc : float * float * float) (i : nat)
  : float * float * float :=
  let '(dot, normA, normB) := acc in
  let av := at_index a i in
  let bv := at_index b i in
  ((dot + av * bv)%float, (normA + av * av)%float, (normB + bv * bv)%float).

(** The three accumulators when the loop exits. *)
Definition cosine_sums (a b : Float32Array) : float * float * float :=
  let len := Nat.min (length a) (length b) in
  fold_left (cosine_step a b) (seq 0 len) (0%float, 0%float, 0%float).

(** What the function does after the loop: return the constant [0], or
    evaluate [dot / (sqrt normA * sqrt normB)]. *)
Inductive cosine_exit :=
| ReturnZero
| Divide (num den : float).

Definition cosine_branch (a b : Float32Array) : cosine_exit :=
  let '(dot, normA, normB) := cosine_sums a b in
  if JS.strict_eq normA 0 || JS.strict_eq normB 0 then ReturnZero
  else Divide dot (sqrt normA * sqrt normB)%float.

Definition cosineSimilarity (a b : Float32Array) : float :=
  match cosine_branch a b with
  | ReturnZero => 0%float
  | Divide num den => (num / den)%float
  end.

(** The formula of the specification, written over the two prefixes:
    sums run left to right from [0]. *)
Definition dot_product (u v : list float) : float :=
  fold_left (fun s p => (s + fst p * snd p)%float) (combine u v) 0%float.

Definition prefix_cosine (a b : Float32Array) : float :=
  let n := Nat.min (length a) (length b) in
  let a' := firstn n a in
  let b' := firstn n b in
  let normA := dot_product a' a' in
  let normB := dot_product b' b' in
  if JS.strict_eq normA 0 || JS.strict_eq normB 0 then 0%float
  else (dot_product a' b' / (sqrt normA * sqrt normB))%float.

End Similarity.

Module SimilarityFacts.
Import Similarity.

Lemma cosine_step_shift x a y b acc i :
  cosine_step (x :: a) (y :: b) acc (S i) = cosine_step a b acc i.
Proof. reflexivity. Qed.

Lemma fold_cosine_shift x a y b l acc :
  fold_left (cosine_step (x :: a) (y :: b)) (map S l) acc
  = fold_left (cosine_step a b) l acc.
Proof.
  revert acc. induction l as [| i l IH]; intros acc; [reflexivity |].
  cbn [map fold_left]. rewrite cosine_step_shift. apply IH.
Qed.

Definition dot_from (s : float) (u v : list float) : float :=
  fold_left (fun s p => (s + fst p * snd p)%float) (combine u v) s.

(** The loop leaves the three left-to-right sums over the common prefix. *)
Lemma cosine_loop_sums a b d na nb :
  let n := Nat.min (length a) (length b) in
  fold_left (cosine_step a b) (seq 0 n) (d, na, nb)
  = (dot_from d (firstn n a) (firstn n b),
     dot_from na (firstn n a) (firstn n a),
     dot_from nb (firstn n b) (firstn n b)).
Proof.
  revert b d na nb. induction a as [| x a IH]; intros [| y b] d na nb; try reflexivity.
  cbn [length Nat.min]. cbn zeta. rewrite <- cons_seq, <- seq_shift.
  cbn [fold_left]. rewrite fold_cosine_shift.
  unfold cosine_step at 2, at_index. cbn [nth].
  rewrite IH. reflexivity.
Qed.

Lemma cosine_sums_prefix a b :
  let n := Nat.min (length a) (length b) in
  cosine_sums a b
  = (dot_product (firstn n a) (firstn n b),
     dot_product (firstn n a) (firstn n a),
     dot_product (firstn n b) (firstn n b)).
Proof. apply cosine_loop_sums. Qed.

(** C5. [cosineSimilarity a b] is the quotient of the dot product by the
    product of the two norms, all three taken over the first
    [min |a| |b|] components only; when either of these norms is exactly
    zero (in particular when a vector is empty) the function returns [0]
    through the early exit, and whenever it does reach the division the
    divisor is not zero. *)
Theorem cosineSimilarity_prefix_guarded (a b : Float32Array) :
  let n := Nat.min (length a) (length b) in
  let normA := dot_product (firstn n a) (firstn n a) in
  let normB := dot_product (firstn n b) (firstn n b) in
  cosineSimilarity a b = prefix_cosine a b
  /\ (JS.strict_eq normA 0 || JS.strict_eq normB 0 = true ->
      cosine_branch a b = ReturnZero /\ cosineSimilarity a b = 0%float)
  /\ (JS.strict_eq normA 0 || JS.strict_eq normB 0 = false ->
      cosine_branch a b
      = Divide (dot_product (firstn n a) (firstn n b)) (sqrt normA * sqrt normB)%float)
  /\ (forall num den, cosine_branch a b = Divide num den ->
      JS.strict_eq den 0 = false)
  /\ (a = [] \/ b = [] -> cosineSimilarity a b = 0%float).
Proof.
  intros n normA normB.
  assert (Hbranch : cosine_branch a b =
    if JS.strict_eq normA 0 || JS.strict_eq normB 0 then ReturnZero
    else Divide (dot_product (firstn n a) (firstn n b)) (sqrt normA * sqrt normB)%float).
  { unfold cosine_branch. rewrite cosine_sums_prefix. reflexivity. }
  split; [| split; [| split; [| split]]].
  - unfold cosineSimilarity, prefix_cosine. rewrite Hbranch.
    fold n. fold normA. fold normB.
    destruct (JS.strict_eq normA 0 || JS.strict_eq normB 0); reflexivity.
  - intros Hz. unfold cosineSimilarity. rewrite Hbranch, Hz. split; reflexivity.
  - intros Hz. rewrite Hbranch, Hz. reflexivity.
  - intros num den. rewrite Hbranch.
    destruct (JS.strict_eq normA 0 || JS.strict_eq normB 0) eqn:Hz; [discriminate |].
    intros [= _ <-]. apply orb_false_iff in Hz as [Ha Hb].
    now apply FloatFacts.sqrt_product_nonzero.
  - intros Hempty. unfold cosineSimilarity, cosine_branch, cosine_sums.
    assert (Hn : Nat.min (length a) (length b) = 0%nat).
    { destruct Hempty as [-> | ->]; cbn; lia. }
    rewrite Hn. reflexivity.
Qed.

End SimilarityFacts.

(* ===================================================================== *)
(** * Data model (src/types.ts) *)
(* ===================================================================== *)

Module Types.
Import Similarity.

(** [Uint8Array] and [Uint32Array] hold integers; a store wraps the value
    into the element range. *)
Definition Uint8Array := list Z.
Definition Uint32Array := list Z.

Record MatryoshkaEmbeddings := {
  full : Float32Array;
  medium : Float32Array;
  small : Float32Array;
  tiny : Uint8Array;
  nano : Uint32Array
}.

Record ColbertData := {
  tokens : list JS.text;
  embeddings : list Float32Array;
  importance : Float32Array
}.

Record UltraMetadata := {
  meta_type : string;
  meta_importance : option float;
  meta_created : option float;
  meta_lastAccessed : option float
}.

Record UltraChunk := {
  id : string;
  content : JS.text;
  matryoshka : MatryoshkaEmbeddings;
  colbert : ColbertData;
  metadata : UltraMetadata
}.

(** The fields [binary], [hnsw], [colbert], [final] of the source; two
    carry a prefix because [UltraChunk] and the orchestrator have fields
    of the same name. *)
Record SearchBreakdown := {
  binary : Z;
  bd_hnsw : float;
  bd_colbert : float;
  final : float
}.

Record SearchResult := {
  chunk : UltraChunk;
  score : float;
  breakdown : SearchBreakdown
}.

End Types.

(* ===================================================================== *)
(** * Embedding provider (src/core/MatryoshkaGenerator.ts) *)
(* ===================================================================== *)

Module MatryoshkaGenerator.
Import JS Similarity Types.

(** [seededRandom(seed)]: the closure's variable [x] is the state; one
    call of the returned function is [rand_step]. *)
Definition seededRandom (seed : Z) : Z :=
  if (seed =? 0)%Z then 123456789%Z else seed.

Definition rand_step (x : Z) : float * Z :=
  let x1 := bxor x (shl x 13) in
  let x2 := bxor x1 (sar x1 17) in
  let x3 := bxor x2 (shl x2 5) in
  ((ofZ (ushr0 x3) / 4294967296)%float, x3).

(** [full.slice(start, end)] on a typed array, [start <= end]. *)
Definition slice (start stop : nat) (a : Float32Array) : Float32Array :=
  firstn (stop - start) (skipn start a).

Section Provider.

(** [Math.sin]: the language leaves its result implementation-approximated,
    so the provider is parameterised by it. *)
Variable Math_sin : float -> float.

(** The body of the [for] loop of [generateRoPEEmbedding], from index [i],
    [n] iterations to go, with the generator state [x]. *)
Fixpoint rope_loop (n i : nat) (dimensions seed : float) (x : Z) : Float32Array :=
  match n with
  | O => []
  | S n' =>
      let angle := (ofNat i / dimensions)%float in
      let s := (Math_sin (angle * seed) * 0.5)%float in
      let '(r, x') := rand_step x in
      fround (s + r) :: rope_loop n' (S i) dimensions seed x'
  end.

Definition generateRoPEEmbedding (t : text) (dimensions : nat) : Float32Array :=
  let seed := Z.of_nat (length t) in
  rope_loop dimensions 0 (ofNat dimensions) (ofZ seed) (seededRandom seed).

(** [full[i] > 0.5 ? 1 : 0]. *)
Definition threshold_bit (v : float) : Z := if gt v 0.5 then 1%Z else 0%Z.

(** [if (full[i] > 0.5) nano[0] |= 1 << i]: the word is read, or-ed as a
    signed 32-bit integer and stored back into the [Uint32Array]. *)
Definition nano_step (full : Float32Array) (w : Z) (i : nat) : Z :=
  if gt (at_index full i) 0.5 then toUint32 (bor w (shl 1 (Z.of_nat i))) else w.

Definition token_embedding (scale : float) (tok : text) : Float32Array :=
  map (fun j => fround (Math_sin (ofNat (length tok + j) * scale)))
      (seq 0 32).

Definition generateAll (t : text) : MatryoshkaEmbeddings * ColbertData :=
  let full := generateRoPEEmbedding t 768 in
  let medium := slice 0 256 full in
  let small := slice 0 128 full in
  let tiny := map (fun i => threshold_bit (at_index full i)) (seq 0 64) in
  let nano := [fold_left (nano_step full) (seq 0 32) 0%Z] in
  let tokens := split_ws t in
  let embeddings := map (token_embedding 0.1) tokens in
  let importance := map (fun _ => fround 1) tokens in
  ({| full := full; medium := medium; small := small; tiny := tiny; nano := nano |},
   {| tokens := tokens; embeddings := embeddings; importance := importance |}).

End Provider.

(** A concrete sine for running the provider: argument reduction by
    repeated subtraction, then the Taylor polynomial of degree 11. *)
Fixpoint reduce_angle (fuel : nat) (x : float) : float :=
  match fuel with
  | O => x
  | S fuel' =>
      if (3.141592653589793 <? x)%float
      then reduce_angle fuel' (x - 6.283185307179586)%float
      else if (x <? -3.141592653589793)%float
           then reduce_angle fuel' (x + 6.283185307179586)%float
           else x
  end.

Definition sin_taylor (x : float) : float :=
  let r := reduce_angle 4096 x in
  let r2 := (r * r)%float in
  (r * (1 - r2 / 6 * (1 - r2 / 20 * (1 - r2 / 42 * (1 - r2 / 72 * (1 - r2 / 110))))))%float.

End MatryoshkaGenerator.

Module JSFacts.
Import JS.
Local Open Scope Z_scope.

Lemma toInt32_mod z : toInt32 z mod 2 ^ 32 = z mod 2 ^ 32.
Proof.
  unfold toInt32. rewrite Zminus_mod_idemp_l. f_equal. lia.
Qed.

Lemma toInt32_range z : - 2 ^ 31 <= toInt32 z < 2 ^ 31.
Proof.
  unfold toInt32. pose proof (Z.mod_pos_bound (z + 2 ^ 31) (2 ^ 32) ltac:(lia)). lia.
Qed.

Lemma toInt32_id z : - 2 ^ 31 <= z < 2 ^ 31 -> toInt32 z = z.
Proof.
  intros H. unfold toInt32. rewrite Z.mod_small; lia.
Qed.

Lemma toInt32_bits z j : 0 <= j < 32 -> Z.testbit (toInt32 z) j = Z.testbit z j.
Proof.
  intros Hj.
  rewrite <- (Z.mod_pow2_bits_low (toInt32 z) 32 j) by lia.
  rewrite toInt32_mod. apply Z.mod_pow2_bits_low. lia.
Qed.

Lemma toUint32_bits z j : 0 <= j < 32 -> Z.testbit (toUint32 z) j = Z.testbit z j.
Proof. intros Hj. unfold toUint32. apply Z.mod_pow2_bits_low. lia. Qed.

Lemma toUint32_bits_high z j : 32 <= j -> Z.testbit (toUint32 z) j = false.
Proof. intros Hj. unfold toUint32. apply Z.mod_pow2_bits_high. lia. Qed.

Lemma toUint32_range z : 0 <= toUint32 z < 2 ^ 32.
Proof. unfold toUint32. apply Z.mod_pos_bound. lia. Qed.

(** Reading a typed array at the indices [0 .. n-1] is mapping over its
    first [n] elements. *)
Lemma map_index_firstn {A B} (f : A -> B) (d : A) (l : list A) (n : nat) :
  (n <= length l)%nat ->
  map (fun i => f (nth i l d)) (seq 0 n) = map f (firstn n l).
Proof.
  revert n. induction l as [| x l IH]; intros [| n] Hn; cbn in Hn; try reflexivity; try lia.
  cbn [firstn map]. rewrite <- cons_seq, <- seq_shift. cbn [map nth].
  rewrite map_map. cbn [nth]. f_equal. apply IH. lia.
Qed.

End JSFacts.

Module MatryoshkaFacts.
Import JS Similarity Types MatryoshkaGenerator JSFacts.

Section Provider.
Variable Math_sin : float -> float.

Lemma rope_loop_length n i d s x : length (rope_loop Math_sin n i d s x) = n.
Proof.
  revert i x. induction n as [| n IH]; intros i x; [reflexivity |].
  cbn [rope_loop]. destruct (rand_step x). cbn [length]. now rewrite IH.
Qed.

Lemma generateRoPEEmbedding_length t d :
  length (generateRoPEEmbedding Math_sin t d) = d.
Proof. apply rope_loop_length. Qed.

(** The bits of the nano word after the indices below [k] were visited. *)
Lemma nano_fold_bits (full : Float32Array) (k : nat) :
  (k <= 32)%nat ->
  let w := fold_left (nano_step full) (seq 0 k) 0%Z in
  (0 <= w < 2 ^ 32)%Z /\
  forall j : nat,
    Z.testbit w (Z.of_nat j) = (j <? k)%nat && gt (at_index full j) 0.5.
Proof.
  induction k as [| k IH]; intros Hk.
  - cbn. split; [lia |]. intros j. now rewrite Z.testbit_0_l.
  - rewrite seq_S, fold_left_app. cbn [fold_left Nat.add].
    destruct (IH ltac:(lia)) as [Hr Hb]. cbn zeta in Hr, Hb.
    set (w := fold_left (nano_step full) (seq 0 k) 0%Z) in *.
    cbn zeta.
    destruct (gt (at_index full k) 0.5) eqn:Hthr; unfold nano_step; rewrite Hthr.
    + split; [apply toUint32_range |]. intros j.
      destruct (Nat.lt_ge_cases j 32) as [Hj | Hj].
      * rewrite toUint32_bits by lia. unfold bor. rewrite toInt32_bits by lia.
        rewrite Z.lor_spec, !toInt32_bits by lia. rewrite Hb.
        unfold shl. rewrite toInt32_bits by lia.
        change (toInt32 1) with 1%Z. rewrite Z.mod_small by lia.
        rewrite Z.shiftl_spec by lia.
        destruct (Nat.eq_dec j k) as [-> | Hne].
        -- rewrite Z.sub_diag. cbn [Z.testbit Z.odd]. rewrite Hthr.
           rewrite Bool.orb_true_r. symmetry. apply andb_true_intro. split; [| reflexivity].
           apply Nat.ltb_lt. lia.
        -- assert (Hbit : Z.testbit 1 (Z.of_nat j - Z.of_nat k) = false).
           { destruct (Z.of_nat j - Z.of_nat k)%Z eqn:E; try lia; reflexivity. }
           rewrite Hbit, Bool.orb_false_r. f_equal.
           destruct (Nat.ltb_spec j k), (Nat.ltb_spec j (S k)); try reflexivity; lia.
      * rewrite toUint32_bits_high by lia. symmetry.
        apply Bool.andb_false_iff. left. apply Nat.ltb_ge. lia.
    + split; [exact Hr |]. intros j. rewrite Hb.
      destruct (Nat.eq_dec j k) as [-> | Hne].
      * rewrite Hthr, !Bool.andb_false_r. reflexivity.
      * f_equal. destruct (Nat.ltb_spec j k), (Nat.ltb_spec j (S k)); try reflexivity; lia.
Qed.

Lemma nth_map_seq {B} (g : nat -> B) (n i : nat) (d : B) :
  i < n -> nth i (map g (seq 0 n)) d = g i.
Proof.
  intros Hi. rewrite (nth_indep _ d (g 0)) by (rewrite length_map, length_seq; lia).
  rewrite map_nth, seq_nth by lia. reflexivity.
Qed.

Lemma nth_firstn_low {B} (l : list B) (d : B) : forall n i,
  i < n -> nth i (firstn n l) d = nth i l d.
Proof.
  induction l as [| x l IH]; intros [| n] [| i] Hi; try lia; try reflexivity.
  cbn [firstn nth]. apply IH. lia.
Qed.

Lemma fold_left_ext_in {B} (F G : B -> nat -> B) (l : list nat) : forall w,
  (forall i w', i ∈ l -> F w' i = G w' i) -> fold_left F l w = fold_left G l w.
Proof.
  induction l as [| i l IH]; intros w H; [reflexivity |]. cbn [fold_left].
  rewrite (H i w) by (now left). apply IH. intros j w' Hj. apply H. now right.
Qed.

(** C8. Tier nesting of a generated bundle: [full] has 768 entries,
    [medium] is its first 256 and [small] its first 128 (hence also the
    first 128 of [medium]); [tiny] has 64 entries, entry [i] being 1 when
    entry [i] of [full] is greater than 0.5 and 0 otherwise; [nano] is
    one 32-bit word whose bit [i] is set exactly when entry [i] of [full]
    is greater than 0.5.  The two sketches are read off the first 64
    entries of [full] and nothing else: texts whose full vectors agree
    there get the same sketches. *)
Theorem generateAll_tier_nesting (t : text) :
  let m := fst (generateAll Math_sin t) in
  length (full m) = 768
  /\ medium m = firstn 256 (full m) /\ length (medium m) = 256
  /\ small m = firstn 128 (full m) /\ length (small m) = 128
  /\ small m = firstn 128 (medium m)
  /\ length (tiny m) = 64
  /\ (forall i : nat, i < 64 ->
       nth i (tiny m) 0%Z
       = if (0.5 <? nth i (full m) nan)%float then 1%Z else 0%Z)
  /\ (exists w, nano m = [w] /\ (0 <= w < 2 ^ 32)%Z /\
       forall i : nat, i < 32 ->
         Z.testbit w (Z.of_nat i) = (0.5 <? nth i (full m) nan)%float)
  /\ (forall t' : text,
       firstn 64 (full (fst (generateAll Math_sin t'))) = firstn 64 (full m) ->
       tiny (fst (generateAll Math_sin t')) = tiny m /\
       nano (fst (generateAll Math_sin t')) = nano m).
Proof.
  cbn zeta. unfold generateAll. cbn [fst full medium small tiny nano].
  set (f := generateRoPEEmbedding Math_sin t 768).
  assert (Hlen : length f = 768) by apply generateRoPEEmbedding_length.
  assert (Hmed : slice 0 256 f = firstn 256 f) by reflexivity.
  assert (Hsm : slice 0 128 f = firstn 128 f) by reflexivity.
  rewrite Hmed, Hsm.
  split; [exact Hlen |].
  split; [reflexivity |].
  split; [rewrite length_firstn; lia |].
  split; [reflexivity |].
  split; [rewrite length_firstn; lia |].
  split; [rewrite firstn_firstn; reflexivity |].
  split; [rewrite length_map, length_seq; reflexivity |].
  split.
  { intros i Hi. rewrite nth_map_seq by exact Hi. reflexivity. }
  split.
  - eexists. split; [reflexivity |].
    destruct (nano_fold_bits f 32 ltac:(lia)) as [Hr Hb]. split; [exact Hr |].
    intros i Hi. rewrite Hb.
    assert (Hlt : (i <? 32)%nat = true) by (apply Nat.ltb_lt; lia).
    rewrite Hlt. reflexivity.
  - intros t'. set (f' := generateRoPEEmbedding Math_sin t' 768). intros Heq.
    assert (Hat : forall i, i < 64 -> at_index f' i = at_index f i).
    { intros i Hi. unfold at_index.
      rewrite <- (nth_firstn_low f' nan 64 i Hi), Heq. now apply nth_firstn_low. }
    split.
    + apply map_ext_in. intros i Hi. apply in_seq in Hi. rewrite Hat by lia. reflexivity.
    + apply (f_equal (fun w : Z => [w])). apply fold_left_ext_in. intros i w Hi.
      apply list_elem_of_In, in_seq in Hi. unfold nano_step. rewrite Hat by lia. reflexivity.
Qed.

(** C9. The embedding depends on the text through its length only: two
    texts of equal length get the same RoPE vector (the generator is
    seeded with the length), hence the same [full], [medium], [small],
    [tiny] and [nano]; the token data can differ, as it does for
    ["ab cd"] and ["abcde"]. *)
Theorem equal_length_same_embeddings (t1 t2 : text) (dimensions : nat) :
  length t1 = length t2 ->
  generateRoPEEmbedding Math_sin t1 dimensions
    = rope_loop Math_sin dimensions 0 (ofNat dimensions)
        (ofNat (length t1)) (seededRandom (Z.of_nat (length t1)))
  /\ generateRoPEEmbedding Math_sin t1 dimensions = generateRoPEEmbedding Math_sin t2 dimensions
  /\ fst (generateAll Math_sin t1) = fst (generateAll Math_sin t2)
  /\ exists u1 u2 : text,
       length u1 = length u2 /\
       fst (generateAll Math_sin u1) = fst (generateAll Math_sin u2) /\
       snd (generateAll Math_sin u1) <> snd (generateAll Math_sin u2).
Proof.
  intros Hlen.
  assert (Hrope : forall d, generateRoPEEmbedding Math_sin t1 d = generateRoPEEmbedding Math_sin t2 d).
  { intros d. unfold generateRoPEEmbedding. now rewrite Hlen. }
  split; [reflexivity |]. split; [apply Hrope |]. split.
  - unfold generateAll. cbn [fst]. now rewrite Hrope.
  - exists (of_ascii_string "ab cd"), (of_ascii_string "abcde").
    split; [reflexivity |]. split; [reflexivity |].
    intros Heq. apply (f_equal tokens) in Heq. discriminate Heq.
Qed.

End Provider.

Lemma equal_length_same_embeddings_witness :
  length (of_ascii_string "graph") = length (of_ascii_string "index")
  /\ fst (generateAll sin_taylor (of_ascii_string "graph"))
     = fst (generateAll sin_taylor (of_ascii_string "index")).
Proof.
  split; [reflexivity |].
  apply (equal_length_same_embeddings sin_taylor
           (of_ascii_string "graph") (of_ascii_string "index") 768).
  reflexivity.
Defined.

End MatryoshkaFacts.

(* ===================================================================== *)
(** * Graph index (src/core/HNSWGraph.ts) *)
(* ===================================================================== *)

Module HNSWGraph.
Import JS Similarity.

Record HNSWNode := {
  id : string;
  vector : Float32Array;
  level : nat;
  neighbors : gmap nat (list string)   (* layer -> neighbour ids, a Set *)
}.

(** The fields of the class.  Objects of the node map are reached through
    their key only, so a mutation of a stored node is an update of the
    map at that key. *)
Record HNSW := {
  graph : gmap string HNSWNode;
  maxLevel : nat;
  entryPointId : option string;
  M : nat;
  efConstruction : nat
}.

(** [new HNSWGraph(M, efConstruction)]. *)
Definition create (M efConstruction : nat) : HNSW :=
  {| graph := ∅; maxLevel := 0; entryPointId := None;
     M := M; efConstruction := efConstruction |}.

(** An entry [{ id, distance }] of a candidate list. *)
Record scored := { sid : string; distance : float }.

(** [cmp(a, b) > 0] for the comparator [(a, b) => a.distance - b.distance]. *)
Definition farther (a b : scored) : bool :=
  gt (distance a - distance b)%float 0.

Definition dist (u v : Float32Array) : float :=
  (1 - cosineSimilarity u v)%float.

Definition layer_set (n : HNSWNode) (layer : nat) : list string :=
  default [] (neighbors n !! layer).

(** The [for (const neighborId of neighbors)] loop of [searchLayer]. *)
Fixpoint expand (g : gmap string HNSWNode) (query : Float32Array) (ef : nat)
    (nbrs : list string) (visited : list string) (candidates : list scored)
    (changed : bool) : list string * list scored * bool :=
  match nbrs with
  | [] => (visited, candidates, changed)
  | neighborId :: rest =>
      if bool_decide (neighborId ∈ visited)
      then expand g query ef rest visited candidates changed
      else
        let visited := set_add neighborId visited in
        match g !! neighborId with
        | None => expand g query ef rest visited candidates changed
        | Some neighborNode =>
            let d := dist query (vector neighborNode) in
            let candidates := candidates ++ [{| sid := neighborId; distance := d |}] in
            let candidates :=
              if ef <? length candidates
              then slice0 ef (sort farther candidates)
              else candidates in
            expand g query ef rest visited candidates true
        end
  end.

(** The [while (changed)] loop of [searchLayer], one iteration per unit
    of [fuel]. *)
Fixpoint search_loop (fuel : nat) (g : gmap string HNSWNode) (query : Float32Array)
    (ef layer : nat) (visited : list string) (candidates : list scored)
  : outcome (list scored) :=
  match fuel with
  | O => OutOfFuel
  | S fuel' =>
      let candidates := sort farther candidates in
      match candidates with
      | [] => TypeError
      | current :: _ =>
          match g !! sid current with
          | None => Ok candidates
          | Some currentNode =>
              let '(visited, candidates, changed) :=
                expand g query ef (layer_set currentNode layer)
                       visited candidates false in
              if changed
              then search_loop fuel' g query ef layer visited candidates
              else Ok candidates
          end
      end
  end.

(** Every id found in a neighbour set of [layer]; each productive
    iteration of the loop visits a new one of them. *)
Definition layer_ids (g : gmap string HNSWNode) (layer : nat) : list string :=
  flat_map (fun kn => layer_set (snd kn) layer) (map_to_list g).

Definition searchLayer (g : gmap string HNSWNode) (query : Float32Array)
    (ef layer : nat) (entryPointId : string) : outcome (list string) :=
  match g !! entryPointId with
  | None => Ok []
  | Some entryNode =>
      let visited := [entryPointId] in
      let distEntry := dist query (vector entryNode) in
      let candidates := [{| sid := entryPointId; distance := distEntry |}] in
      do candidates <- search_loop (S (length (layer_ids g layer))) g query ef layer
                      visited candidates ;
      Ok (map sid (slice0 ef (sort farther candidates)))
  end.

(** The layers [from, from - 1, ..., to + 1] of a descending [for] loop. *)
Definition layers_down (from to : nat) : list nat :=
  rev (seq (S to) (from - to)).

(** [for (l = from; l > to; l--)] with beam width 1, moving the entry. *)
Fixpoint descend (g : gmap string HNSWNode) (query : Float32Array)
    (layers : list nat) (currentEntryId : string) : outcome string :=
  match layers with
  | [] => Ok currentEntryId
  | l :: rest =>
      do candidates <- searchLayer g query 1 l currentEntryId ;
      descend g query rest
        match candidates with
        | c :: _ => c
        | [] => currentEntryId
        end
  end.

Definition search (h : HNSW) (queryVector : Float32Array) (ef targetLevel : nat)
  : outcome (list string) :=
  match entryPointId h with
  | None => Ok []
  | Some entry =>
      if bool_decide (entry = EmptyString) || (size (graph h) =? 0)
      then Ok []
      else
        do currentEntryId <- descend (graph h) queryVector
                            (layers_down (maxLevel h) targetLevel) entry ;
        searchLayer (graph h) queryVector ef targetLevel currentEntryId
  end.

Definition score_from (g : gmap string HNSWNode) (v : Float32Array) (i : string)
  : scored :=
  match g !! i with
  | None => {| sid := i; distance := infinity |}
  | Some n => {| sid := i; distance := dist v (vector n) |}
  end.

Definition selectNeighbors (g : gmap string HNSWNode) (candidates : list string)
    (M : nat) (newVector : Float32Array) : list string :=
  if length candidates <=? M then candidates
  else map sid (slice0 M (sort farther (map (score_from g newVector) candidates))).

(** [trimNeighbors(node, layer, M)]; the result is the node after the
    call. *)
Definition trimNeighbors (g : gmap string HNSWNode) (node : HNSWNode)
    (layer M : nat) : HNSWNode :=
  match neighbors node !! layer with
  | None => node
  | Some neighborSet =>
      if length neighborSet <=? M then node
      else
        let scored := map (score_from g (vector node)) neighborSet in
        let keep := set_of_list (map sid (slice0 M (sort farther scored))) in
        {| id := id node; vector := vector node; level := level node;
           neighbors := <[layer := keep]> (neighbors node) |}
  end.

(** One iteration of [for (const neighborId of selectedNeighbors)]: the
    state is the node map and the node being built. *)
Definition link (newId : string) (l M : nat)
    (st : gmap string HNSWNode * HNSWNode) (neighborId : string)
  : gmap string HNSWNode * HNSWNode :=
  let '(g, newNode) := st in
  let newNode :=
    {| id := id newNode; vector := vector newNode; level := level newNode;
       neighbors := <[l := set_add neighborId (layer_set newNode l)]>
                      (neighbors newNode) |} in
  match g !! neighborId with
  | None => (g, newNode)
  | Some neighborNode =>
      let linked :=
        {| id := id neighborNode; vector := vector neighborNode;
           level := level neighborNode;
           neighbors := <[l := set_add newId (layer_set neighborNode l)]>
                          (neighbors neighborNode) |} in
      let g := <[neighborId := linked]> g in
      (<[neighborId := trimNeighbors g linked l M]> g, newNode)
  end.

(** [for (l = level; l >= 0; l--)]: [layers] are the layers still to be
    connected, highest first. *)
Fixpoint connect (newId : string) (v : Float32Array) (M efConstruction : nat)
    (layers : list nat) (currentEntryId : string)
    (st : gmap string HNSWNode * HNSWNode)
  : outcome (gmap string HNSWNode * HNSWNode) :=
  match layers with
  | [] => Ok st
  | l :: rest =>
      do candidates <- searchLayer (fst st) v efConstruction l currentEntryId ;
      let selectedNeighbors := selectNeighbors (fst st) candidates M v in
      let st := fold_left (link newId l M) selectedNeighbors st in
      connect newId v M efConstruction rest
        match candidates with
        | c :: _ => c
        | [] => currentEntryId
        end st
  end.

(** The empty neighbour sets [0 .. level] of a new node. *)
Definition fresh_neighbors (level : nat) : gmap nat (list string) :=
  fold_left (fun m l => <[l := []]> m) (seq 0 (S level)) ∅.

(** The value of [getRandomLevel()], that is
    [Math.floor(-Math.log(Math.random()) * L_f)] with [L_f] at its default
    [1 / Math.log(2)] (the orchestrator passes none): a non-negative
    integer, or [Infinity] when [Math.random()] returns 0. *)
Inductive drawn :=
| Level (n : nat)
| InfiniteLevel.

(** [l <= level]. *)
Definition within (l : nat) (level : drawn) : bool :=
  match level with
  | Level n => l <=? n
  | InfiniteLevel => true
  end.

(** [for (let l = 0; l <= level; l++) newNode.neighbors.set(l, new Set())]
    from [l] on, one iteration per unit of [fuel]. *)
Fixpoint init_neighbors (fuel l : nat) (level : drawn) (m : gmap nat (list string))
  : outcome (gmap nat (list string)) :=
  match fuel with
  | O => OutOfFuel
  | S fuel' =>
      if within l level
      then init_neighbors fuel' (S l) level (<[l := []]> m)
      else Ok m
  end.

(** [insert(id, vector)], with the level drawn by [getRandomLevel] made an
    argument.  For a drawn integer the first loop leaves the sets
    [fresh_neighbors level]; on the [Infinity] draw it never exits, for
    any budget (both shown in [GraphFacts]), and the call does not
    return. *)
Definition insert (h : HNSW) (level : drawn) (newId : string) (v : Float32Array)
  : outcome HNSW :=
  match level with
  | InfiniteLevel => OutOfFuel
  | Level level =>
  let newNode := {| id := newId; vector := v; level := level;
                    neighbors := fresh_neighbors level |} in
  match entryPointId h with
  | Some entry =>
      if size (graph h) =? 0
      then Ok {| graph := <[newId := newNode]> (graph h); maxLevel := level;
                 entryPointId := Some newId;
                 M := M h; efConstruction := efConstruction h |}
      else
        let raised := maxLevel h <? level in
        let maxLevel' := if raised then level else maxLevel h in
        let entry' := if raised then newId else entry in
        do currentEntryId <- descend (graph h) v (layers_down maxLevel' level) entry' ;
        do st <- connect newId v (M h) (efConstruction h)
                (rev (seq 0 (S level))) currentEntryId (graph h, newNode) ;
        Ok {| graph := <[newId := snd st]> (fst st); maxLevel := maxLevel';
              entryPointId := Some entry';
              M := M h; efConstruction := efConstruction h |}
  | None =>
      Ok {| graph := <[newId := newNode]> (graph h); maxLevel := level;
            entryPointId := Some newId;
            M := M h; efConstruction := efConstruction h |}
  end
  end.

(** A sequence of [insert] calls that drew the given integer levels; a
    call that throws ends the run. *)
Fixpoint inserts (h : HNSW) (calls : list (nat * string * Float32Array))
  : outcome HNSW :=
  match calls with
  | [] => Ok h
  | (level, newId, v) :: rest =>
      do h' <- insert h (Level level) newId v ;
      inserts h' rest
  end.

End HNSWGraph.

(* ===================================================================== *)
(** * Facts about the runtime model *)
(* ===================================================================== *)

Module SortFacts.
Import JS.

Section Sort.
Context {A : Type}.
Variable after : A -> A -> bool.

Lemma sort_insert_perm x l : Permutation (sort_insert after x l) (x :: l).
Proof.
  induction l as [| y l IH]; cbn [sort_insert]; [reflexivity |].
  destruct (after x y); [| reflexivity].
  rewrite IH. apply perm_swap.
Qed.

Lemma sort_perm l : Permutation (sort after l) l.
Proof.
  induction l as [| x l IH]; cbn [sort]; [reflexivity |].
  rewrite sort_insert_perm. now constructor.
Qed.

Lemma sort_length l : length (sort after l) = length l.
Proof. apply Permutation_length, sort_perm. Qed.

Lemma sort_nonempty l : l <> [] -> sort after l <> [].
Proof.
  intros Hl Hs. apply (f_equal (@length A)) in Hs. rewrite sort_length in Hs.
  destruct l; [congruence | discriminate].
Qed.

End Sort.

Lemma set_add_elem x y s : y ∈ set_add x s <-> y = x \/ y ∈ s.
Proof.
  unfold set_add. case_bool_decide as Hx.
  - split; [auto | intros [-> | ?]; assumption].
  - rewrite elem_of_app, list_elem_of_singleton. tauto.
Qed.

Lemma set_add_NoDup x s : NoDup s -> NoDup (set_add x s).
Proof.
  intros Hs. unfold set_add. case_bool_decide as Hx; [assumption |].
  apply NoDup_app. repeat split; [assumption | | apply NoDup_singleton].
  intros y Hy Hy'. apply list_elem_of_singleton in Hy'. now subst.
Qed.

Lemma set_add_length x s : length (set_add x s) <= S (length s).
Proof.
  unfold set_add. case_bool_decide; [lia |]. rewrite length_app. cbn. lia.
Qed.

Lemma set_add_length_ge x s : length s <= length (set_add x s).
Proof.
  unfold set_add. case_bool_decide; [lia |]. rewrite length_app. cbn. lia.
Qed.

Lemma set_of_list_from l s :
  NoDup s ->
  let r := fold_left (fun s x => set_add x s) l s in
  NoDup r /\ (forall y, y ∈ r <-> y ∈ s \/ y ∈ l) /\ length r <= length s + length l.
Proof.
  revert s. induction l as [| x l IH]; intros s Hs; cbn [fold_left].
  - split; [assumption |]. split; [| cbn; lia].
    intros y. rewrite elem_of_nil. tauto.
  - destruct (IH (set_add x s) (set_add_NoDup x s Hs)) as (Hn & Hm & Hl).
    split; [exact Hn |]. split.
    + intros y. rewrite Hm, set_add_elem, elem_of_cons. tauto.
    + pose proof (set_add_length x s). cbn [length]. cbn zeta in Hl. lia.
Qed.

Lemma set_of_list_spec l :
  NoDup (set_of_list l) /\ (forall y, y ∈ set_of_list l <-> y ∈ l)
  /\ length (set_of_list l) <= length l.
Proof.
  destruct (set_of_list_from l [] (NoDup_nil_2 (A:=string))) as (Hn & Hm & Hl).
  split; [exact Hn |]. split; [| exact Hl].
  intros y. unfold set_of_list. rewrite Hm, elem_of_nil. tauto.
Qed.

End SortFacts.

(* ===================================================================== *)
(** * The beam search: termination and containment *)
(* ===================================================================== *)

Module SearchFacts.
Import JS Similarity HNSWGraph SortFacts.

Lemma take_elem {A} (x : A) n l : x ∈ firstn n l -> x ∈ l.
Proof.
  intros H. rewrite <- (firstn_skipn n l). apply elem_of_app. now left.
Qed.

Lemma take_NoDup {A} n (l : list A) : NoDup l -> NoDup (firstn n l).
Proof.
  intros H. rewrite <- (firstn_skipn n l) in H. now apply NoDup_app in H.
Qed.

Lemma map_elem {A B} (f : A -> B) l y : y ∈ map f l <-> exists x, y = f x /\ x ∈ l.
Proof. change (map f l) with (f <$> l). apply list_elem_of_fmap. Qed.

Section Layer.
Variable g : gmap string HNSWNode.
Variable query : Float32Array.
Variable ef layer : nat.

(** A property [R] of ids that every stored neighbour of a stored node
    has at this layer. *)
Definition layer_closed (R : string -> Prop) : Prop :=
  forall k node n,
    g !! k = Some node -> n ∈ layer_set node layer -> is_Some (g !! n) -> R n.

Section Invariant.
Variable R : string -> Prop.

(** What the loop maintains: candidate ids are pairwise distinct, visited,
    keys of the node map, and satisfy [R]. *)
Definition cands_ok (visited : list string) (cands : list scored) : Prop :=
  NoDup (map sid cands) /\
  forall c, c ∈ cands -> sid c ∈ visited /\ is_Some (g !! sid c) /\ R (sid c).

Lemma cands_ok_perm visited c c' :
  Permutation c c' -> cands_ok visited c -> cands_ok visited c'.
Proof.
  intros Hp [Hn Hm]. split.
  - rewrite <- (Permutation_map sid Hp). exact Hn.
  - intros x Hx. apply Hm. now rewrite Hp.
Qed.

Lemma cands_ok_take visited c n :
  cands_ok visited c -> cands_ok visited (firstn n c).
Proof.
  intros [Hn Hm]. split.
  - rewrite <- firstn_map. now apply take_NoDup.
  - intros x Hx. apply Hm. eapply take_elem, Hx.
Qed.

Lemma cands_ok_sort visited c :
  cands_ok visited c -> cands_ok visited (sort farther c).
Proof. apply cands_ok_perm. symmetry. apply sort_perm. Qed.

Lemma cands_ok_mono visited visited' c :
  (forall x, x ∈ visited -> x ∈ visited') ->
  cands_ok visited c -> cands_ok visited' c.
Proof.
  intros Hs [Hn Hm]. split; [exact Hn |].
  intros x Hx. destruct (Hm x Hx) as (? & ? & ?). auto.
Qed.

Lemma cands_ok_push visited c n node :
  n ∉ visited -> g !! n = Some node -> R n ->
  cands_ok visited c ->
  cands_ok (set_add n visited)
    (c ++ [{| sid := n; distance := dist query (vector node) |}]).
Proof.
  intros Hn Hg HR [Hd Hm]. split.
  - rewrite map_app. cbn [map]. apply NoDup_app. repeat split.
    + exact Hd.
    + intros x Hx Hx'. apply list_elem_of_singleton in Hx'. cbn [sid] in Hx'. subst x.
      apply map_elem in Hx as (c0 & E0 & Hc0). apply Hn. rewrite E0. now apply Hm.
    + apply NoDup_singleton.
  - intros x Hx. apply elem_of_app in Hx as [Hx | Hx].
    + destruct (Hm x Hx) as (? & ? & ?).
      split; [apply set_add_elem; now right | auto].
    + apply list_elem_of_singleton in Hx. subst x. cbn [sid].
      split; [apply set_add_elem; now left |]. split; [rewrite Hg; eauto | exact HR].
Qed.

(** The [for] loop over one neighbour set keeps the invariant. *)
Lemma expand_cands_ok nbrs : forall visited cands changed visited' cands' changed',
  (forall n, n ∈ nbrs -> is_Some (g !! n) -> R n) ->
  expand g query ef nbrs visited cands changed = (visited', cands', changed') ->
  cands_ok visited cands -> cands_ok visited' cands'.
Proof.
  induction nbrs as [| n rest IH];
    intros visited cands changed visited' cands' changed' HR E Hok.
  - cbn in E. inversion E; subst. exact Hok.
  - assert (HR' : forall m, m ∈ rest -> is_Some (g !! m) -> R m).
    { intros m Hm. apply HR. now right. }
    cbn [expand] in E. case_bool_decide as Hvis.
    + eapply IH; eauto.
    + destruct (g !! n) as [node |] eqn:Hg.
      * cbn zeta in E. eapply IH; [exact HR' | exact E |].
        assert (Hp : cands_ok (set_add n visited)
                  (cands ++ [{| sid := n; distance := dist query (vector node) |}])).
        { apply cands_ok_push; auto. apply HR; [now left | rewrite Hg; eauto]. }
        destruct (ef <? _); [| exact Hp].
        apply cands_ok_take, cands_ok_sort, Hp.
      * eapply IH; [exact HR' | exact E |].
        eapply cands_ok_mono; [| exact Hok].
        intros x Hx. apply set_add_elem. now right.
Qed.

Lemma search_loop_sound fuel : forall visited cands res,
  layer_closed R ->
  search_loop fuel g query ef layer visited cands = Ok res ->
  cands_ok visited cands ->
  exists visited', cands_ok visited' res.
Proof.
  induction fuel as [| fuel IH]; intros visited cands res Hcl E Hok; [discriminate |].
  cbn [search_loop] in E.
  pose proof (cands_ok_sort visited cands Hok) as Hsok.
  destruct (sort farther cands) as [| current rest] eqn:Es; [discriminate |].
  destruct (g !! sid current) as [currentNode |] eqn:Hcur.
  - destruct (expand g query ef (layer_set currentNode layer) visited (current :: rest) false)
      as [[visited' cands'] changed'] eqn:Ee.
    assert (Hok' : cands_ok visited' cands').
    { eapply expand_cands_ok; [| exact Ee | exact Hsok].
      intros n Hn Hs. eapply Hcl; eauto. }
    destruct changed'.
    + eapply IH; eauto.
    + inversion E; subst. eauto.
  - inversion E; subst. eauto.
Qed.

(** Whatever [searchLayer] returns is a duplicate-free list of at most
    [ef] keys of the node map, each satisfying [R]. *)
Lemma searchLayer_sound entry res :
  layer_closed R -> (is_Some (g !! entry) -> R entry) ->
  searchLayer g query ef layer entry = Ok res ->
  NoDup res /\ length res <= ef
  /\ forall i, i ∈ res -> is_Some (g !! i) /\ R i.
Proof.
  intros Hcl HRe E. unfold searchLayer in E.
  destruct (g !! entry) as [entryNode |] eqn:He.
  - set (c0 := [{| sid := entry; distance := dist query (vector entryNode) |}]) in *.
    assert (Hok0 : cands_ok [entry] c0).
    { split; [cbn; apply NoDup_singleton |].
      intros c Hc. apply list_elem_of_singleton in Hc. subst c. cbn [sid].
      split; [apply list_elem_of_singleton; reflexivity |].
      split; [rewrite He; eauto | apply HRe; eauto]. }
    destruct (search_loop _ g query ef layer [entry] c0) as [cs | |] eqn:El;
      try discriminate.
    cbn [bind] in E. inversion E; subst res.
    destruct (search_loop_sound _ _ _ _ Hcl El Hok0) as (visited' & Hok).
    pose proof (cands_ok_take visited' _ ef (cands_ok_sort visited' cs Hok)) as [Hn Hm].
    split; [exact Hn |]. split.
    + unfold slice0. rewrite length_map, length_firstn. lia.
    + intros i Hi. apply map_elem in Hi as (c & -> & Hc).
      destruct (Hm c Hc) as (_ & ? & ?). auto.
  - inversion E; subst. split; [constructor |]. split; [cbn; lia |].
    intros i Hi. inversion Hi.
Qed.

End Invariant.

Lemma truncate_nonempty (c : list scored) :
  1 <= ef -> c <> [] ->
  (if ef <? length c then slice0 ef (sort farther c) else c) <> [].
Proof.
  intros Hef Hc. destruct (Nat.ltb_spec ef (length c)); [| exact Hc].
  intros E. apply (f_equal (@length scored)) in E.
  unfold slice0 in E. rewrite length_firstn, sort_length in E. cbn in E. lia.
Qed.

(** The visited set only grows; the candidate list stays non-empty; and a
    pass that reports a change has visited a new id of the set. *)
Lemma expand_visited nbrs : forall visited cands changed visited' cands' changed',
  expand g query ef nbrs visited cands changed = (visited', cands', changed') ->
  (forall x, x ∈ visited -> x ∈ visited')
  /\ (1 <= ef -> cands <> [] -> cands' <> [])
  /\ (changed' = true ->
      changed = true \/ (exists n, n ∈ nbrs /\ (n ∉ visited) /\ n ∈ visited')).
Proof.
  induction nbrs as [| n rest IH]; intros visited cands changed visited' cands' changed' E.
  - cbn in E. inversion E; subst. split; [auto |]. split; auto.
  - cbn [expand] in E. case_bool_decide as Hvis.
    + destruct (IH _ _ _ _ _ _ E) as (H2 & H3 & H4).
      split; [exact H2 |]. split; [exact H3 |].
      intros Hc. destruct (H4 Hc) as [| (m & Hm & Hm' & Hm'')]; [now left |].
      right. exists m. split; [now right | auto].
    + assert (Hsub : forall x, x ∈ visited -> x ∈ set_add n visited).
      { intros x Hx. apply set_add_elem. now right. }
      assert (Hnew : n ∈ set_add n visited) by (apply set_add_elem; now left).
      destruct (g !! n) as [node |] eqn:Hg.
      * cbn zeta in E. apply IH in E as (H2 & H3 & H4).
        split; [auto |]. split.
        -- intros Hef Hc. apply H3; [exact Hef |]. apply truncate_nonempty; [exact Hef |].
           destruct cands; discriminate.
        -- intros _. right. exists n. split; [now left | auto].
      * apply IH in E as (H2 & H3 & H4).
        split; [auto |]. split; [exact H3 |].
        intros Hc. destruct (H4 Hc) as [| (m & Hm & Hm' & Hm'')]; [now left |].
        right. exists m. split; [now right |]. split; [| exact Hm''].
        intros Hv. apply Hm'. now apply Hsub.
Qed.

(** The ids of the layer that are still unvisited: each productive
    iteration removes one. *)
Definition unvisited (visited : list string) : list string :=
  list_difference (remove_dups (layer_ids g layer)) visited.

Lemma layer_ids_elem n k node :
  g !! k = Some node -> n ∈ layer_set node layer -> n ∈ layer_ids g layer.
Proof.
  intros Hk Hn. unfold layer_ids. apply list_elem_of_In, in_flat_map.
  exists (k, node). split.
  - apply list_elem_of_In, elem_of_map_to_list, Hk.
  - apply list_elem_of_In, Hn.
Qed.

Lemma unvisited_decrease visited visited' n :
  (forall x, x ∈ visited -> x ∈ visited') ->
  n ∈ layer_ids g layer -> n ∉ visited -> n ∈ visited' ->
  length (unvisited visited') < length (unvisited visited).
Proof.
  intros Hsub Hn Hnv Hv'.
  assert (Hle : unvisited visited' ⊆+ unvisited visited).
  { apply NoDup_submseteq.
    - apply NoDup_list_difference, NoDup_remove_dups.
    - intros x. unfold unvisited. rewrite !list_elem_of_difference.
      intros [Hx Hx']. split; [exact Hx | intros Hc; apply Hx'; auto]. }
  destruct (Nat.lt_ge_cases (length (unvisited visited')) (length (unvisited visited)))
    as [| Hge]; [assumption | exfalso].
  pose proof (submseteq_length_Permutation _ _ Hle Hge) as Hp.
  assert (Hin : n ∈ unvisited visited).
  { unfold unvisited. apply list_elem_of_difference. split; [| exact Hnv].
    now apply elem_of_remove_dups. }
  rewrite <- Hp in Hin. unfold unvisited in Hin.
  apply list_elem_of_difference in Hin as [_ Hc]. now apply Hc.
Qed.

(** The [while] loop returns: with a beam of width at least 1 it never
    reads past the end of the candidate list, and it stops before the
    budget is spent. *)
Lemma search_loop_ok fuel : forall visited cands,
  length (unvisited visited) < fuel ->
  1 <= ef -> cands <> [] ->
  exists res, search_loop fuel g query ef layer visited cands = Ok res /\ res <> [].
Proof.
  induction fuel as [| fuel IH]; intros visited cands Hfuel Hef Hne; [lia |].
  cbn [search_loop].
  pose proof (sort_nonempty farther cands Hne) as Hsne.
  destruct (sort farther cands) as [| current rest] eqn:Es; [congruence |].
  destruct (g !! sid current) as [currentNode |] eqn:Hcur.
  - destruct (expand g query ef (layer_set currentNode layer) visited (current :: rest) false)
      as [[visited' cands'] changed'] eqn:Ee.
    destruct (expand_visited _ _ _ _ _ _ _ Ee) as (H2 & H3 & H4).
    destruct changed'.
    + destruct (H4 eq_refl) as [? | (n & Hn & Hnv & Hv')]; [discriminate |].
      apply IH; auto.
      pose proof (unvisited_decrease visited visited' n H2
                    (layer_ids_elem n _ _ Hcur Hn) Hnv Hv'). lia.
    + exists cands'. split; [reflexivity | auto].
  - exists (current :: rest). split; [reflexivity | discriminate].
Qed.

(** [searchLayer] always returns when [ef >= 1], with a non-empty list
    when the entry is a stored node. *)
Lemma searchLayer_returns entry :
  1 <= ef ->
  exists res, searchLayer g query ef layer entry = Ok res
    /\ (is_Some (g !! entry) -> res <> []).
Proof.
  intros Hef. unfold searchLayer.
  destruct (g !! entry) as [entryNode |] eqn:He.
  - set (c0 := [{| sid := entry; distance := dist query (vector entryNode) |}]).
    assert (Hfuel : length (unvisited [entry]) < S (length (layer_ids g layer))).
    { unfold unvisited. apply Nat.lt_succ_r. apply submseteq_length, NoDup_submseteq.
      - apply NoDup_list_difference, NoDup_remove_dups.
      - intros x Hx. apply list_elem_of_difference in Hx as [Hx _].
        exact (proj1 (elem_of_remove_dups _ _) Hx). }
    assert (Hc0 : c0 <> []) by discriminate.
    destruct (search_loop_ok _ [entry] c0 Hfuel Hef Hc0) as (res & -> & Hne).
    cbn [bind]. eexists. split; [reflexivity |].
    intros _ E. apply (f_equal (@length string)) in E.
    unfold slice0 in E. rewrite length_map, length_firstn, sort_length in E.
    destruct res; [congruence | cbn in E; lia].
  - exists []. split; [reflexivity |]. intros [? ?]; discriminate.
Qed.

Lemma searchLayer_spec entry :
  1 <= ef ->
  exists res, searchLayer g query ef layer entry = Ok res
    /\ NoDup res /\ length res <= ef
    /\ (forall i, i ∈ res -> is_Some (g !! i))
    /\ (is_Some (g !! entry) -> res <> []).
Proof.
  intros Hef. destruct (searchLayer_returns entry Hef) as (res & E & Hne).
  exists res. split; [exact E |].
  destruct (searchLayer_sound (fun _ => True) entry res) as (Hn & Hl & Hin); auto.
  { intros k node n _ _ _. exact I. }
  split; [exact Hn |]. split; [exact Hl |]. split; [| exact Hne].
  intros i Hi. now apply Hin.
Qed.

End Layer.

Lemma descend_spec g query layers : forall entry,
  exists cur, descend g query layers entry = Ok cur
    /\ (is_Some (g !! entry) -> is_Some (g !! cur)).
Proof.
  induction layers as [| l rest IH]; intros entry; cbn [descend].
  - eauto.
  - destruct (searchLayer_spec g query 1 l entry ltac:(lia)) as (res & -> & _ & _ & Hin & _).
    cbn [bind].
    destruct (IH (match res with c :: _ => c | [] => entry end)) as (cur & -> & Hcur).
    exists cur. split; [reflexivity |]. intros He. apply Hcur.
    destruct res as [| c res]; [exact He |]. apply Hin. now left.
Qed.

(** C4. For every query vector, every beam width [ef >= 1] and every
    target level, [search] returns (it neither throws nor runs forever) a
    list without duplicate ids, of length at most [ef], whose ids are all
    keys of the node map; on an empty graph the list is empty. *)
Theorem search_containment (h : HNSW) (queryVector : Float32Array)
    (ef targetLevel : nat) :
  1 <= ef ->
  exists res, search h queryVector ef targetLevel = Ok res
    /\ NoDup res
    /\ length res <= ef
    /\ (forall i, i ∈ res -> i ∈ dom (graph h))
    /\ (size (graph h) = 0 -> res = []).
Proof.
  intros Hef. unfold search.
  assert (Hnil : exists res : list string, Ok [] = Ok res /\ NoDup res
            /\ length res <= ef /\ (forall i, i ∈ res -> i ∈ dom (graph h))
            /\ (size (graph h) = 0 -> res = [])).
  { exists []. split; [reflexivity |]. split; [constructor |]. split; [cbn; lia |].
    split; [intros i Hi; inversion Hi | reflexivity]. }
  destruct (entryPointId h) as [entry |]; [| exact Hnil].
  destruct (bool_decide (entry = EmptyString) || (size (graph h) =? 0)) eqn:Hguard;
    [exact Hnil |].
  apply orb_false_iff in Hguard as [_ Hsize]. apply Nat.eqb_neq in Hsize.
  destruct (descend_spec (graph h) queryVector (layers_down (maxLevel h) targetLevel) entry)
    as (cur & -> & _).
  cbn [bind].
  destruct (searchLayer_spec (graph h) queryVector ef targetLevel cur Hef)
    as (res & -> & Hn & Hl & Hin & _).
  exists res. split; [reflexivity |]. split; [exact Hn |]. split; [exact Hl |].
  split; [| intros; contradiction].
  intros i Hi. apply elem_of_dom. now apply Hin.
Qed.

End SearchFacts.

(* ===================================================================== *)
(** * Insertion: what one call does to the graph *)
(* ===================================================================== *)

Module InsertFacts.
Import JS Similarity HNSWGraph SortFacts SearchFacts.

Lemma fresh_fold_lookup (ls : list nat) : forall (acc : gmap nat (list string)) l,
  fold_left (fun m l => <[l := []]> m) ls acc !! l
  = if bool_decide (l ∈ ls) then Some [] else acc !! l.
Proof.
  induction ls as [| x ls IH]; intros acc l; cbn [fold_left].
  - rewrite bool_decide_eq_false_2; [reflexivity | apply not_elem_of_nil].
  - rewrite IH. case_bool_decide as Hl.
    + rewrite bool_decide_eq_true_2; [reflexivity | now right].
    + destruct (decide (l = x)) as [-> | Hne].
      * rewrite lookup_insert_eq, bool_decide_eq_true_2; [reflexivity | now left].
      * rewrite lookup_insert_ne by congruence.
        rewrite bool_decide_eq_false_2; [reflexivity |].
        intros Hc. apply elem_of_cons in Hc as [? | ?]; auto.
Qed.

Lemma fresh_neighbors_lookup lv l :
  fresh_neighbors lv !! l = if bool_decide (l <= lv) then Some [] else None.
Proof.
  unfold fresh_neighbors. rewrite fresh_fold_lookup, lookup_empty.
  repeat case_bool_decide; try reflexivity; exfalso.
  - apply elem_of_seq in H. lia.
  - apply H. apply elem_of_seq. lia.
Qed.

Lemma sid_score_from g v i : sid (score_from g v i) = i.
Proof. unfold score_from. destruct (g !! i); reflexivity. Qed.

Lemma map_sid_score_from g v l : map sid (map (score_from g v) l) = l.
Proof.
  induction l as [| x l IH]; [reflexivity |].
  cbn [map]. now rewrite sid_score_from, IH.
Qed.

(** The ids kept by "sort by distance, keep the first [M]". *)
Lemma nearest_ids g v (l : list string) M :
  let kept := map sid (slice0 M (sort farther (map (score_from g v) l))) in
  (NoDup l -> NoDup kept)
  /\ (forall i, i ∈ kept -> i ∈ l)
  /\ length kept = Nat.min M (length l).
Proof.
  cbn zeta. unfold slice0. rewrite <- firstn_map.
  assert (Hp : Permutation (map sid (sort farther (map (score_from g v) l))) l).
  { rewrite (Permutation_map sid (sort_perm farther _)). now rewrite map_sid_score_from. }
  split; [| split].
  - intros Hn. apply take_NoDup. now rewrite Hp.
  - intros i Hi. apply take_elem in Hi. now rewrite Hp in Hi.
  - rewrite length_firstn, (Permutation_length Hp). reflexivity.
Qed.

Lemma selectNeighbors_spec g (candidates : list string) M v :
  NoDup candidates ->
  let sel := selectNeighbors g candidates M v in
  NoDup sel
  /\ (forall i, i ∈ sel -> i ∈ candidates)
  /\ length sel <= M
  /\ length sel <= length candidates
  /\ (candidates <> [] -> 1 <= M -> sel <> []).
Proof.
  intros Hn. cbn zeta. unfold selectNeighbors.
  destruct (Nat.leb_spec (length candidates) M) as [Hle | Hgt].
  - split; [exact Hn |]. split; [auto |]. split; [exact Hle |]. split; [lia | auto].
  - destruct (nearest_ids g v candidates M) as (H1 & H2 & H3).
    split; [auto |]. split; [exact H2 |]. split; [lia |]. split; [lia |].
    intros _ HM E. rewrite E in H3. cbn in H3. lia.
Qed.

(** [trimNeighbors] touches the set of one layer only, never grows it,
    and leaves at most [M] ids in a set it had to cut. *)
Lemma trimNeighbors_spec g node l M :
  let node' := trimNeighbors g node l M in
  id node' = id node /\ vector node' = vector node /\ level node' = level node
  /\ (forall l', l' <> l -> neighbors node' !! l' = neighbors node !! l')
  /\ (forall T0, neighbors node !! l = Some T0 ->
      exists T, neighbors node' !! l = Some T
        /\ (forall x, x ∈ T -> x ∈ T0)
        /\ (length T0 <= M -> T = T0)
        /\ (M < length T0 -> length T <= M)
        /\ (NoDup T0 -> NoDup T))
  /\ (neighbors node !! l = None -> node' = node).
Proof.
  cbn zeta. unfold trimNeighbors.
  destruct (neighbors node !! l) as [T0 |] eqn:E.
  - destruct (Nat.leb_spec (length T0) M) as [Hle | Hgt].
    + split; [reflexivity |]. split; [reflexivity |]. split; [reflexivity |].
      split; [reflexivity |]. split; [| discriminate].
      intros T1 [= <-]. exists T0. rewrite E.
      split; [reflexivity |]. split; [auto |]. split; [auto |]. split; [lia | auto].
    + cbn [id vector level neighbors].
      split; [reflexivity |]. split; [reflexivity |]. split; [reflexivity |].
      split; [intros l' Hl'; now rewrite lookup_insert_ne by congruence |].
      split; [| discriminate].
      intros T1 [= <-]. eexists. rewrite lookup_insert_eq.
      destruct (nearest_ids g (vector node) T0 M) as (H1 & H2 & H3).
      destruct (set_of_list_spec
                  (map sid (slice0 M (sort farther (map (score_from g (vector node)) T0)))))
        as (Hn & Hm & Hl).
      split; [reflexivity |]. split; [| split; [| split]].
      * intros x Hx. apply H2, Hm, Hx.
      * lia.
      * intros _. lia.
      * intros _. exact Hn.
  - split; [reflexivity |]. split; [reflexivity |]. split; [reflexivity |].
    split; [reflexivity |]. split; [discriminate | reflexivity].
Qed.

(** What linking to a neighbour leaves in that neighbour's set of the
    layer: [T0] before, [T] after. *)
Definition link_post (newId : string) (M : nat) (T0 T : list string) : Prop :=
  length T <= M
  /\ (forall y, y ∈ T -> y = newId \/ y ∈ T0)
  /\ (length T0 < M -> newId ∈ T)
  /\ (NoDup T0 -> NoDup T).

(** Two nodes that differ in their neighbour sets only. *)
Definition same_node (n n' : HNSWNode) : Prop :=
  id n' = id n /\ vector n' = vector n /\ level n' = level n.

Lemma same_node_refl n : same_node n n.
Proof. repeat split. Qed.

Lemma same_node_trans n1 n2 n3 : same_node n1 n2 -> same_node n2 n3 -> same_node n1 n3.
Proof. unfold same_node. intros (? & ? & ?) (? & ? & ?). repeat split; congruence. Qed.

Lemma layer_set_lookup n l T : neighbors n !! l = Some T -> layer_set n l = T.
Proof. unfold layer_set. now intros ->. Qed.

Lemma layer_set_insert_eq (nb : gmap nat (list string)) n l T :
  neighbors n = <[l := T]> nb -> layer_set n l = T.
Proof. intros E. apply layer_set_lookup. rewrite E. apply lookup_insert_eq. Qed.

(** One iteration of the loop over the selected neighbours. *)
Lemma link_spec newId l M g nn x g' nn' :
  link newId l M (g, nn) x = (g', nn') ->
  same_node nn nn'
  /\ neighbors nn' = <[l := set_add x (layer_set nn l)]> (neighbors nn)
  /\ (forall k, k <> x -> g' !! k = g !! k)
  /\ match g !! x with
     | None => g' !! x = None
     | Some nx =>
         exists nx', g' !! x = Some nx' /\ same_node nx nx'
           /\ (forall l', l' <> l -> neighbors nx' !! l' = neighbors nx !! l')
           /\ exists T, neighbors nx' !! l = Some T
                /\ link_post newId M (layer_set nx l) T
     end.
Proof.
  unfold link. destruct (g !! x) as [nx |] eqn:Hx; intros [= <- <-].
  - split; [repeat split |]. split; [reflexivity |].
    split; [intros k Hk; now rewrite !lookup_insert_ne by congruence |].
    set (linked := {| id := id nx; vector := vector nx; level := level nx;
                      neighbors := <[l := set_add newId (layer_set nx l)]> (neighbors nx) |}).
    set (g1 := <[x := linked]> g).
    destruct (trimNeighbors_spec g1 linked l M) as (Hid & Hv & Hlv & Hoth & Hl & _).
    cbn zeta in *.
    eexists. split; [apply lookup_insert_eq |]. split; [repeat split; assumption |].
    split.
    { intros l' Hl'. rewrite Hoth by assumption. subst linked. cbn [neighbors].
      now rewrite lookup_insert_ne by congruence. }
    destruct (Hl (set_add newId (layer_set nx l))) as (T & HT & Hsub & Hkeep & Hcut & Hnd).
    { subst linked. cbn [neighbors]. apply lookup_insert_eq. }
    exists T. split; [exact HT |].
    pose proof (set_add_length newId (layer_set nx l)) as Hlen.
    split; [| split; [| split]].
    + destruct (Nat.le_gt_cases (length (set_add newId (layer_set nx l))) M) as [Hle | Hgt].
      * rewrite (Hkeep Hle). exact Hle.
      * auto.
    + intros y Hy. apply Hsub, set_add_elem in Hy. exact Hy.
    + intros Hroom. rewrite Hkeep by lia. apply set_add_elem. now left.
    + intros Hn0. apply Hnd. now apply set_add_NoDup.
  - split; [repeat split |]. split; [reflexivity |]. split; [auto | exact Hx].
Qed.

(** The whole loop over the selected neighbours of one layer. *)
Lemma fold_link_spec newId l M (sel : list string) : forall g nn g' nn',
  NoDup sel ->
  fold_left (link newId l M) sel (g, nn) = (g', nn') ->
  same_node nn nn'
  /\ (forall l', l' <> l -> neighbors nn' !! l' = neighbors nn !! l')
  /\ (sel <> [] -> is_Some (neighbors nn' !! l))
  /\ (sel = [] -> neighbors nn' = neighbors nn)
  /\ layer_set nn' l = fold_left (fun s x => set_add x s) sel (layer_set nn l)
  /\ (forall k, k ∉ sel -> g' !! k = g !! k)
  /\ (forall k, k ∈ sel ->
      match g !! k with
      | None => g' !! k = None
      | Some nx =>
          exists nx', g' !! k = Some nx' /\ same_node nx nx'
            /\ (forall l', l' <> l -> neighbors nx' !! l' = neighbors nx !! l')
            /\ exists T, neighbors nx' !! l = Some T
                 /\ link_post newId M (layer_set nx l) T
      end).
Proof.
  induction sel as [| x sel IH]; intros g nn g' nn' Hnd E.
  - cbn in E. inversion E; subst.
    split; [apply same_node_refl |]. split; [auto |]. split; [congruence |].
    split; [auto |]. split; [reflexivity |]. split; [auto |].
    intros k Hk. inversion Hk.
  - cbn [fold_left] in E.
    destruct (link newId l M (g, nn) x) as [g1 nn1] eqn:E1.
    apply NoDup_cons in Hnd as [Hx Hnd].
    destruct (link_spec _ _ _ _ _ _ _ _ E1) as (Hs1 & Hnb1 & Hoth1 & Hx1).
    destruct (IH _ _ _ _ Hnd E) as (Hs & Hl' & _ & _ & Hset & Hout & Hin).
    split; [eapply same_node_trans; eauto |].
    split.
    { intros l' Hne. rewrite Hl' by assumption. rewrite Hnb1.
      now rewrite lookup_insert_ne by congruence. }
    split.
    { intros _. destruct sel as [| y sel'].
      - cbn in E. inversion E; subst. rewrite Hnb1, lookup_insert_eq. eauto.
      - destruct (IH _ _ _ _ Hnd E) as (_ & _ & Hsome & _). apply Hsome. discriminate. }
    split; [discriminate |].
    split.
    { rewrite Hset. cbn [fold_left]. f_equal. eapply layer_set_insert_eq, Hnb1. }
    split.
    { intros k Hk. rewrite Hout, Hoth1; [reflexivity | |].
      - intros ->. apply Hk. now left.
      - intros Hc. apply Hk. now right. }
    intros k Hk. apply elem_of_cons in Hk as [-> | Hk].
    + rewrite (Hout x Hx). exact Hx1.
    + assert (Hne : k <> x) by (intros ->; contradiction).
      specialize (Hin k Hk). rewrite (Hoth1 k Hne) in Hin. exact Hin.
Qed.

(** [g1] has the keys of [g]; a node keeps its id, vector and level, and
    its sets at the layers in [keep]. *)
Definition evolves (keep : nat -> Prop) (g g1 : gmap string HNSWNode) : Prop :=
  forall k,
    match g !! k with
    | None => g1 !! k = None
    | Some n =>
        exists n1, g1 !! k = Some n1 /\ same_node n n1
          /\ forall l', keep l' -> neighbors n1 !! l' = neighbors n !! l'
    end.

Lemma evolves_refl keep g : evolves keep g g.
Proof.
  intros k. destruct (g !! k) as [n |]; [| reflexivity].
  exists n. split; [reflexivity |]. split; [apply same_node_refl | auto].
Qed.

Lemma evolves_trans (keep1 keep2 keep : nat -> Prop) g1 g2 g3 :
  (forall l, keep l -> keep1 l /\ keep2 l) ->
  evolves keep1 g1 g2 -> evolves keep2 g2 g3 -> evolves keep g1 g3.
Proof.
  intros Hk H12 H23 k. specialize (H12 k). specialize (H23 k).
  destruct (g1 !! k) as [n1 |].
  - destruct H12 as (n2 & E2 & S12 & K12). rewrite E2 in H23.
    destruct H23 as (n3 & E3 & S23 & K23).
    exists n3. split; [exact E3 |]. split; [eapply same_node_trans; eauto |].
    intros l Hl. destruct (Hk l Hl). rewrite K23, K12; auto.
  - rewrite H12 in H23. exact H23.
Qed.

Lemma evolves_is_Some keep g g1 k :
  evolves keep g g1 -> (is_Some (g1 !! k) <-> is_Some (g !! k)).
Proof.
  intros H. specialize (H k). destruct (g !! k) as [n |].
  - destruct H as (n1 & -> & _). split; eauto.
  - rewrite H. reflexivity.
Qed.

Lemma evolves_lookup keep g g1 k n1 :
  evolves keep g g1 -> g1 !! k = Some n1 ->
  exists n, g !! k = Some n /\ same_node n n1
    /\ forall l', keep l' -> neighbors n1 !! l' = neighbors n !! l'.
Proof.
  intros H E. specialize (H k). destruct (g !! k) as [n |].
  - destruct H as (n1' & E' & Hs & Hk). rewrite E in E'. inversion E'; subst. eauto.
  - congruence.
Qed.

Lemma fold_link_evolves newId l M sel g nn g' nn' :
  NoDup sel ->
  fold_left (link newId l M) sel (g, nn) = (g', nn') ->
  evolves (fun l' => l' <> l) g g'.
Proof.
  intros Hnd E k.
  destruct (fold_link_spec _ _ _ _ _ _ _ _ Hnd E) as (_ & _ & _ & _ & _ & Hout & Hin).
  destruct (decide (k ∈ sel)) as [Hk | Hk].
  - specialize (Hin k Hk). destruct (g !! k) as [n |]; [| exact Hin].
    destruct Hin as (n1 & E1 & Hs & Hl & _). eauto.
  - rewrite (Hout k Hk). destruct (g !! k) as [n |]; [| reflexivity].
    exists n. split; [reflexivity |]. split; [apply same_node_refl | auto].
Qed.

Lemma rev_seq_S n : rev (seq 0 (S n)) = n :: rev (seq 0 n).
Proof. rewrite seq_S, rev_app_distr. reflexivity. Qed.

Section Connect.
Variables (newId : string) (v : Float32Array) (M efC : nat).

(** A property of the ids met at a layer, inherited by lower layers. *)
Variable R : nat -> string -> Prop.
Hypothesis R_mono : forall l l' m, l' <= l -> R l m -> R l' m.

Definition closed_in (g : gmap string HNSWNode) : Prop :=
  forall l, layer_closed g l (R l).

(** What connecting layer [l] did, between the graph [g] and the new node
    [nn] before the loop and [g1], [nn1] after it: [sel] are the selected
    neighbours. *)
Definition layer_linked (g g1 : gmap string HNSWNode) (nn nn1 : HNSWNode)
    (cur : string) (l : nat) : Prop :=
  exists sel,
    NoDup sel /\ length sel <= M /\ length sel <= efC
    /\ (forall m, m ∈ sel -> is_Some (g !! m) /\ R l m)
    /\ (forall T, neighbors nn1 !! l = Some T -> is_Some (neighbors nn !! l) \/ sel <> [])
    /\ (is_Some (neighbors nn !! l) -> is_Some (neighbors nn1 !! l))
    /\ layer_set nn1 l = fold_left (fun s x => set_add x s) sel (layer_set nn l)
    /\ (1 <= efC -> 1 <= M -> is_Some (g !! cur) -> sel <> [])
    /\ (forall k n n1, g !! k = Some n -> g1 !! k = Some n1 ->
        (k ∉ sel -> neighbors n1 !! l = neighbors n !! l) /\
        (k ∈ sel -> exists T, neighbors n1 !! l = Some T
                      /\ link_post newId M (layer_set n l) T)).

Lemma connect_spec n : forall cur g nn g1 nn1,
  closed_in g ->
  (is_Some (g !! newId) -> forall l, R l newId) ->
  (is_Some (g !! cur) -> forall l, l < n -> R l cur) ->
  connect newId v M efC (rev (seq 0 n)) cur (g, nn) = Ok (g1, nn1) ->
  same_node nn nn1
  /\ (forall l', n <= l' -> neighbors nn1 !! l' = neighbors nn !! l')
  /\ evolves (fun l' => n <= l') g g1
  /\ forall l, l < n -> layer_linked g g1 nn nn1 cur l.
Proof.
  induction n as [| n IH]; intros cur g nn g1 nn1 Hcl Hnew Hcur E.
  - cbn in E. inversion E; subst.
    split; [apply same_node_refl |]. split; [auto |]. split; [apply evolves_refl | lia].
  - rewrite rev_seq_S in E. cbn [connect fst] in E.
    destruct (searchLayer g v efC n cur) as [res | |] eqn:Es; try discriminate.
    cbn [bind] in E.
    destruct (searchLayer_sound g v efC n (R n) cur res (Hcl n)) as (Hrn & Hrl & Hrin);
      [intros Hc; apply Hcur; [exact Hc | lia] | exact Es |].
    destruct (selectNeighbors_spec g res M v Hrn) as (Hsn & Hsin & HsM & Hsl & Hsne).
    set (sel := selectNeighbors g res M v) in *.
    destruct (fold_left (link newId n M) sel (g, nn)) as [g2 nn2] eqn:Ef.
    destruct (fold_link_spec _ _ _ _ _ _ _ _ Hsn Ef)
      as (Hs2 & Hoth2 & Hsome2 & Hnil2 & Hset2 & Hout2 & Hin2).
    pose proof (fold_link_evolves _ _ _ _ _ _ _ _ Hsn Ef) as Hev2.
    set (cur' := match res with c :: _ => c | [] => cur end) in *.
    assert (Hcur2 : is_Some (g !! cur) -> is_Some (g2 !! cur')).
    { intros Hc. apply (evolves_is_Some _ _ _ _ Hev2). subst cur'.
      destruct res as [| c res']; [exact Hc |]. apply Hrin. now left. }
    assert (Hcl2 : closed_in g2).
    { intros l k node2 x Hk Hx Hsx.
      apply (evolves_is_Some _ _ _ _ Hev2) in Hsx.
      destruct (evolves_lookup _ _ _ _ _ Hev2 Hk) as (node & Hk0 & _ & Hkeep).
      destruct (decide (k ∈ sel)) as [Hsel | Hsel].
      - destruct (decide (l = n)) as [-> | Hne].
        + specialize (Hin2 k Hsel). rewrite Hk0 in Hin2.
          destruct Hin2 as (nx' & Ex' & _ & _ & T & HT & (_ & Hsub & _)).
          rewrite Hk in Ex'. inversion Ex'; subst nx'.
          rewrite (layer_set_lookup _ _ _ HT) in Hx.
          destruct (Hsub x Hx) as [-> | Hold]; [now apply Hnew |].
          exact (Hcl n k node x Hk0 Hold Hsx).
        + unfold layer_set in Hx. rewrite (Hkeep l Hne) in Hx.
          exact (Hcl l k node x Hk0 Hx Hsx).
      - rewrite (Hout2 k Hsel) in Hk. exact (Hcl l k node2 x Hk Hx Hsx). }
    assert (Hnew2 : is_Some (g2 !! newId) -> forall l, R l newId).
    { intros Hc. apply Hnew. now apply (evolves_is_Some _ _ _ _ Hev2). }
    assert (Hcur2R : is_Some (g2 !! cur') -> forall l, l < n -> R l cur').
    { intros Hc l Hl. apply (evolves_is_Some _ _ _ _ Hev2) in Hc. subst cur'.
      destruct res as [| c res'].
      - apply Hcur; [exact Hc | lia].
      - apply (R_mono n); [lia |]. apply Hrin. now left. }
    destruct (IH cur' g2 nn2 g1 nn1 Hcl2 Hnew2 Hcur2R E) as (Hs1 & Hoth1 & Hev1 & Hlay).
    split; [eapply same_node_trans; eauto |].
    split.
    { intros l' Hl'. rewrite Hoth1 by lia. apply Hoth2. lia. }
    split.
    { eapply evolves_trans; [| exact Hev2 | exact Hev1]. cbn. intros l Hl. lia. }
    intros l Hl. destruct (decide (l = n)) as [-> | Hne].
    + exists sel. split; [exact Hsn |]. split; [exact HsM |]. split; [lia |].
      split; [intros m Hm; apply Hrin, Hsin, Hm |].
      split.
      { intros T HT. rewrite Hoth1 in HT by lia.
        destruct sel as [| y sel'] eqn:Esel; [left | right; discriminate].
        rewrite (Hnil2 eq_refl) in HT. rewrite HT. eauto. }
      split.
      { intros Hsome. rewrite Hoth1 by lia.
        destruct sel as [| y sel'] eqn:Esel.
        - now rewrite (Hnil2 eq_refl).
        - apply Hsome2. discriminate. }
      split.
      { rewrite <- Hset2. unfold layer_set. now rewrite Hoth1 by lia. }
      split.
      { intros HefC HM Hc. apply Hsne; [| exact HM].
        destruct (searchLayer_returns g v efC n cur HefC) as (res' & Es' & Hne').
        rewrite Es in Es'. inversion Es'; subst res'. auto. }
      intros k nk n1 Hk Hk1.
      destruct (evolves_lookup _ _ _ _ _ Hev1 Hk1) as (n2 & Hk2 & _ & Hkeep1).
      rewrite (Hkeep1 n) by lia. split.
      * intros Hsel. rewrite (Hout2 k Hsel) in Hk2. congruence.
      * intros Hsel. specialize (Hin2 k Hsel). rewrite Hk in Hin2.
        destruct Hin2 as (nx' & Ex' & _ & _ & T & HT & Hpost).
        rewrite Hk2 in Ex'. inversion Ex'; subst nx'. eauto.
    + assert (Hl' : l < n) by lia.
      destruct (Hlay l Hl') as (sel_l & H1 & H2 & H3 & H4 & H5 & H5' & H6 & H7 & H8).
      exists sel_l. split; [exact H1 |]. split; [exact H2 |]. split; [exact H3 |].
      split.
      { intros m Hm. destruct (H4 m Hm) as [Hm2 HmR]. split; [| exact HmR].
        now apply (evolves_is_Some _ _ _ _ Hev2). }
      split.
      { intros T HT. rewrite <- (Hoth2 l Hne). eapply H5, HT. }
      split.
      { intros Hsome. apply H5'. now rewrite (Hoth2 l Hne). }
      split.
      { rewrite H6. unfold layer_set. now rewrite (Hoth2 l Hne). }
      split.
      { intros HefC HM Hc. apply H7; auto. }
      intros k nk n1 Hk Hk1.
      destruct (evolves_lookup _ _ _ _ _ Hev1 Hk1) as (n2 & Hk2 & _ & _).
      destruct (evolves_lookup _ _ _ _ _ Hev2 Hk2) as (nk' & Hk' & _ & Hkeep2).
      rewrite Hk in Hk'. inversion Hk'; subst nk'.
      destruct (H8 k n2 n1 Hk2 Hk1) as [Hout Hin].
      split.
      * intros Hsel. rewrite (Hout Hsel). apply Hkeep2, Hne.
      * intros Hsel. destruct (Hin Hsel) as (T & HT & Hpost).
        exists T. split; [exact HT |].
        unfold layer_set in *. now rewrite <- (Hkeep2 l Hne).
Qed.

End Connect.

Lemma connect_returns newId v M efC n : forall cur st,
  1 <= efC ->
  exists st', connect newId v M efC (rev (seq 0 n)) cur st = Ok st'.
Proof.
  induction n as [| n IH]; intros cur st HefC.
  - cbn. eauto.
  - rewrite rev_seq_S. cbn [connect].
    destruct (searchLayer_returns (fst st) v efC n cur HefC) as (res & -> & _).
    cbn [bind]. apply IH, HefC.
Qed.

Lemma lookup_size_ne_0 (g : gmap string HNSWNode) k :
  is_Some (g !! k) -> (size g =? 0) = false.
Proof.
  intros [n Hn]. apply Nat.eqb_neq. intros Hs.
  apply map_size_empty_iff in Hs. subst g. rewrite lookup_empty in Hn. discriminate.
Qed.

Lemma fresh_layer_set lv l (n : HNSWNode) :
  neighbors n = fresh_neighbors lv -> layer_set n l = [].
Proof.
  intros E. unfold layer_set. rewrite E, fresh_neighbors_lookup.
  case_bool_decide; reflexivity.
Qed.

(** What an insertion does establish, whatever the distances are.
    Inserting with a level that does not exceed the current maximum layer
    into a graph whose entry point is a stored node, with [M >= 1] and
    [efConstruction >= 1]: the call returns; the new node is stored with
    exactly the layers [0 .. level]; at every such layer its neighbour
    set is a non-empty, duplicate-free set of at most [M] (and at most
    [efConstruction]) ids of nodes stored before the call; and every such
    neighbour other than the new id itself has afterwards, at that layer,
    a set of at most [M] ids, all of them from its previous set or the
    new id, which contains the new id whenever the previous set had fewer
    than [M] ids.  Which ids are kept is the subject of [NearestFacts];
    where the code departs from the specification is shown in
    [GraphRuns]. *)
Lemma insert_links (h : HNSW) (lv : nat) (newId : string) (v : Float32Array)
    (e : string) :
  entryPointId h = Some e -> is_Some (graph h !! e) ->
  lv <= maxLevel h -> 1 <= M h -> 1 <= efConstruction h ->
  exists h' nn,
    insert h (Level lv) newId v = Ok h'
    /\ graph h' !! newId = Some nn /\ level nn = lv /\ vector nn = v
    /\ (forall l, is_Some (neighbors nn !! l) <-> l <= lv)
    /\ forall l, l <= lv ->
         layer_set nn l <> []
         /\ NoDup (layer_set nn l)
         /\ length (layer_set nn l) <= M h
         /\ length (layer_set nn l) <= efConstruction h
         /\ forall m, m ∈ layer_set nn l ->
              exists nm, graph h !! m = Some nm
                /\ (m <> newId ->
                    exists nm', graph h' !! m = Some nm'
                      /\ link_post newId (M h) (layer_set nm l) (layer_set nm' l)).
Proof.
  intros He Hes Hlv HM HefC. unfold insert. rewrite He.
  rewrite (lookup_size_ne_0 _ _ Hes).
  assert (Hraise : (maxLevel h <? lv) = false) by (apply Nat.ltb_ge; lia).
  rewrite Hraise.
  set (newNode := {| id := newId; vector := v; level := lv;
                     neighbors := fresh_neighbors lv |}).
  destruct (descend_spec (graph h) v (layers_down (maxLevel h) lv) e) as (cur & -> & Hcur).
  specialize (Hcur Hes). cbn [bind].
  destruct (connect_returns newId v (M h) (efConstruction h) (S lv) cur
              (graph h, newNode) HefC) as ([g1 nn1] & Ec).
  rewrite Ec. cbn [bind fst snd].
  destruct (connect_spec newId v (M h) (efConstruction h) (fun _ _ => True)
              ltac:(auto) (S lv) cur (graph h) newNode g1 nn1) as (Hs & Hoth & Hev & Hlay);
    [intros l k node n _ _ _; exact I | auto | auto | exact Ec |].
  eexists. exists nn1. split; [reflexivity |]. cbn [graph].
  split; [apply lookup_insert_eq |].
  destruct Hs as (_ & Hvec & Hlevel). cbn [level vector] in Hlevel, Hvec.
  split; [exact Hlevel |]. split; [exact Hvec |].
  split.
  { intros l. destruct (Nat.le_gt_cases l lv) as [Hl | Hl].
    - split; [auto | intros _].
      destruct (Hlay l ltac:(lia)) as (sel & _ & _ & _ & _ & _ & Hkeep & _).
      apply Hkeep. unfold newNode. cbn [neighbors]. rewrite fresh_neighbors_lookup.
      rewrite bool_decide_eq_true_2 by assumption. eauto.
    - split; [| lia]. rewrite Hoth by lia. unfold newNode. cbn [neighbors].
      rewrite fresh_neighbors_lookup, bool_decide_eq_false_2 by lia.
      intros [? ?]; discriminate. }
  intros l Hl.
  destruct (Hlay l ltac:(lia)) as (sel & Hnd & HlM & Hlef & Hin & _ & _ & Hset & Hne & Hnodes).
  rewrite (fresh_layer_set lv l newNode eq_refl) in Hset.
  destruct (set_of_list_from sel [] (NoDup_nil_2 (A:=string))) as (Hrn & Hrm & Hrl).
  cbn zeta in Hrn, Hrm, Hrl. rewrite <- Hset in Hrn, Hrm, Hrl. cbn [length] in Hrl.
  split.
  { specialize (Hne HefC HM Hcur). destruct sel as [| y sel']; [congruence |].
    intros E. assert (Hy : y ∈ layer_set nn1 l) by (apply Hrm; right; now left).
    rewrite E in Hy. inversion Hy. }
  split; [exact Hrn |]. split; [lia |]. split; [lia |].
  intros m Hm. apply Hrm in Hm as [Hm | Hm]; [inversion Hm |].
  destruct (Hin m Hm) as [[nm Hnm] _].
  exists nm. split; [exact Hnm |]. intros Hneq.
  rewrite lookup_insert_ne by congruence.
  pose proof (Hev m) as Hevm. rewrite Hnm in Hevm. destruct Hevm as (n1 & Hn1 & _ & _).
  exists n1. split; [exact Hn1 |].
  destruct (Hnodes m nm n1 Hnm Hn1) as [_ Hsel].
  destruct (Hsel Hm) as (T & HT & Hpost).
  now rewrite (layer_set_lookup _ _ _ HT).
Qed.

End InsertFacts.

(* ===================================================================== *)
(** * Concrete runs of the graph index *)
(* ===================================================================== *)

Module GraphRuns.
Import JS Similarity HNSWGraph SearchFacts InsertFacts.

(** The graph after a run, or the empty graph when the run throws. *)
Definition graph_after (M efConstruction : nat)
    (calls : list (nat * string * Float32Array)) : HNSW :=
  match inserts (create M efConstruction) calls with
  | Ok h => h
  | _ => create M efConstruction
  end.

Definition lookup_layer (h : HNSW) (i : string) (l : nat) : option (list string) :=
  match graph h !! i with
  | Some n => neighbors n !! l
  | None => None
  end.

Definition lookup_level (h : HNSW) (i : string) : option nat :=
  level <$> graph h !! i.

(** Seven nodes on three layers, [M = 2], [efConstruction = 3]. *)
Definition seven_calls : list (nat * string * Float32Array) :=
  [ (2, "A", [1; 0]%float); (0, "B", [0; 1]%float); (1, "C", [1; 0.1]%float);
    (0, "D", [0.3; 0.1]%float); (2, "E", [0.3; 0.9]%float);
    (1, "F", [0.2; 0.9]%float); (0, "G", [0.7; 0.9]%float) ].

Definition seven : HNSW := graph_after 2 3 seven_calls.

Lemma search_containment_witness :
  1 <= 3 /\
  exists res, search seven [0.5; 0.5]%float 3 0 = Ok res /\ NoDup res /\ length res <= 3.
Proof.
  split; [lia |].
  destruct (search_containment seven [0.5; 0.5]%float 3 0 ltac:(lia))
    as (res & E & Hn & Hl & _).
  exists res. auto.
Defined.

Lemma insert_links_witness :
  entryPointId seven = Some "A" /\ 1 <= maxLevel seven /\
  exists h' nn, insert seven (Level 1) "H" [0.5; 0.4]%float = Ok h'
    /\ graph h' !! "H" = Some nn /\ level nn = 1.
Proof.
  split; [vm_compute; reflexivity |]. split; [vm_compute; lia |].
  destruct (insert_links seven 1 "H" [0.5; 0.4]%float "A") as (h' & nn & E & Hn & Hl & _).
  - vm_compute. reflexivity.
  - vm_compute. eauto.
  - vm_compute. lia.
  - vm_compute. lia.
  - vm_compute. lia.
  - exists h', nn. auto.
Defined.

(** The claim's summary of an insertion into a non-empty graph. *)
Definition linked_at_every_layer (h' : HNSW) (newId : string) (lv : nat) : Prop :=
  forall l, l <= lv ->
    exists s, lookup_layer h' newId l = Some s /\ s <> [].

(** The claim's account of the re-trim: the neighbour [m] keeps, of the
    ids in its set and the new id, the [M] nearest to its own vector; so
    no id it dropped is strictly nearer than one it kept. *)
Definition keeps_nearest (h' : HNSW) (m : string) (l : nat)
    (offered : list string) : Prop :=
  forall nm s kept dropped nk nd,
    graph h' !! m = Some nm -> neighbors nm !! l = Some s ->
    kept ∈ s -> dropped ∈ offered -> dropped ∉ s ->
    graph h' !! kept = Some nk -> graph h' !! dropped = Some nd ->
    JS.gt (dist (vector nm) (vector nk)) (dist (vector nm) (vector nd)) = false.

(** C1.  Two runs on which [insert] departs from the specification's
    account of insertion.  First: a node drawn above [maxLevel] becomes
    the entry point before the layer searches run and is not in the node
    map yet, so every search returns no candidate; inserting ["B"] at
    level 1 after ["A"] at level 0 leaves ["B"] without a neighbour at
    layer 0, where ["A"] is.  Second: [trimNeighbors] ranks the new id,
    stored only when [insert] ends, at distance [Infinity]; with [M = 1],
    ["A"] keeps ["B"] at distance 1 and drops the new ["C"] at distance
    about 0.005, so its set is not its [M] nearest. *)
Lemma insert_counterexample :
  (exists h, inserts (create 16 200) [ (0, "A", [1; 0]%float) ] = Ok h
     /\ size (graph h) = 1
     /\ exists h', insert h (Level 1) "B" [0; 1]%float = Ok h'
          /\ ~ linked_at_every_layer h' "B" 1
          /\ lookup_layer h' "B" 0 = Some [])
  /\ (exists h, inserts (create 1 200) [ (0, "A", [1; 0]%float); (0, "B", [0; 1]%float) ] = Ok h
     /\ lookup_layer h "A" 0 = Some ["B"]
     /\ exists h', insert h (Level 0) "C" [1; 0.1]%float = Ok h'
          /\ lookup_layer h' "C" 0 = Some ["A"]
          /\ lookup_layer h' "A" 0 = Some ["B"]
          /\ ~ keeps_nearest h' "A" 0 ["B"; "C"]).
Proof.
  split.
  - eexists. split; [vm_compute; reflexivity |]. split; [vm_compute; reflexivity |].
    eexists. split; [vm_compute; reflexivity |]. split; [| vm_compute; reflexivity].
    intros H. destruct (H 0 ltac:(lia)) as (s & Hs & Hne).
    vm_compute in Hs. inversion Hs; subst. congruence.
  - eexists. split; [vm_compute; reflexivity |]. split; [vm_compute; reflexivity |].
    eexists. split; [vm_compute; reflexivity |]. split; [vm_compute; reflexivity |].
    split; [vm_compute; reflexivity |].
    intros H.
    eassert (Hgt : _) by
      (eapply (H _ ["B"] "B" "C");
       [ vm_compute; reflexivity | vm_compute; reflexivity
       | now left | right; now left
       | intros Hc; apply list_elem_of_singleton in Hc; discriminate
       | vm_compute; reflexivity | vm_compute; reflexivity ]).
    vm_compute in Hgt. discriminate.
Qed.

End GraphRuns.

(* ===================================================================== *)
(** * Invariants of the graph under insertion of distinct ids *)
(* ===================================================================== *)

Module InvariantFacts.
Import JS Similarity HNSWGraph SortFacts SearchFacts InsertFacts.

Lemma layers_down_nil a b : a <= b -> layers_down a b = [].
Proof. intros H. unfold layers_down. now replace (a - b) with 0 by lia. Qed.

Lemma layers_down_S a b : b <= a -> layers_down (S a) b = S a :: layers_down a b.
Proof.
  intros H. unfold layers_down. replace (S a - b) with (S (a - b)) by lia.
  rewrite seq_S, rev_app_distr. cbn [rev app]. f_equal. lia.
Qed.

Section Descend.
Variable g : gmap string HNSWNode.
Variable query : Float32Array.
Variable R : nat -> string -> Prop.
Hypothesis R_mono : forall l l' m, l' <= l -> R l m -> R l' m.
Hypothesis R_closed : closed_in R g.

(** The coarse descent ends on an id that has [R] at every layer still
    to be connected. *)
Lemma descend_sound b a : forall entry cur,
  (is_Some (g !! entry) -> forall l, l <= a -> R l entry) ->
  descend g query (layers_down a b) entry = Ok cur ->
  is_Some (g !! cur) -> forall l, l <= a -> l <= b -> R l cur.
Proof.
  induction a as [| a IH]; intros entry cur Hentry E Hcur l Hla Hlb.
  - rewrite layers_down_nil in E by lia. cbn in E. inversion E; subst. auto.
  - destruct (Nat.le_gt_cases (S a) b) as [Hab | Hab].
    + rewrite layers_down_nil in E by lia. cbn in E. inversion E; subst. auto.
    + rewrite layers_down_S in E by lia. cbn [descend] in E.
      destruct (searchLayer g query 1 (S a) entry) as [res | |] eqn:Es; try discriminate.
      cbn [bind] in E.
      destruct (searchLayer_sound g query 1 (S a) (R (S a)) entry res (R_closed (S a)))
        as (_ & _ & Hrin); [intros Hc; apply Hentry; auto | exact Es |].
      eapply (IH _ cur); [| exact E | exact Hcur | lia | lia].
      intros Hc l' Hl'. destruct res as [| c res'].
      * apply Hentry; [exact Hc | lia].
      * apply (R_mono (S a)); [lia |]. apply Hrin. now left.
Qed.

End Descend.

(** A stored node has exactly the layers [0 .. level], each with at most
    [M] neighbours. *)
Definition node_wf (M : nat) (n : HNSWNode) : Prop :=
  (forall l, is_Some (neighbors n !! l) <-> l <= level n)
  /\ (forall l s, neighbors n !! l = Some s -> length s <= M).

(** Every neighbour at a layer is a stored node that reaches that layer. *)
Definition linked_levels (g : gmap string HNSWNode) : Prop :=
  forall k n l m,
    g !! k = Some n -> m ∈ layer_set n l ->
    exists n', g !! m = Some n' /\ l <= level n'.

(** The entry point is a stored node of the greatest level, which is
    [maxLevel]. *)
Definition entry_ok (h : HNSW) : Prop :=
  match entryPointId h with
  | None => graph h = ∅ /\ maxLevel h = 0
  | Some e =>
      exists ne, graph h !! e = Some ne /\ level ne = maxLevel h
        /\ forall k n, graph h !! k = Some n -> level n <= maxLevel h
  end.

Definition Inv (h : HNSW) : Prop :=
  (forall k n, graph h !! k = Some n -> node_wf (M h) n)
  /\ linked_levels (graph h)
  /\ entry_ok h.

Lemma Inv_create M efC : Inv (create M efC).
Proof.
  split; [| split].
  - intros k n Hk. unfold create in Hk. cbn [graph] in Hk.
    rewrite lookup_empty in Hk. discriminate.
  - intros k n l m Hk. unfold create in Hk. cbn [graph] in Hk.
    rewrite lookup_empty in Hk. discriminate.
  - unfold entry_ok, create. cbn [entryPointId graph maxLevel]. auto.
Qed.

Definition reaches (g : gmap string HNSWNode) (l : nat) (m : string) : Prop :=
  exists n, g !! m = Some n /\ l <= level n.

Lemma reaches_mono g l l' m : l' <= l -> reaches g l m -> reaches g l' m.
Proof. intros Hl (n & Hn & Hlv). exists n. split; [exact Hn | lia]. Qed.

Lemma linked_levels_closed g : linked_levels g -> closed_in (reaches g) g.
Proof. intros H l k node n Hk Hn _. eapply H; eauto. Qed.

Lemma fresh_node_wf M lv newId v :
  node_wf M {| id := newId; vector := v; level := lv; neighbors := fresh_neighbors lv |}.
Proof.
  split; cbn [neighbors level].
  - intros l. rewrite fresh_neighbors_lookup. case_bool_decide.
    + split; eauto.
    + split; [intros [? ?]; discriminate | lia].
  - intros l s. rewrite fresh_neighbors_lookup. case_bool_decide; [| discriminate].
    intros [= <-]. cbn. lia.
Qed.

(** What one insertion of a new id preserves and establishes. *)
Lemma insert_Inv h lv newId v h' :
  Inv h -> graph h !! newId = None ->
  insert h (Level lv) newId v = Ok h' ->
  Inv h'
  /\ M h' = M h /\ efConstruction h' = efConstruction h
  /\ maxLevel h' = Nat.max (maxLevel h) lv
  /\ (exists nn, graph h' !! newId = Some nn /\ level nn = lv /\ vector nn = v)
  /\ (forall k, k <> newId ->
      match graph h !! k with
      | None => graph h' !! k = None
      | Some n => exists n', graph h' !! k = Some n' /\ same_node n n'
      end).
Proof.
  intros (Hwf & Hll & Hent) Hfresh E. unfold insert in E.
  set (newNode := {| id := newId; vector := v; level := lv;
                     neighbors := fresh_neighbors lv |}) in *.
  unfold entry_ok in Hent.
  assert (Hfirst : graph h = ∅ -> maxLevel h = 0 ->
            forall hh, hh = {| graph := <[newId := newNode]> (graph h); maxLevel := lv;
                               entryPointId := Some newId; M := M h;
                               efConstruction := efConstruction h |} ->
            Inv hh /\ M hh = M h /\ efConstruction hh = efConstruction h
            /\ maxLevel hh = Nat.max (maxLevel h) lv
            /\ (exists nn, graph hh !! newId = Some nn /\ level nn = lv /\ vector nn = v)
            /\ (forall k, k <> newId ->
                match graph h !! k with
                | None => graph hh !! k = None
                | Some n => exists n', graph hh !! k = Some n' /\ same_node n n'
                end)).
  { intros Hg Hm hh ->. cbn [graph M efConstruction maxLevel]. rewrite Hg, Hm.
    split; [| split; [reflexivity | split; [reflexivity | split; [lia | split]]]].
    - split; [| split].
      + intros k n Hk. cbn [graph M] in *. destruct (decide (k = newId)) as [-> | Hne].
        * rewrite lookup_insert_eq in Hk. inversion Hk; subst. apply fresh_node_wf.
        * rewrite lookup_insert_ne, lookup_empty in Hk by congruence. discriminate.
      + intros k n l m Hk Hm'. cbn [graph] in Hk.
        destruct (decide (k = newId)) as [-> | Hne].
        * rewrite lookup_insert_eq in Hk. inversion Hk; subst.
          rewrite (fresh_layer_set lv l newNode eq_refl) in Hm'. inversion Hm'.
        * rewrite lookup_insert_ne, lookup_empty in Hk by congruence. discriminate.
      + unfold entry_ok. cbn [entryPointId graph maxLevel].
        exists newNode. split; [apply lookup_insert_eq |]. split; [reflexivity |].
        intros k n Hk. destruct (decide (k = newId)) as [-> | Hne].
        * rewrite lookup_insert_eq in Hk. inversion Hk; subst. reflexivity.
        * rewrite lookup_insert_ne, lookup_empty in Hk by congruence. discriminate.
    - exists newNode. split; [apply lookup_insert_eq | split; reflexivity].
    - intros k Hne. rewrite lookup_empty. rewrite lookup_insert_ne, lookup_empty by congruence.
      reflexivity. }
  destruct (entryPointId h) as [e |] eqn:He.
  2:{ destruct Hent as [Hg Hm]. inversion E; subst h'. now apply Hfirst. }
  destruct Hent as (ne & Hne & Hnelv & Hmax).
  rewrite (lookup_size_ne_0 _ e) in E by (rewrite Hne; eauto).
  set (raised := maxLevel h <? lv) in *.
  set (maxLevel' := if raised then lv else maxLevel h) in *.
  set (entry' := if raised then newId else e) in *.
  destruct (descend (graph h) v (layers_down maxLevel' lv) entry') as [cur | |] eqn:Ed;
    try discriminate.
  cbn [bind] in E.
  destruct (connect newId v (M h) (efConstruction h) (rev (seq 0 (S lv))) cur
              (graph h, newNode)) as [[g1 nn1] | |] eqn:Ec; try discriminate.
  cbn [bind fst snd] in E. inversion E; subst h'. clear E.
  pose proof (linked_levels_closed _ Hll) as Hcl.
  assert (HmaxLevel' : maxLevel' = Nat.max (maxLevel h) lv).
  { subst maxLevel' raised. destruct (Nat.ltb_spec (maxLevel h) lv); lia. }
  assert (Hentry' : is_Some (graph h !! entry') ->
                    forall l, l <= maxLevel' -> reaches (graph h) l entry').
  { subst entry' maxLevel' raised. destruct (Nat.ltb_spec (maxLevel h) lv).
    - rewrite Hfresh. intros [? ?]; discriminate.
    - intros _ l Hl. exists ne. split; [exact Hne | lia]. }
  pose proof (descend_sound (graph h) v (reaches (graph h)) (reaches_mono (graph h)) Hcl
                lv maxLevel' entry' cur Hentry' Ed) as Hcur.
  destruct (connect_spec newId v (M h) (efConstruction h) (reaches (graph h))
              (reaches_mono (graph h)) (S lv) cur (graph h) newNode g1 nn1 Hcl)
    as (Hs & Hoth & Hev & Hlay).
  { rewrite Hfresh. intros [? ?]; discriminate. }
  { intros Hc l Hl. apply Hcur; [exact Hc | lia | lia]. }
  { exact Ec. }
  destruct Hs as (Hid1 & Hvec1 & Hlv1).
  unfold newNode in Hid1, Hvec1, Hlv1. cbn [id vector level] in Hid1, Hvec1, Hlv1.
  (* the sets of the new node *)
  assert (Hnew : forall l,
            (is_Some (neighbors nn1 !! l) <-> l <= lv)
            /\ length (layer_set nn1 l) <= M h
            /\ forall m, m ∈ layer_set nn1 l -> l <= lv /\ reaches (graph h) l m).
  { intros l. destruct (Nat.le_gt_cases l lv) as [Hl | Hl].
    - destruct (Hlay l ltac:(lia)) as (sel & Hnd & HlM & _ & Hin & _ & Hkeep & Hset & _).
      rewrite (fresh_layer_set lv l newNode eq_refl) in Hset.
      destruct (set_of_list_from sel [] (NoDup_nil_2 (A:=string))) as (_ & Hrm & Hrl).
      cbn zeta in Hrm, Hrl. rewrite <- Hset in Hrm, Hrl. cbn [length] in Hrl.
      split; [| split; [lia |]].
      + split; [auto | intros _]. apply Hkeep. unfold newNode. cbn [neighbors].
        rewrite fresh_neighbors_lookup, bool_decide_eq_true_2 by assumption. eauto.
      + intros m Hm. apply Hrm in Hm as [Hm | Hm]; [inversion Hm |].
        split; [exact Hl | apply Hin, Hm].
    - assert (Hnone : neighbors nn1 !! l = None).
      { rewrite Hoth by lia. unfold newNode. cbn [neighbors].
        now rewrite fresh_neighbors_lookup, bool_decide_eq_false_2 by lia. }
      unfold layer_set. rewrite Hnone. cbn.
      split; [split; [intros [? ?]; discriminate | lia] |].
      split; [lia | intros m Hm; inversion Hm]. }
  (* the sets of the other nodes *)
  assert (Hold : forall k n1, g1 !! k = Some n1 ->
            exists n0, graph h !! k = Some n0 /\ same_node n0 n1 /\
              forall l,
                neighbors n1 !! l = neighbors n0 !! l
                \/ (l <= lv /\ l <= level n0 /\
                    exists T, neighbors n1 !! l = Some T
                      /\ link_post newId (M h) (layer_set n0 l) T)).
  { intros k n1 Hk1.
    destruct (evolves_lookup _ _ _ _ _ Hev Hk1) as (n0 & Hk0 & Hsame & Hkeep).
    exists n0. split; [exact Hk0 |]. split; [exact Hsame |].
    intros l. destruct (Nat.le_gt_cases l lv) as [Hl | Hl].
    - destruct (Hlay l ltac:(lia)) as (sel & _ & _ & _ & Hin & _ & _ & _ & _ & Hnodes).
      destruct (Hnodes k n0 n1 Hk0 Hk1) as [Hout Hsel].
      destruct (decide (k ∈ sel)) as [Hks | Hks]; [right | left; auto].
      destruct (Hin k Hks) as [_ (n0' & Hk0' & Hreach)].
      rewrite Hk0 in Hk0'. inversion Hk0'; subst n0'.
      split; [exact Hl |]. split; [exact Hreach | auto].
    - left. apply Hkeep. lia. }
  cbn [graph M efConstruction maxLevel entryPointId].
  split; [| split; [reflexivity | split; [reflexivity | split; [exact HmaxLevel' | split]]]].
  - split; [| split].
    + (* node_wf *)
      intros k n Hk. cbn [graph M] in *. destruct (decide (k = newId)) as [-> | Hne'].
      * rewrite lookup_insert_eq in Hk. inversion Hk; subst n. split.
        -- intros l. rewrite Hlv1. apply Hnew.
        -- intros l s Hs. destruct (Hnew l) as (_ & Hlen & _).
           now rewrite (layer_set_lookup _ _ _ Hs) in Hlen.
      * rewrite lookup_insert_ne in Hk by congruence.
        destruct (Hold k n Hk) as (n0 & Hk0 & (_ & _ & Hlevel) & Hsets).
        destruct (Hwf k n0 Hk0) as [Hlayers Hsizes]. split.
        -- intros l. rewrite Hlevel. destruct (Hsets l) as [-> | (_ & Hreach & T & -> & _)].
           ++ apply Hlayers.
           ++ split; [auto | eauto].
        -- intros l s Hs. destruct (Hsets l) as [Heq | (_ & _ & T & HT & (Hlen & _))].
           ++ rewrite Heq in Hs. eapply Hsizes, Hs.
           ++ rewrite HT in Hs. inversion Hs; subst. exact Hlen.
    + (* linked_levels *)
      assert (Hstays : forall l m, reaches (graph h) l m ->
                exists n', <[newId := nn1]> g1 !! m = Some n' /\ l <= level n').
      { intros l m (n0 & Hm0 & Hreach).
        assert (m <> newId) by (intros ->; congruence).
        rewrite lookup_insert_ne by congruence.
        pose proof (Hev m) as Hevm. rewrite Hm0 in Hevm.
        destruct Hevm as (n1 & Hm1 & (_ & _ & Hlevel) & _).
        exists n1. split; [exact Hm1 | lia]. }
      intros k n l m Hk Hm. cbn [graph] in Hk.
      destruct (decide (k = newId)) as [-> | Hne'].
      * rewrite lookup_insert_eq in Hk. inversion Hk; subst n.
        destruct (Hnew l) as (_ & _ & Hmem). destruct (Hmem m Hm) as [_ Hreach].
        now apply Hstays.
      * rewrite lookup_insert_ne in Hk by congruence.
        destruct (Hold k n Hk) as (n0 & Hk0 & _ & Hsets).
        destruct (Hsets l) as [Heq | (Hl & _ & T & HT & (_ & Hsub & _))].
        -- unfold layer_set in Hm. rewrite Heq in Hm.
           apply Hstays. eapply Hll; eauto.
        -- rewrite (layer_set_lookup _ _ _ HT) in Hm.
           destruct (Hsub m Hm) as [-> | Hm0].
           ++ exists nn1. split; [apply lookup_insert_eq | lia].
           ++ apply Hstays. eapply Hll; eauto.
    + (* entry_ok *)
      unfold entry_ok. cbn [entryPointId graph maxLevel].
      assert (Hlevels : forall k n, <[newId := nn1]> g1 !! k = Some n -> level n <= maxLevel').
      { intros k n Hk. destruct (decide (k = newId)) as [-> | Hne'].
        - rewrite lookup_insert_eq in Hk. inversion Hk; subst n. lia.
        - rewrite lookup_insert_ne in Hk by congruence.
          destruct (Hold k n Hk) as (n0 & Hk0 & (_ & _ & Hlevel) & _).
          specialize (Hmax k n0 Hk0). lia. }
      subst entry' maxLevel' raised. destruct (Nat.ltb_spec (maxLevel h) lv) as [Hr | Hr].
      * exists nn1. split; [apply lookup_insert_eq |]. split; [lia | exact Hlevels].
      * assert (e <> newId) by (intros ->; congruence).
        pose proof (Hev e) as Heve. rewrite Hne in Heve.
        destruct Heve as (n1 & He1 & (_ & _ & Hlevel) & _).
        exists n1. split; [now rewrite lookup_insert_ne by congruence |].
        split; [lia | exact Hlevels].
  - exists nn1. split; [apply lookup_insert_eq | auto].
  - intros k Hne'. rewrite lookup_insert_ne by congruence.
    pose proof (Hev k) as Hevk. destruct (graph h !! k) as [n0 |]; [| exact Hevk].
    destruct Hevk as (n1 & Hk1 & Hsame & _). eauto.
Qed.

Lemma insert_returns h lv newId v :
  1 <= efConstruction h ->
  exists h', insert h (Level lv) newId v = Ok h' /\ efConstruction h' = efConstruction h.
Proof.
  intros HefC. unfold insert.
  destruct (entryPointId h) as [e |]; [| eauto].
  destruct (size (graph h) =? 0); [eauto |].
  destruct (descend_spec (graph h) v
              (layers_down (if maxLevel h <? lv then lv else maxLevel h) lv)
              (if maxLevel h <? lv then newId else e)) as (cur & -> & _).
  cbn [bind].
  destruct (connect_returns newId v (M h) (efConstruction h) (S lv) cur
              (graph h, {| id := newId; vector := v; level := lv;
                           neighbors := fresh_neighbors lv |}) HefC) as (st & ->).
  cbn [bind]. eauto.
Qed.

Definition id_of (c : nat * string * Float32Array) : string := snd (fst c).
Definition level_of (c : nat * string * Float32Array) : nat := fst (fst c).

Lemma inserts_returns calls : forall h,
  1 <= efConstruction h -> exists h', inserts h calls = Ok h'.
Proof.
  induction calls as [| [[lv i] v] rest IH]; intros h HefC; cbn [inserts]; [eauto |].
  destruct (insert_returns h lv i v HefC) as (h1 & -> & He). cbn [bind].
  apply IH. lia.
Qed.

Lemma inserts_Inv calls : forall h h',
  Inv h -> NoDup (map id_of calls) ->
  (forall c, c ∈ calls -> graph h !! id_of c = None) ->
  inserts h calls = Ok h' ->
  Inv h' /\ M h' = M h
  /\ maxLevel h' = Nat.max (maxLevel h) (list_max (map level_of calls))
  /\ (forall k, is_Some (graph h' !! k) -> is_Some (graph h !! k) \/ k ∈ map id_of calls)
  /\ (forall c, c ∈ calls ->
      exists n, graph h' !! id_of c = Some n /\ level n = level_of c)
  /\ (forall k n, graph h !! k = Some n ->
      exists n', graph h' !! k = Some n' /\ same_node n n').
Proof.
  induction calls as [| [[lv i] v] rest IH]; intros h h' HInv Hnd Hfresh E.
  - cbn in E. inversion E; subst h'. cbn [map list_max].
    split; [exact HInv |]. split; [reflexivity |]. split; [cbn; lia |].
    split; [auto |]. split; [intros c Hc; inversion Hc |].
    intros k n Hk. exists n. split; [exact Hk | apply same_node_refl].
  - cbn [inserts] in E.
    destruct (insert h (Level lv) i v) as [h1 | |] eqn:E1; try discriminate. cbn [bind] in E.
    cbn [map] in Hnd. apply NoDup_cons in Hnd as [Hi Hnd].
    change (id_of (lv, i, v)) with i in Hi.
    assert (Hfi : graph h !! i = None) by (apply (Hfresh (lv, i, v)); now left).
    destruct (insert_Inv h lv i v h1 HInv Hfi E1)
      as (HInv1 & HM1 & _ & Hmax1 & (nn & Hnn & Hnnlv & _) & Hothers).
    assert (Hfresh1 : forall c, c ∈ rest -> graph h1 !! id_of c = None).
    { intros c Hc. assert (Hne : id_of c <> i).
      { intros Heq. apply Hi. rewrite <- Heq. apply map_elem. eauto. }
      specialize (Hothers (id_of c) Hne).
      rewrite (Hfresh c) in Hothers by (now right). exact Hothers. }
    destruct (IH h1 h' HInv1 Hnd Hfresh1 E) as (HInv' & HM' & Hmax' & Hdom' & Hcalls' & Hkeep').
    split; [exact HInv' |]. split; [congruence |].
    split.
    { change (list_max (map level_of ((lv, i, v) :: rest)))
        with (Nat.max lv (list_max (map level_of rest))). lia. }
    split.
    { intros k Hk. destruct (Hdom' k Hk) as [Hk1 | Hk1].
      - destruct (decide (k = i)) as [-> | Hne].
        + right. cbn [map]. now left.
        + left. specialize (Hothers k Hne). destruct (graph h !! k); [eauto |].
          rewrite Hothers in Hk1. exact Hk1.
      - right. cbn [map]. now right. }
    split.
    { intros c Hc. apply elem_of_cons in Hc as [-> | Hc]; [| now apply Hcalls'].
      change (id_of (lv, i, v)) with i. change (level_of (lv, i, v)) with lv.
      destruct (Hkeep' i nn Hnn) as (n' & Hn' & (_ & _ & Hlevel)).
      exists n'. split; [exact Hn' | congruence]. }
    intros k n Hk.
    assert (Hne : k <> i) by (intros ->; congruence).
    specialize (Hothers k Hne). rewrite Hk in Hothers.
    destruct Hothers as (n1 & Hk1 & Hs1).
    destruct (Hkeep' k n1 Hk1) as (n' & Hk' & Hs').
    exists n'. split; [exact Hk' | eapply same_node_trans; eauto].
Qed.

(** C2 (as amended). After any sequence of [insert] calls with pairwise
    distinct ids, starting from an empty graph: every stored node has a
    neighbour set for exactly the layers [0 .. level], each holding at
    most [M] ids; the stored nodes are the inserted ids, each with the
    level it was given; and [maxLevel] is the greatest of these levels.
    With [efConstruction >= 1] every such sequence runs to its end. *)
Theorem inserts_invariants (M0 efC : nat) (calls : list (nat * string * Float32Array)) :
  NoDup (map id_of calls) ->
  (1 <= efC -> exists h, inserts (create M0 efC) calls = Ok h)
  /\ forall h, inserts (create M0 efC) calls = Ok h ->
       (forall k n, graph h !! k = Some n ->
          (forall l, is_Some (neighbors n !! l) <-> l <= level n)
          /\ (forall l s, neighbors n !! l = Some s -> length s <= M0))
       /\ (forall c, c ∈ calls ->
           exists n, graph h !! id_of c = Some n /\ level n = level_of c)
       /\ (forall k, is_Some (graph h !! k) -> k ∈ map id_of calls)
       /\ maxLevel h = list_max (map level_of calls).
Proof.
  intros Hnd. split.
  - intros HefC. apply inserts_returns. exact HefC.
  - intros h E.
    destruct (inserts_Inv calls (create M0 efC) h (Inv_create M0 efC) Hnd) as
      ((Hwf & _ & _) & HM & Hmax & Hdom & Hcalls & _); [| exact E |].
    { intros c _. unfold create. cbn [graph]. apply lookup_empty. }
    split; [| split; [exact Hcalls | split]].
    + intros k n Hk. specialize (Hwf k n Hk). rewrite HM in Hwf. exact Hwf.
    + intros k Hk. destruct (Hdom k Hk) as [Hc | Hc]; [| exact Hc].
      unfold create in Hc. cbn [graph] in Hc. rewrite lookup_empty in Hc.
      destruct Hc; discriminate.
    + rewrite Hmax. unfold create. cbn [maxLevel]. lia.
Qed.

End InvariantFacts.

Module InvariantRuns.
Import JS Similarity HNSWGraph InvariantFacts GraphRuns.

Lemma inserts_invariants_witness :
  NoDup (map id_of seven_calls)
  /\ exists h, inserts (create 2 3) seven_calls = Ok h /\ maxLevel h = 2.
Proof.
  assert (Hnd : NoDup (map id_of seven_calls)).
  { apply (bool_decide_unpack _). vm_compute. exact I. }
  split; [exact Hnd |].
  destruct (inserts_invariants 2 3 seven_calls Hnd) as [Hret Hinv].
  destruct (Hret ltac:(lia)) as (h & E).
  exists h. split; [exact E |].
  destruct (Hinv h E) as (_ & _ & _ & Hmax). rewrite Hmax. reflexivity.
Defined.

(** The claim, as it is stated for arbitrary sequences of calls. *)
Definition layers_match_level (h : HNSW) : Prop :=
  forall k n, graph h !! k = Some n ->
    forall l, is_Some (neighbors n !! l) <-> l <= level n.

Definition maxLevel_is_greatest_level (h : HNSW) : Prop :=
  exists k n, graph h !! k = Some n /\ level n = maxLevel h.

(** Re-inserting an id breaks both: the re-inserted ["B"] has level 0 but
    is still listed at layer 1 by ["A"], so the insertion of ["C"] gives it
    a layer-1 set; and a node replaced by a lower one leaves [maxLevel]
    above every stored level. *)
Definition reinserted : HNSW :=
  graph_after 16 200
    [ (1, "A", [1; 0]%float); (1, "B", [0; 1]%float);
      (0, "B", [0.5; 1]%float); (1, "C", [1; 1]%float) ].

Definition lowered : HNSW :=
  graph_after 16 200 [ (3, "A", [1; 0]%float); (0, "A", [1; 0]%float) ].

Lemma inserts_counterexample :
  (inserts (create 16 200)
     [ (1, "A", [1; 0]%float); (1, "B", [0; 1]%float);
       (0, "B", [0.5; 1]%float); (1, "C", [1; 1]%float) ] = Ok reinserted
   /\ lookup_level reinserted "B" = Some 0
   /\ lookup_layer reinserted "B" 1 = Some ["C"]
   /\ ~ layers_match_level reinserted)
  /\ (inserts (create 16 200) [ (3, "A", [1; 0]%float); (0, "A", [1; 0]%float) ]
        = Ok lowered
      /\ maxLevel lowered = 3 /\ lookup_level lowered "A" = Some 0
      /\ size (graph lowered) = 1
      /\ ~ maxLevel_is_greatest_level lowered).
Proof.
  split.
  - split; [vm_compute; reflexivity |]. split; [vm_compute; reflexivity |].
    split; [vm_compute; reflexivity |].
    intros H. pose proof (H "B") as HB.
    destruct (graph reinserted !! "B") as [n |] eqn:Hk; [| vm_compute in Hk; discriminate].
    destruct (HB n eq_refl 1) as [Hlt _].
    vm_compute in Hk. inversion Hk; subst n. clear Hk HB H.
    assert (1 <= 0) by (apply Hlt; vm_compute; eauto). lia.
  - split; [vm_compute; reflexivity |]. split; [vm_compute; reflexivity |].
    split; [vm_compute; reflexivity |]. split; [vm_compute; reflexivity |].
    intros (k & n & Hk & Hn).
    assert (Hall : forall kn, kn ∈ map_to_list (graph lowered) -> level (snd kn) = 0).
    { intros kn Hin. vm_compute in Hin.
      apply list_elem_of_singleton in Hin. subst kn. reflexivity. }
    apply elem_of_map_to_list in Hk. specialize (Hall _ Hk). cbn [snd] in Hall.
    rewrite Hall in Hn. vm_compute in Hn. discriminate.
Qed.

End InvariantRuns.

(* ===================================================================== *)
(** * Late-interaction scorer and orchestrator (src/core/UltraVectorDB.ts) *)
(* ===================================================================== *)

Module ColBERTEngine.
Import JS Similarity Types.

Section Engine.
Variable Math_sin : float -> float.

(** [makeQueryTokenEmbedding]: entry [i] is [Math.sin((base + i) * 0.05)]
    stored into a [Float32Array(32)]. *)
Definition makeQueryTokenEmbedding (token : text) : Float32Array :=
  MatryoshkaGenerator.token_embedding Math_sin 0.05 token.

(** [docImportance[di] ?? 1.0]. *)
Definition importance_at (docImportance : Float32Array) (di : nat) : float :=
  match nth_error docImportance di with
  | Some w => w
  | None => 1%float
  end.

(** The inner loop: the best weighted similarity of one query token. *)
Definition max_sim (qEmb : Float32Array) (docEmbeddings : list Float32Array)
    (docImportance : Float32Array) : float :=
  fold_left
    (fun maxSim (d : nat * Float32Array) =>
       let sim := (cosineSimilarity qEmb (snd d)
                   * importance_at docImportance (fst d))%float in
       if gt sim maxSim then sim else maxSim)
    (combine (seq 0 (length docEmbeddings)) docEmbeddings) 0%float.

Definition score (query : text) (doc : ColbertData) : float :=
  if (length (tokens doc) =? 0) || (length (embeddings doc) =? 0) then 0%float
  else
    let queryTokens := split_ws query in
    if length queryTokens =? 0 then 0%float
    else
      let queryEmbeddings := map makeQueryTokenEmbedding queryTokens in
      let totalScore :=
        fold_left
          (fun total qEmb =>
             (total + max_sim qEmb (embeddings doc) (importance doc))%float)
          queryEmbeddings 0%float in
      (totalScore / ofNat (length queryEmbeddings))%float.

End Engine.
End ColBERTEngine.

Module UltraVectorDB.
Import JS Similarity Types.

(** The fields of the class.  [dataStore] is a [Map]: its entries keep
    their insertion order and a key occurs once. *)
Record DB := {
  dataStore : list (string * UltraChunk);
  hnsw : HNSWGraph.HNSW;
  M : nat;
  efConstruction : nat
}.

Definition create (M efConstruction : nat) : DB :=
  {| dataStore := []; hnsw := HNSWGraph.create M efConstruction;
     M := M; efConstruction := efConstruction |}.

Fixpoint store_get (store : list (string * UltraChunk)) (i : string)
  : option UltraChunk :=
  match store with
  | [] => None
  | (k, c) :: rest => if bool_decide (k = i) then Some c else store_get rest i
  end.

(** [Map.prototype.set]: an existing key keeps its place. *)
Fixpoint store_set (store : list (string * UltraChunk)) (i : string) (c : UltraChunk)
  : list (string * UltraChunk) :=
  match store with
  | [] => [(i, c)]
  | (k, c') :: rest =>
      if bool_decide (k = i) then (k, c) :: rest else (k, c') :: store_set rest i c
  end.

(** [a[0] ?? 0] on a [Uint32Array]. *)
Definition word0 (a : Uint32Array) : Z :=
  match a with
  | w :: _ => w
  | [] => 0%Z
  end.

(** [while (x) { x &= x - 1; count++; }], one iteration per unit of
    [fuel]. *)
Fixpoint count_bits (fuel : nat) (x count : Z) : outcome Z :=
  match fuel with
  | O => OutOfFuel
  | S fuel' =>
      if (x =? 0)%Z then Ok count
      else count_bits fuel' (band x (x - 1)) (count + 1)%Z
  end.

Definition nanoHammingDistance (a b : Uint32Array) : outcome Z :=
  let va := word0 a in
  let vb := word0 b in
  count_bits 33 (bxor va vb) 0.

(** [cmp(a, b) > 0] for [(a, b) => a.distance - b.distance] on the
    integer distances of the prefilter. *)
Definition farther_bits (a b : string * Z) : bool := (0 <? snd a - snd b)%Z.

Definition getBinaryCandidates (store : list (string * UltraChunk))
    (queryNano : Uint32Array) (limit : nat) : outcome (list string) :=
  if length store =? 0 then Ok []
  else
    do scored <- mapM (fun e : string * UltraChunk =>
                         do d <- nanoHammingDistance queryNano
                                   (nano (matryoshka (snd e))) ;
                         Ok (fst e, d)) store ;
    let sorted := sort farther_bits scored in
    Ok (map fst (slice0 (Nat.min limit (length scored)) sorted)).

(** [cmp(a, b) > 0] for [(a, b) => b.score - a.score]. *)
Definition lower_score (a b : SearchResult) : bool :=
  gt (score b - score a)%float 0.

Section Pipeline.
Variable Math_sin : float -> float.

(** The body of the loop over the merged candidates, for a stored
    chunk. *)
Definition score_chunk (query : text) (queryFull : Float32Array)
    (queryNano : Uint32Array) (c : UltraChunk) : outcome SearchResult :=
  let colbertScore := ColBERTEngine.score Math_sin query (colbert c) in
  let fullScore := cosineSimilarity queryFull (full (matryoshka c)) in
  let combined := (colbertScore * 0.6 + fullScore * 0.4)%float in
  do b <- nanoHammingDistance queryNano (nano (matryoshka c)) ;
  Ok {| chunk := c; score := combined;
        breakdown := {| binary := b; bd_hnsw := 0%float;
                        bd_colbert := colbertScore; final := fullScore |} |}.

Fixpoint rank_candidates (store : list (string * UltraChunk)) (query : text)
    (queryFull : Float32Array) (queryNano : Uint32Array) (ids : list string)
  : outcome (list SearchResult) :=
  match ids with
  | [] => Ok []
  | i :: rest =>
      match store_get store i with
      | None => rank_candidates store query queryFull queryNano rest
      | Some c =>
          do r <- score_chunk query queryFull queryNano c ;
          do rs <- rank_candidates store query queryFull queryNano rest ;
          Ok (r :: rs)
      end
  end.

Definition ultraSearch (db : DB) (query : text) (limit : nat)
  : outcome (list SearchResult) :=
  if (length (trim query) =? 0) || (length (dataStore db) =? 0) then Ok []
  else
    let qMat := fst (MatryoshkaGenerator.generateAll Math_sin query) in
    let queryFull := full qMat in
    let queryMedium := medium qMat in
    let queryNano := nano qMat in
    do binaryCandidates <- getBinaryCandidates (dataStore db) queryNano 500 ;
    do hnswCandidates <- HNSWGraph.search (hnsw db) queryMedium 50 0 ;
    let finalCandidates := set_of_list (binaryCandidates ++ hnswCandidates) in
    do results <- rank_candidates (dataStore db) query queryFull queryNano
                    finalCandidates ;
    Ok (slice0 limit (sort lower_score results)).

(** [addChunk], with the level that [insert] draws made an argument. *)
Definition addChunk (db : DB) (level : HNSWGraph.drawn) (i : string) (content : text)
    (meta : UltraMetadata) : outcome DB :=
  let '(m, cb) := MatryoshkaGenerator.generateAll Math_sin content in
  let fullChunk := {| id := i; content := content; matryoshka := m;
                      colbert := cb; metadata := meta |} in
  do h <- HNSWGraph.insert (hnsw db) level i (medium m) ;
  Ok {| dataStore := store_set (dataStore db) i fullChunk; hnsw := h;
        M := M db; efConstruction := efConstruction db |}.

(** The implementation the claim compares with: no prefilter and no graph
    search, every stored chunk scored in store order. *)
Definition naiveSearch (db : DB) (query : text) (limit : nat)
  : outcome (list SearchResult) :=
  if (length (trim query) =? 0) || (length (dataStore db) =? 0) then Ok []
  else
    let qMat := fst (MatryoshkaGenerator.generateAll Math_sin query) in
    do results <- mapM (fun e : string * UltraChunk =>
                          score_chunk query (full qMat) (nano qMat) (snd e))
                    (dataStore db) ;
    Ok (slice0 limit (sort lower_score results)).

End Pipeline.

Definition clear (db : DB) : DB :=
  {| dataStore := []; hnsw := HNSWGraph.create (M db) (efConstruction db);
     M := M db; efConstruction := efConstruction db |}.

End UltraVectorDB.

(* ===================================================================== *)
(** * Bounds on binary64 arithmetic *)
(* ===================================================================== *)

Module FloatBounds.
Import FloatFacts.
Local Open Scope Z_scope.

(** Magnitudes are compared as integers after scaling by [2^2200], below
    every exponent an operation on binary64 values produces. *)
Definition P (x : Z) : Z := 2 ^ (x + 2200).

Lemma P_pos x : -2200 <= x -> 0 < P x.
Proof. intros H. unfold P. apply Z.pow_pos_nonneg; lia. Qed.

Lemma P_add x j : -2200 <= x -> 0 <= j -> P (x + j) = P x * 2 ^ j.
Proof.
  intros Hx Hj. unfold P. rewrite <- Z.pow_add_r by lia. f_equal. lia.
Qed.

Lemma P_le x y : -2200 <= x -> x <= y -> P x <= P y.
Proof. intros Hx Hy. unfold P. apply Z.pow_le_mono_r; lia. Qed.

Lemma P_lt x y : -2200 <= x -> x < y -> P x < P y.
Proof. intros Hx Hy. unfold P. apply Z.pow_lt_mono_r; lia. Qed.

Lemma P_lt_inv x y : -2200 <= x -> -2200 <= y -> P x < P y -> x < y.
Proof.
  intros Hx Hy H. destruct (Z.lt_ge_cases x y) as [| Hge]; [assumption |].
  pose proof (P_le y x Hy Hge). lia.
Qed.

Lemma P_mul x y :
  -2200 <= x -> -2200 <= y -> -2200 <= x + y -> P x * P y = P (x + y) * P 0.
Proof.
  intros Hx Hy Hxy. unfold P.
  rewrite <- (Z.pow_add_r 2 (x + 2200) (y + 2200)) by lia.
  rewrite <- (Z.pow_add_r 2 (x + y + 2200) (0 + 2200)) by lia.
  f_equal. lia.
Qed.

Lemma P_le_inv x y : -2200 <= x -> -2200 <= y -> P x <= P y -> x <= y.
Proof.
  intros Hx Hy H. destruct (Z.le_gt_cases x y) as [| Hgt]; [assumption |].
  pose proof (P_lt y x Hy Hgt). lia.
Qed.

(** Dropping low bits does not increase a magnitude. *)
Lemma floor_scale m j e :
  0 <= m -> 0 <= j -> -2200 <= e -> m / 2 ^ j * P (e + j) <= m * P e.
Proof.
  intros Hm Hj He. rewrite P_add by lia.
  assert (0 < 2 ^ j) by (apply Z.pow_pos_nonneg; lia).
  pose proof (Z.mul_div_le m (2 ^ j) ltac:(lia)).
  pose proof (P_pos e He). nia.
Qed.

Lemma digits_scale p e :
  -2200 <= e -> P (Zpos (digits2_pos p) - 1 + e) <= Zpos p * P e.
Proof.
  intros He. pose proof (digits2_bounds p) as [Hlo _].
  replace (Zpos (digits2_pos p) - 1 + e) with (e + (Zpos (digits2_pos p) - 1)) by lia.
  rewrite P_add by lia. pose proof (P_pos e He). nia.
Qed.

Lemma shl_align_spec mx ex ex' :
  exists mz, shl_align mx ex ex' = (mz, Z.min ex ex')
    /\ Zpos mz = Zpos mx * 2 ^ (ex - Z.min ex ex').
Proof.
  unfold shl_align. destruct (ex' - ex) as [| p | p] eqn:E.
  - exists mx. rewrite Z.min_l by lia. rewrite Z.sub_diag. split; [reflexivity | lia].
  - exists mx. rewrite Z.min_l by lia. rewrite Z.sub_diag. split; [reflexivity | lia].
  - eexists. rewrite Z.min_r by lia. split; [reflexivity |].
    rewrite iter_xO_pow. f_equal. f_equal. lia.
Qed.

(** ** The right shift of the rounding functions *)

Lemma shr_1_exact r :
  0 <= shr_m r -> shr_r r = false -> shr_s r = false -> Z.even (shr_m r) = true ->
  shr_r (shr_1 r) = false /\ shr_s (shr_1 r) = false.
Proof.
  destruct r as [m rb sb]. cbn [shr_m shr_r shr_s]. intros Hm -> -> He.
  destruct m as [| [p | p |] | p]; cbn in *; try discriminate; try lia; auto.
Qed.

Lemma shr_iter_exact n r :
  0 <= shr_m r -> shr_r r = false -> shr_s r = false ->
  shr_m r mod 2 ^ Z.of_nat n = 0 ->
  shr_r (Nat.iter n shr_1 r) = false /\ shr_s (Nat.iter n shr_1 r) = false.
Proof.
  intros Hm Hr Hs. induction n as [| n IH]; intros Hmod; [cbn; auto |].
  rewrite Nat.iter_succ.
  assert (Hpow : 2 ^ Z.of_nat (S n) = 2 ^ Z.of_nat n * 2).
  { rewrite Nat2Z.inj_succ, Z.pow_succ_r by lia. lia. }
  assert (Hpos : 0 < 2 ^ Z.of_nat n) by (apply Z.pow_pos_nonneg; lia).
  pose proof (Z.div_mod (shr_m r) (2 ^ Z.of_nat (S n)) ltac:(lia)) as Hdm.
  rewrite Hmod, Z.add_0_r, Hpow in Hdm.
  set (q := shr_m r / (2 ^ Z.of_nat n * 2)) in *.
  assert (Hn : shr_m r mod 2 ^ Z.of_nat n = 0).
  { rewrite Hdm. replace (2 ^ Z.of_nat n * 2 * q) with ((2 * q) * 2 ^ Z.of_nat n) by lia.
    apply Z.mod_mul. lia. }
  destruct (IH Hn) as [Hr' Hs'].
  apply shr_1_exact; auto.
  - rewrite shr_iter_m by assumption. apply Z.div_pos; lia.
  - rewrite shr_iter_m by assumption. rewrite Hdm.
    replace (2 ^ Z.of_nat n * 2 * q) with ((2 * q) * 2 ^ Z.of_nat n) by lia.
    rewrite Z.div_mul by lia. rewrite Z.even_mul. reflexivity.
Qed.

Lemma loc_of_record_of_loc m l : loc_of_shr_record (shr_record_of_loc m l) = l.
Proof. destruct l as [| []]; reflexivity. Qed.

Lemma shr_m_record_of_loc m l : shr_m (shr_record_of_loc m l) = m.
Proof. destruct l as [| []]; reflexivity. Qed.

Lemma round_nearest_even_bounds m l :
  m <= round_nearest_even m l <= m + 1.
Proof.
  destruct l as [| []]; cbn [round_nearest_even]; try destruct (Z.even m); lia.
Qed.

Section Rounding.
Variables prec emax : Z.
Hypothesis Hprec : 0 < prec.
Hypothesis Hemin : -2200 <= SpecFloat.emin prec emax.

Local Abbreviation emin := (SpecFloat.emin prec emax).
Local Abbreviation fexp := (SpecFloat.fexp prec emax).

Lemma fexp_ge_emin x : emin <= fexp x.
Proof. unfold SpecFloat.fexp. lia. Qed.

(** What [shr_fexp] returns on a non-negative mantissa: the mantissa is
    divided by the power of two that brings the exponent up to the one the
    format asks for, and a shift that drops no set bit is reported exact. *)
Lemma shr_fexp_spec m e l :
  0 <= m ->
  exists r e1, shr_fexp prec emax m e l = (r, e1)
    /\ e <= e1 /\ fexp (Zdigits2 m + e) <= e1
    /\ (e1 = e \/ e1 = fexp (Zdigits2 m + e))
    /\ shr_m r = m / 2 ^ (e1 - e)
    /\ (l = loc_Exact -> m mod 2 ^ (e1 - e) = 0 -> loc_of_shr_record r = loc_Exact).
Proof.
  intros Hm. unfold shr_fexp, shr.
  destruct (fexp (Zdigits2 m + e) - e) as [| p | p] eqn:En.
  - eexists _, e. split; [reflexivity |]. rewrite Z.sub_diag, Z.div_1_r.
    rewrite shr_m_record_of_loc, loc_of_record_of_loc. repeat split; auto; lia.
  - eexists _, (e + Zpos p). split; [reflexivity |].
    replace (e + Zpos p - e) with (Zpos p) by lia.
    rewrite iter_pos_nat.
    assert (Hm0 : 0 <= shr_m (shr_record_of_loc m l)) by now rewrite shr_m_record_of_loc.
    split; [lia |]. split; [lia |]. split; [right; lia |]. split.
    + rewrite shr_iter_m by assumption.
      now rewrite shr_m_record_of_loc, positive_nat_Z.
    + intros -> Hmod. cbn [shr_record_of_loc].
      destruct (shr_iter_exact (Pos.to_nat p) (Build_shr_record m false false)) as [Hr Hs];
        cbn [shr_m shr_r shr_s]; auto.
      { now rewrite positive_nat_Z. }
      destruct (Nat.iter _ _ _) as [m' rb sb]. cbn [shr_r shr_s] in *. subst. reflexivity.
  - eexists _, e. split; [reflexivity |]. rewrite Z.sub_diag, Z.div_1_r.
    rewrite shr_m_record_of_loc, loc_of_record_of_loc. repeat split; auto; lia.
Qed.

(** After the shift the mantissa fits the precision. *)
Lemma shr_fexp_fits m e l :
  0 <= m ->
  exists r e1, shr_fexp prec emax m e l = (r, e1) /\ 0 <= shr_m r < 2 ^ prec.
Proof.
  intros Hm.
  destruct (shr_fexp_spec m e l Hm) as (r & e1 & E & Hle & Hf & _ & Hr & _).
  exists r, e1. split; [exact E |].
  assert (Hpow : 0 < 2 ^ (e1 - e)) by (apply Z.pow_pos_nonneg; lia).
  rewrite Hr. split; [apply Z.div_pos; lia |].
  apply Z.div_lt_upper_bound; [lia |].
  rewrite <- Z.pow_add_r by lia.
  assert (Hd : m < 2 ^ Zdigits2 m).
  { destruct m as [| p | p]; [cbn; lia | | lia].
    cbn [Zdigits2]. apply digits2_bounds. }
  eapply Z.lt_le_trans; [exact Hd |].
  apply Z.pow_le_mono_r; [lia |]. unfold SpecFloat.fexp in Hf.
  destruct m as [| p | p]; cbn [Zdigits2] in *; lia.
Qed.

(** A finite result of rounding has a mantissa that fits the precision. *)
Lemma round_fits s m e l m' e' :
  0 <= m ->
  binary_round_aux prec emax s m e l = S754_finite s m' e' -> Zpos m' < 2 ^ prec.
Proof.
  intros Hm. unfold binary_round_aux.
  destruct (shr_fexp_spec m e l Hm) as (r & e1 & -> & Hle & _ & _ & Hr & _).
  set (m1 := round_nearest_even (shr_m r) (loc_of_shr_record r)).
  pose proof (round_nearest_even_bounds (shr_m r) (loc_of_shr_record r)) as Hrne.
  fold m1 in Hrne.
  assert (Hr0 : 0 <= shr_m r).
  { rewrite Hr. apply Z.div_pos; [lia |]. apply Z.pow_pos_nonneg; lia. }
  destruct (shr_fexp_fits m1 e1 loc_Exact) as (r2 & e2 & -> & Hfit); [lia |].
  destruct (shr_m r2) as [| p | p]; try discriminate.
  destruct (e2 <=? emax - prec); [| discriminate].
  intros [= <- <-]. lia.
Qed.

Lemma binary_round_fits s m e m' e' :
  binary_round prec emax s m e = S754_finite s m' e' -> Zpos m' < 2 ^ prec.
Proof.
  unfold binary_round.
  destruct (shl_align m e (fexp (Zpos (digits2_pos m) + e))) as [mz ez].
  apply round_fits. lia.
Qed.

(** Rounding an exactly known magnitude does not cross a bound that the
    format represents. *)
Lemma round_exact_upper s m e N E :
  -2200 <= e -> emin <= E -> 0 <= N < 2 ^ prec -> E + 2 * prec <= emax ->
  Zpos m * P e <= N * P E ->
  binary_round_aux prec emax s (Zpos m) e loc_Exact = S754_zero s
  \/ exists m' e',
       binary_round_aux prec emax s (Zpos m) e loc_Exact = S754_finite s m' e'
       /\ e <= e' /\ emin <= e' <= emax - prec /\ Zpos m' * P e' <= N * P E.
Proof.
  intros He HE HN Hfin Hv. unfold binary_round_aux.
  destruct (shr_fexp_spec (Zpos m) e loc_Exact) as (r & e1 & -> & Hle1 & Hf1 & Hc1 & Hm1 & Hx1);
    [lia |].
  set (m1 := round_nearest_even (shr_m r) (loc_of_shr_record r)).
  assert (Hpow : 0 < 2 ^ (e1 - e)) by (apply Z.pow_pos_nonneg; lia).
  assert (Hr0 : 0 <= shr_m r) by (rewrite Hm1; apply Z.div_pos; lia).
  pose proof (round_nearest_even_bounds (shr_m r) (loc_of_shr_record r)) as Hrne.
  fold m1 in Hrne.
  pose proof (P_pos e He) as HPe.
  assert (HNE : N * P E < P (E + prec)).
  { rewrite P_add by lia. pose proof (P_pos E ltac:(lia)). nia. }
  assert (H1 : m1 * P e1 <= N * P E).
  { destruct Hc1 as [-> | Hc1].
    - rewrite Z.sub_diag in *. rewrite Z.div_1_r in Hm1.
      assert (Hex : loc_of_shr_record r = loc_Exact).
      { apply Hx1; [reflexivity |]. apply Z.mod_1_r. }
      subst m1. rewrite Hex, Hm1. cbn [round_nearest_even]. exact Hv.
    - assert (He1E : e1 <= E).
      { rewrite Hc1. unfold SpecFloat.fexp. cbn [Zdigits2].
        pose proof (digits_scale m e He) as Hd.
        assert (P (Zpos (digits2_pos m) - 1 + e) < P (E + prec)) by lia.
        apply P_lt_inv in H; lia. }
      set (T := N * 2 ^ (E - e1)).
      assert (HT : N * P E = T * P e1).
      { replace E with (e1 + (E - e1)) at 1 by lia. rewrite P_add by lia. subst T. lia. }
      assert (HPe1 : P e1 = P e * 2 ^ (e1 - e)).
      { replace e1 with (e + (e1 - e)) at 1 by lia. apply P_add; lia. }
      assert (HmT : Zpos m <= T * 2 ^ (e1 - e)).
      { rewrite HT, HPe1 in Hv. nia. }
      assert (Hq : shr_m r <= T).
      { rewrite Hm1. apply Z.div_le_upper_bound; lia. }
      pose proof (P_pos e1 ltac:(lia)) as HPe1pos.
      destruct (Z.eq_dec (shr_m r) T) as [Heq | Hne].
      + assert (Hex : loc_of_shr_record r = loc_Exact).
        { apply Hx1; [reflexivity |].
          pose proof (Z.div_mod (Zpos m) (2 ^ (e1 - e)) ltac:(lia)) as Hdm.
          pose proof (Z.mod_pos_bound (Zpos m) (2 ^ (e1 - e)) Hpow).
          rewrite <- Hm1, Heq in Hdm. lia. }
        subst m1. rewrite Hex. cbn [round_nearest_even]. rewrite Heq, HT. lia.
      + rewrite HT. nia. }
  destruct (shr_fexp_spec m1 e1 loc_Exact) as (r2 & e2 & -> & Hle2 & Hf2 & Hc2 & Hm2 & _);
    [lia |].
  assert (H2 : 0 <= shr_m r2 /\ shr_m r2 * P e2 <= N * P E).
  { rewrite Hm2. split.
    - apply Z.div_pos; [lia |]. apply Z.pow_pos_nonneg; lia.
    - etransitivity; [| exact H1].
      replace e2 with (e1 + (e2 - e1)) at 2 by lia. apply floor_scale; lia. }
  destruct H2 as [H20 H2].
  pose proof (fexp_ge_emin (Zdigits2 m1 + e1)) as Hemin2.
  destruct (shr_m r2) as [| p | p]; [now left | right | lia].
  assert (He2 : e2 <= emax - prec).
  { pose proof (P_pos e2 ltac:(lia)).
    assert (P e2 < P (E + prec)) by nia.
    apply P_lt_inv in H0; lia. }
  apply Z.leb_le in He2. rewrite He2.
  exists p, e2. split; [reflexivity |]. repeat split; lia.
Qed.

(** What a right shift keeps of a magnitude that is at least a power of
    two the format represents. *)
Lemma shr_fexp_lower m e l b :
  0 < m -> -2200 <= e -> emin <= b -> P b <= m * P e ->
  exists r e1, shr_fexp prec emax m e l = (r, e1)
    /\ e <= e1 /\ emin <= e1 /\ P b <= shr_m r * P e1.
Proof.
  intros Hm He Hb Hv.
  destruct (shr_fexp_spec m e l) as (r & e1 & E & Hle1 & Hf1 & Hc1 & Hm1 & _); [lia |].
  exists r, e1. split; [exact E |]. split; [exact Hle1 |].
  pose proof (fexp_ge_emin (Zdigits2 m + e)). split; [lia |].
  assert (Hpow : 0 < 2 ^ (e1 - e)) by (apply Z.pow_pos_nonneg; lia).
  pose proof (P_pos e He) as HPe.
  assert (HPe1 : P e1 = P e * 2 ^ (e1 - e)).
  { replace e1 with (e + (e1 - e)) at 1 by lia. apply P_add; lia. }
  pose proof (P_pos e1 ltac:(lia)) as HPe1pos.
  destruct Hc1 as [-> | Hc1].
  - rewrite Hm1, Z.sub_diag, Z.div_1_r. exact Hv.
  - destruct (Z.le_gt_cases e1 b) as [Hle | Hgt].
    + assert (HPb : P b = P e1 * 2 ^ (b - e1)).
      { replace b with (e1 + (b - e1)) at 1 by lia. apply P_add; lia. }
      assert (0 < 2 ^ (b - e1)) by (apply Z.pow_pos_nonneg; lia).
      assert (2 ^ (b - e1) <= shr_m r).
      { rewrite Hm1. apply Z.div_le_lower_bound; [lia |].
        rewrite HPb, HPe1 in Hv. nia. }
      rewrite HPb. nia.
    + destruct m as [| p | p]; try lia. cbn [Zdigits2] in *.
      assert (Hj : e1 - e <= Zpos (digits2_pos p) - 1).
      { rewrite Hc1. unfold SpecFloat.fexp in *. lia. }
      pose proof (digits2_bounds p) as [Hlo _].
      assert (2 ^ (e1 - e) <= 2 ^ (Zpos (digits2_pos p) - 1))
        by (apply Z.pow_le_mono_r; lia).
      assert (1 <= shr_m r).
      { rewrite Hm1. apply Z.div_le_lower_bound; lia. }
      pose proof (P_le b e1 ltac:(lia) ltac:(lia)). nia.
Qed.

(** Rounding does not take a magnitude below a power of two the format
    represents. *)
Lemma round_lower s m e l b :
  -2200 <= e -> emin <= b -> P b <= Zpos m * P e ->
  binary_round_aux prec emax s (Zpos m) e l = S754_infinity s
  \/ exists m' e',
       binary_round_aux prec emax s (Zpos m) e l = S754_finite s m' e'
       /\ e <= e' /\ emin <= e' <= emax - prec /\ P b <= Zpos m' * P e'.
Proof.
  intros He Hb Hv. unfold binary_round_aux.
  destruct (shr_fexp_lower (Zpos m) e l b) as (r & e1 & -> & Hle1 & Hmin1 & H1);
    [lia | assumption.. |].
  set (m1 := round_nearest_even (shr_m r) (loc_of_shr_record r)).
  pose proof (round_nearest_even_bounds (shr_m r) (loc_of_shr_record r)) as Hrne.
  fold m1 in Hrne.
  pose proof (P_pos e1 ltac:(lia)) as HPe1.
  pose proof (P_pos b ltac:(lia)) as HPb.
  assert (Hm1 : 0 < m1 /\ P b <= m1 * P e1) by nia.
  destruct Hm1 as [Hm1 Hv1].
  destruct (shr_fexp_lower m1 e1 loc_Exact b) as (r2 & e2 & -> & Hle2 & Hmin2 & H2);
    [lia.. | assumption |].
  pose proof (P_pos e2 ltac:(lia)) as HPe2.
  destruct (shr_m r2) as [| p | p]; [lia | | nia].
  destruct (Z.leb_spec e2 (emax - prec)); [right | now left].
  exists p, e2. split; [reflexivity |]. repeat split; lia.
Qed.

(** Rounding a magnitude below a power of two, whatever is known of the
    discarded part, does not exceed that power. *)
Lemma round_crude_upper s m e l E :
  0 <= m -> -2200 <= e -> e <= E -> emin <= E -> E + prec <= emax - prec ->
  m * P e < P E ->
  binary_round_aux prec emax s m e l = S754_zero s
  \/ exists m' e',
       binary_round_aux prec emax s m e l = S754_finite s m' e'
       /\ e <= e' /\ emin <= e' <= emax - prec /\ Zpos m' * P e' <= P E.
Proof.
  intros Hm He HeE HE Hfin Hv. unfold binary_round_aux.
  destruct (shr_fexp_spec m e l) as (r & e1 & -> & Hle1 & Hf1 & Hc1 & Hm1 & _); [lia |].
  set (m1 := round_nearest_even (shr_m r) (loc_of_shr_record r)).
  pose proof (round_nearest_even_bounds (shr_m r) (loc_of_shr_record r)) as Hrne.
  fold m1 in Hrne.
  assert (Hpow : 0 < 2 ^ (e1 - e)) by (apply Z.pow_pos_nonneg; lia).
  assert (Hr0 : 0 <= shr_m r) by (rewrite Hm1; apply Z.div_pos; lia).
  pose proof (P_pos e He) as HPe.
  assert (He1E : e1 <= E).
  { destruct Hc1 as [-> | ->]; [exact HeE |]. unfold SpecFloat.fexp.
    destruct m as [| p | p]; cbn [Zdigits2]; try lia.
    pose proof (digits_scale p e He) as Hd.
    assert (P (Zpos (digits2_pos p) - 1 + e) < P E) by lia.
    apply P_lt_inv in H; lia. }
  pose proof (P_pos e1 ltac:(lia)) as HPe1.
  assert (H1 : m1 * P e1 <= P E).
  { assert (Hfl : shr_m r * P e1 <= m * P e).
    { rewrite Hm1. replace e1 with (e + (e1 - e)) at 2 by lia. apply floor_scale; lia. }
    assert (HPE : P E = P e1 * 2 ^ (E - e1)).
    { replace E with (e1 + (E - e1)) at 1 by lia. apply P_add; lia. }
    rewrite HPE in *.
    assert (shr_m r < 2 ^ (E - e1)) by nia. nia. }
  destruct (shr_fexp_spec m1 e1 loc_Exact) as (r2 & e2 & -> & Hle2 & Hf2 & Hc2 & Hm2 & _);
    [lia |].
  assert (H2 : 0 <= shr_m r2 /\ shr_m r2 * P e2 <= P E).
  { rewrite Hm2. split.
    - apply Z.div_pos; [lia |]. apply Z.pow_pos_nonneg; lia.
    - etransitivity; [| exact H1].
      replace e2 with (e1 + (e2 - e1)) at 2 by lia. apply floor_scale; lia. }
  destruct H2 as [H20 H2].
  pose proof (fexp_ge_emin (Zdigits2 m1 + e1)) as Hemin2.
  destruct (shr_m r2) as [| p | p]; [now left | right | lia].
  assert (He2 : e2 <= emax - prec).
  { pose proof (P_pos e2 ltac:(lia)).
    assert (P e2 <= P E) by nia.
    apply P_le_inv in H0; lia. }
  apply Z.leb_le in He2. rewrite He2.
  exists p, e2. split; [reflexivity |]. repeat split; lia.
Qed.

(** A non-negative mantissa never rounds to NaN, and the sign is kept. *)
Lemma round_nonneg s m e l :
  0 <= m ->
  match binary_round_aux prec emax s m e l with
  | S754_zero s' | S754_infinity s' | S754_finite s' _ _ => s' = s
  | S754_nan => False
  end.
Proof.
  intros Hm. unfold binary_round_aux.
  destruct (shr_fexp_spec m e l) as (r & e1 & -> & Hle1 & _ & _ & Hm1 & _); [lia |].
  set (m1 := round_nearest_even (shr_m r) (loc_of_shr_record r)).
  pose proof (round_nearest_even_bounds (shr_m r) (loc_of_shr_record r)) as Hrne.
  fold m1 in Hrne.
  assert (Hr0 : 0 <= shr_m r).
  { rewrite Hm1. apply Z.div_pos; [lia |]. apply Z.pow_pos_nonneg; lia. }
  destruct (shr_fexp_spec m1 e1 loc_Exact) as (r2 & e2 & -> & Hle2 & _ & _ & Hm2 & _);
    [lia |].
  assert (H20 : 0 <= shr_m r2).
  { rewrite Hm2. apply Z.div_pos; [lia |]. apply Z.pow_pos_nonneg; lia. }
  destruct (shr_m r2) as [| p | p]; [reflexivity | | lia].
  destruct (e2 <=? emax - prec); reflexivity.
Qed.

(** [binary_round] first aligns the mantissa, which keeps the value. *)
Lemma binary_round_aligned s m e :
  -2200 <= e ->
  exists mz ez,
    binary_round prec emax s m e = binary_round_aux prec emax s (Zpos mz) ez loc_Exact
    /\ -2200 <= ez /\ Zpos mz * P ez = Zpos m * P e.
Proof.
  intros He. unfold binary_round.
  destruct (shl_align_spec m e (fexp (Zpos (digits2_pos m) + e))) as (mz & -> & Hmz).
  pose proof (fexp_ge_emin (Zpos (digits2_pos m) + e)).
  set (ez := Z.min e (fexp (Zpos (digits2_pos m) + e))) in *.
  exists mz, ez. split; [reflexivity |]. split; [lia |].
  rewrite Hmz. replace e with (ez + (e - ez)) at 2 by lia.
  rewrite P_add by lia. lia.
Qed.

Lemma binary_round_upper s m e N E :
  -2200 <= e -> emin <= E -> 0 <= N < 2 ^ prec -> E + 2 * prec <= emax ->
  Zpos m * P e <= N * P E ->
  binary_round prec emax s m e = S754_zero s
  \/ exists m' e',
       binary_round prec emax s m e = S754_finite s m' e'
       /\ emin <= e' <= emax - prec /\ Zpos m' * P e' <= N * P E.
Proof.
  intros He HE HN Hfin Hv.
  destruct (binary_round_aligned s m e He) as (mz & ez & -> & Hez & Hval).
  rewrite <- Hval in Hv.
  destruct (round_exact_upper s mz ez N E Hez HE HN Hfin Hv)
    as [-> | (m' & e' & -> & _ & Hr & Hb)]; [now left | right; eauto].
Qed.

Lemma binary_round_lower s m e b :
  -2200 <= e -> emin <= b -> P b <= Zpos m * P e ->
  binary_round prec emax s m e = S754_infinity s
  \/ exists m' e',
       binary_round prec emax s m e = S754_finite s m' e'
       /\ emin <= e' <= emax - prec /\ P b <= Zpos m' * P e'.
Proof.
  intros He Hb Hv.
  destruct (binary_round_aligned s m e He) as (mz & ez & -> & Hez & Hval).
  rewrite <- Hval in Hv.
  destruct (round_lower s mz ez loc_Exact b Hez Hb Hv)
    as [-> | (m' & e' & -> & _ & Hr & Hb')]; [now left | right; eauto].
Qed.

(** From an exponent the format has, [binary_round] yields an infinity or
    a finite value of the given sign, never a zero. *)
Lemma binary_round_cases s m e :
  emin <= e ->
  binary_round prec emax s m e = S754_infinity s
  \/ exists m' e', binary_round prec emax s m e = S754_finite s m' e'
                   /\ emin <= e' <= emax - prec /\ P e <= Zpos m' * P e'.
Proof.
  intros He.
  apply binary_round_lower; [lia | exact He |].
  pose proof (P_pos e ltac:(lia)). nia.
Qed.

End Rounding.
(** ** Magnitudes of binary64 values *)

Lemma prec_pos : 0 < prec.
Proof. reflexivity. Qed.

Lemma emin_low : -2200 <= SpecFloat.emin prec emax.
Proof. unfold SpecFloat.emin, prec, emax. lia. Qed.

(** [|x| <= N * 2^E], and [x] is finite. *)
Definition mag_le (x : float) (N E : Z) : Prop :=
  match Prim2SF x with
  | S754_zero _ => True
  | S754_finite _ m e => Zpos m * P e <= N * P E
  | _ => False
  end.

(** [x] is finite and [2^b <= |x|]. *)
Definition mag_ge (x : float) (b : Z) : Prop :=
  match Prim2SF x with
  | S754_finite _ m e => P b <= Zpos m * P e
  | _ => False
  end.

(** [2^b <= x], possibly [+Infinity]. *)
Definition pos_ge (x : float) (b : Z) : Prop :=
  match Prim2SF x with
  | S754_infinity false => True
  | S754_finite false m e => P b <= Zpos m * P e
  | _ => False
  end.

(** [x] is a zero, a positive number or [+Infinity]. *)
Definition nonneg (x : float) : Prop :=
  match Prim2SF x with
  | S754_nan => False
  | S754_zero _ => True
  | S754_infinity s | S754_finite s _ _ => s = false
  end.

(** [x] is a positive finite number. *)
Definition pos_finite (x : float) : Prop :=
  match Prim2SF x with
  | S754_finite false _ _ => True
  | _ => False
  end.

Ltac spec_of x :=
  let V := fresh "V" in
  pose proof (FloatAxioms.Prim2SF_valid x) as V;
  destruct (Prim2SF x) as [? | ? | | ? ? ?];
  cbn [valid_binary] in V; try apply bounded_cases in V.

Lemma scale_mul_le a e b f N1 E1 N2 E2 :
  0 <= a -> 0 <= b -> 0 <= N1 -> 0 <= N2 ->
  -1100 <= e -> -1100 <= f -> -1100 <= E1 -> -1100 <= E2 ->
  a * P e <= N1 * P E1 -> b * P f <= N2 * P E2 ->
  a * b * P (e + f) <= N1 * N2 * P (E1 + E2).
Proof.
  intros Ha Hb HN1 HN2 He Hf HE1 HE2 H1 H2.
  pose proof (P_pos 0 ltac:(lia)) as H0.
  pose proof (P_pos e ltac:(lia)). pose proof (P_pos f ltac:(lia)).
  pose proof (P_pos E1 ltac:(lia)). pose proof (P_pos E2 ltac:(lia)).
  apply (Z.mul_le_mono_pos_r _ _ (P 0) H0).
  replace (a * b * P (e + f) * P 0) with ((a * P e) * (b * P f))
    by (rewrite <- (Z.mul_assoc (a * b)), <- P_mul by lia; ring).
  replace (N1 * N2 * P (E1 + E2) * P 0) with ((N1 * P E1) * (N2 * P E2))
    by (rewrite <- (Z.mul_assoc (N1 * N2)), <- P_mul by lia; ring).
  apply Z.mul_le_mono_nonneg; nia.
Qed.

Lemma scale_mul_ge a e b f b1 b2 :
  0 <= a -> 0 <= b ->
  -1100 <= e -> -1100 <= f -> -1100 <= b1 -> -1100 <= b2 ->
  P b1 <= a * P e -> P b2 <= b * P f ->
  P (b1 + b2) <= a * b * P (e + f).
Proof.
  intros Ha Hb He Hf Hb1 Hb2 H1 H2.
  pose proof (P_pos 0 ltac:(lia)) as H0.
  pose proof (P_pos b1 ltac:(lia)). pose proof (P_pos b2 ltac:(lia)).
  apply (Z.mul_le_mono_pos_r _ _ (P 0) H0).
  replace (a * b * P (e + f) * P 0) with ((a * P e) * (b * P f))
    by (rewrite <- (Z.mul_assoc (a * b)), <- P_mul by lia; ring).
  rewrite <- P_mul by lia.
  apply Z.mul_le_mono_nonneg; lia.
Qed.

(** *** Products *)

Lemma mul_mag_le x y N1 E1 N2 E2 :
  mag_le x N1 E1 -> mag_le y N2 E2 ->
  0 <= N1 -> 0 <= N2 -> N1 * N2 < 2 ^ 53 ->
  -1100 <= E1 -> -1100 <= E2 -> -1074 <= E1 + E2 <= 918 ->
  mag_le (x * y) (N1 * N2) (E1 + E2).
Proof.
  unfold mag_le. rewrite FloatAxioms.mul_spec. unfold SF64mul.
  spec_of x; spec_of y; cbn [SFmul]; try contradiction; try (intros; exact I).
  intros H1 H2 HN1 HN2 HN HE1 HE2 HE.
  destruct (round_exact_upper prec emax prec_pos emin_low (xorb s s0) (m * m0) (e + e0)
              (N1 * N2) (E1 + E2)) as [-> | (m' & e' & -> & _ & _ & Hb)].
  - lia.
  - unfold SpecFloat.emin, prec, emax. lia.
  - change (2 ^ prec) with (2 ^ 53). nia.
  - unfold prec, emax. lia.
  - rewrite Pos2Z.inj_mul. apply scale_mul_le; lia.
  - exact I.
  - exact Hb.
Qed.

Lemma mul_pos_ge x y b1 b2 :
  pos_ge x b1 -> pos_ge y b2 ->
  -1100 <= b1 -> -1100 <= b2 -> -1074 <= b1 + b2 ->
  pos_ge (x * y) (b1 + b2).
Proof.
  unfold pos_ge. rewrite FloatAxioms.mul_spec. unfold SF64mul.
  spec_of x; spec_of y; cbn [SFmul]; try contradiction;
    repeat match goal with s : bool |- _ => destruct s end;
    cbn [xorb]; try contradiction; try (intros; exact I).
  intros H1 H2 Hb1 Hb2 Hb.
  destruct (round_lower prec emax prec_pos emin_low false (m * m0) (e + e0) loc_Exact
              (b1 + b2)) as [-> | (m' & e' & -> & _ & _ & Hr)].
  - lia.
  - unfold SpecFloat.emin, prec, emax. lia.
  - rewrite Pos2Z.inj_mul. apply scale_mul_ge; lia.
  - exact I.
  - exact Hr.
Qed.

(** A square of a non-zero finite number. *)
Lemma square_pos_ge x b :
  mag_ge x b -> -537 <= b -> pos_ge (x * x) (b + b).
Proof.
  unfold mag_ge, pos_ge. rewrite FloatAxioms.mul_spec. unfold SF64mul.
  spec_of x; cbn [SFmul]; try contradiction.
  intros H1 Hb. rewrite xorb_nilpotent.
  destruct (round_lower prec emax prec_pos emin_low false (m * m) (e + e) loc_Exact
              (b + b)) as [-> | (m' & e' & -> & _ & _ & Hr)].
  - lia.
  - unfold SpecFloat.emin, prec, emax. lia.
  - rewrite Pos2Z.inj_mul. apply scale_mul_ge; lia.
  - exact I.
  - exact Hr.
Qed.

Lemma square_zero x :
  (exists s, Prim2SF x = S754_zero s) -> Prim2SF (x * x) = S754_zero false.
Proof.
  intros [s E]. rewrite FloatAxioms.mul_spec, E. destruct s; reflexivity.
Qed.

Lemma nonneg_mul_pos x y : nonneg x -> pos_finite y -> nonneg (x * y).
Proof.
  unfold nonneg, pos_finite. rewrite FloatAxioms.mul_spec. unfold SF64mul.
  spec_of x; spec_of y; cbn [SFmul]; try contradiction;
    repeat match goal with s : bool |- _ => destruct s end;
    cbn [xorb]; try contradiction; try discriminate; try (intros; exact I);
    try (intros; reflexivity).
  intros _ _.
  pose proof (round_nonneg prec emax false (Zpos (m * m0)) (e + e0) loc_Exact ltac:(lia)) as H.
  destruct (binary_round_aux _ _ _ _ _ _); auto.
Qed.

(** *** Sums *)

(** The two aligned mantissas of a sum, at the smaller exponent. *)
Lemma aligned_scale m e ez :
  -1074 <= ez -> ez <= e -> aligned m e ez * P ez = Zpos m * P e.
Proof.
  intros Hez Hle. rewrite aligned_pow by lia.
  replace e with (ez + (e - ez)) at 2 by lia. rewrite P_add by lia. lia.
Qed.

Lemma aligned_pos m e ez : 0 < aligned m e ez.
Proof. unfold aligned. lia. Qed.

Lemma add_mag_le x y N1 N2 E :
  mag_le x N1 E -> mag_le y N2 E ->
  0 <= N1 -> 0 <= N2 -> N1 + N2 < 2 ^ 53 -> -1074 <= E <= 918 ->
  mag_le (x + y) (N1 + N2) E.
Proof.
  unfold mag_le. rewrite FloatAxioms.add_spec. unfold SF64add.
  spec_of x; spec_of y; cbn [SFadd]; try contradiction.
  - intros. destruct s, s0; exact I.
  - intros _ H2 HN1 HN2 _ HE. pose proof (P_pos E ltac:(lia)). nia.
  - intros H1 _ HN1 HN2 _ HE. pose proof (P_pos E ltac:(lia)). nia.
  - intros H1 H2 HN1 HN2 HN HE.
    fold (aligned m e (Z.min e e0)). fold (aligned m0 e0 (Z.min e e0)).
    set (ez := Z.min e e0).
    pose proof (aligned_scale m e ez ltac:(lia) ltac:(lia)) as Ha.
    pose proof (aligned_scale m0 e0 ez ltac:(lia) ltac:(lia)) as Hb.
    pose proof (aligned_pos m e ez). pose proof (aligned_pos m0 e0 ez).
    pose proof (P_pos ez ltac:(lia)) as HP.
    set (D := cond_Zopp s (aligned m e ez) + cond_Zopp s0 (aligned m0 e0 ez)).
    assert (HD : Z.abs D <= aligned m e ez + aligned m0 e0 ez).
    { subst D. destruct s, s0; cbn [cond_Zopp]; lia. }
    assert (Hval : Z.abs D * P ez <= (N1 + N2) * P E) by nia.
    destruct D as [| p | p]; cbn [binary_normalize]; [exact I | |].
    + destruct (binary_round_upper prec emax prec_pos emin_low false p ez (N1 + N2) E)
        as [-> | (m' & e' & -> & _ & Hr)]; try exact I; try exact Hr.
      * lia.
      * unfold SpecFloat.emin, prec, emax. lia.
      * change (2 ^ prec) with (2 ^ 53). lia.
      * unfold prec, emax. lia.
      * exact Hval.
    + destruct (binary_round_upper prec emax prec_pos emin_low true p ez (N1 + N2) E)
        as [-> | (m' & e' & -> & _ & Hr)]; try exact I; try exact Hr.
      * lia.
      * unfold SpecFloat.emin, prec, emax. lia.
      * change (2 ^ prec) with (2 ^ 53). lia.
      * unfold prec, emax. lia.
      * exact Hval.
Qed.

(** The sum of two positive finite numbers. *)
Lemma add_pos_finite (m : positive) e (m0 : positive) e0 b :
  -1074 <= e -> -1074 <= e0 -> -1074 <= b ->
  P b <= Zpos m * P e \/ P b <= Zpos m0 * P e0 \/ b = -1074 ->
  match SFadd prec emax (S754_finite false m e) (S754_finite false m0 e0) with
  | S754_infinity false => True
  | S754_finite false m' e' => P b <= Zpos m' * P e'
  | _ => False
  end.
Proof.
  intros He He0 Hb Hv. cbn [SFadd cond_Zopp].
  fold (aligned m e (Z.min e e0)). fold (aligned m0 e0 (Z.min e e0)).
  set (ez := Z.min e e0).
  pose proof (aligned_scale m e ez ltac:(lia) ltac:(lia)) as Ha.
  pose proof (aligned_scale m0 e0 ez ltac:(lia) ltac:(lia)) as Hb'.
  pose proof (aligned_pos m e ez). pose proof (aligned_pos m0 e0 ez).
  pose proof (P_pos ez ltac:(lia)) as HP.
  destruct (aligned m e ez + aligned m0 e0 ez) as [| p | p] eqn:ED; try lia.
  cbn [binary_normalize].
  destruct (binary_round_lower prec emax prec_pos emin_low false p ez b)
    as [-> | (m' & e' & -> & _ & Hr)]; try exact I; try exact Hr.
  - lia.
  - unfold SpecFloat.emin, prec, emax. lia.
  - destruct Hv as [Hv | [Hv | ->]]; [nia | nia |].
    pose proof (P_le (-1074) ez ltac:(lia) ltac:(lia)). nia.
Qed.

Lemma add_pos_ge_l x y b :
  pos_ge x b -> nonneg y -> -1074 <= b -> pos_ge (x + y) b.
Proof.
  unfold pos_ge, nonneg. rewrite FloatAxioms.add_spec. unfold SF64add.
  spec_of x; spec_of y;
    repeat match goal with s : bool |- _ => destruct s end;
    try contradiction; try discriminate; try (intros; exact I);
    try (cbn [SFadd]; intros; assumption).
  intros H1 _ Hb. apply add_pos_finite; lia || auto.
Qed.

Lemma add_pos_ge_r x y b :
  nonneg x -> pos_ge y b -> -1074 <= b -> pos_ge (x + y) b.
Proof.
  unfold pos_ge, nonneg. rewrite FloatAxioms.add_spec. unfold SF64add.
  spec_of x; spec_of y;
    repeat match goal with s : bool |- _ => destruct s end;
    try contradiction; try discriminate; try (intros; exact I);
    try (cbn [SFadd]; intros; assumption).
  intros _ H1 Hb. apply add_pos_finite; lia || auto.
Qed.

Lemma add_nonneg x y : nonneg x -> nonneg y -> nonneg (x + y).
Proof.
  unfold nonneg. rewrite FloatAxioms.add_spec. unfold SF64add.
  spec_of x; spec_of y;
    repeat match goal with s : bool |- _ => destruct s end;
    try contradiction; try discriminate; try (intros; exact I);
    try (cbn [SFadd]; intros; reflexivity).
  intros _ _.
  pose proof (add_pos_finite m e m0 e0 (-1074) ltac:(lia) ltac:(lia) ltac:(lia)
                ltac:(auto)) as H.
  destruct (SFadd prec emax _ _) as [| [] | | [] ? ?]; try contradiction; reflexivity.
Qed.

Lemma nonneg_number x : nonneg x -> is_number x = true.
Proof.
  unfold nonneg. intros H. apply is_number_spec. intros E. now rewrite E in H.
Qed.

(** A finite number added to a number that is not negative gives a
    number. *)
Lemma add_number x y N E : nonneg x -> mag_le y N E -> is_number (x + y) = true.
Proof.
  unfold nonneg, mag_le. intros Hx Hy. apply is_number_spec.
  rewrite FloatAxioms.add_spec. unfold SF64add.
  spec_of x; spec_of y; try contradiction; subst; cbn [SFadd]; try discriminate;
    try (destruct s, s0; discriminate).
  set (D := _ + _). destruct D as [| p | p]; cbn [binary_normalize]; [discriminate | |].
  - destruct (binary_round_cases prec emax prec_pos emin_low false p (Z.min e e0))
      as [-> | (m' & e' & -> & _)]; try discriminate.
    unfold SpecFloat.emin, prec, emax. lia.
  - destruct (binary_round_cases prec emax prec_pos emin_low true p (Z.min e e0))
      as [-> | (m' & e' & -> & _)]; try discriminate.
    unfold SpecFloat.emin, prec, emax. lia.
Qed.

(** *** Quotients *)

Lemma shifted_mantissa (m : positive) s :
  0 <= s ->
  match s with
  | Zpos _ => Z.shiftl (Zpos m) s
  | Z0 => Zpos m
  | Zneg _ => 0
  end = Zpos m * 2 ^ s.
Proof.
  intros Hs. destruct s as [| p | p]; [lia | | lia].
  rewrite Z.shiftl_mul_pow2 by lia. reflexivity.
Qed.

Lemma SFdiv_finite_le sx (mx : positive) ex sy (my : positive) ey N E b j :
  -1074 <= ex <= 971 -> -1074 <= ey <= 971 ->
  Zpos mx * P ex <= N * P E -> P b <= Zpos my * P ey ->
  0 <= N < 2 ^ j -> 0 <= j ->
  -1100 <= E <= 1100 -> -1100 <= b <= 1100 -> -1074 <= E - b + j <= 918 ->
  match SFdiv prec emax (S754_finite sx mx ex) (S754_finite sy my ey) with
  | S754_zero _ => True
  | S754_finite _ m' e' => Zpos m' * P e' <= 1 * P (E - b + j)
  | _ => False
  end.
Proof.
  intros Hex Hey H1 H2 HN Hj HE Hb HE'.
  cbn [SFdiv]. unfold SFdiv_core_binary. cbn [Zdigits2].
  set (e' := Z.min (fexp prec emax (Zpos (digits2_pos mx) + ex
                                     - (Zpos (digits2_pos my) + ey))) (ex - ey)).
  assert (Hs : 0 <= ex - ey - e') by lia.
  rewrite (shifted_mantissa mx (ex - ey - e') Hs).
  pose proof (Z_div_mod (Zpos mx * 2 ^ (ex - ey - e')) (Zpos my) ltac:(lia)) as Hdm.
  destruct (Z.div_eucl (Zpos mx * 2 ^ (ex - ey - e')) (Zpos my)) as [q r].
  destruct Hdm as [Hdm Hr].
  assert (Hpow : 0 < 2 ^ (ex - ey - e')) by (apply Z.pow_pos_nonneg; lia).
  assert (Hq : 0 <= q) by nia.
  assert (He'lo : -2200 <= e').
  { subst e'. unfold SpecFloat.fexp, SpecFloat.emin, prec, emax. lia. }
  pose proof (P_pos e' He'lo) as HPe'.
  pose proof (P_pos b ltac:(lia)) as HPb.
  pose proof (P_pos 0 ltac:(lia)) as HP0.
  pose proof (P_pos (E - b) ltac:(lia)) as HPEb.
  pose proof (P_pos ey ltac:(lia)) as HPey.
  pose proof (P_pos E ltac:(lia)) as HPE.
  assert (Hval : q * P e' <= N * P (E - b)).
  { apply (Z.mul_le_mono_pos_r _ _ (P b) HPb).
    apply (Z.mul_le_mono_pos_r _ _ (P 0) HP0).
    assert (E1 : N * P (E - b) * P b * P 0 = N * P E * P 0 * P 0).
    { assert (Hm : P (E - b) * P b = P E * P 0).
      { rewrite P_mul by lia. replace (E - b + b) with E by lia. reflexivity. }
      transitivity (N * (P (E - b) * P b) * P 0); [ring | rewrite Hm; ring]. }
    assert (E2 : Zpos mx * 2 ^ (ex - ey - e') * P e' * P ey = Zpos mx * P ex * P 0).
    { assert (Hm : P (ex - ey) * P ey = P ex * P 0).
      { rewrite P_mul by lia. replace (ex - ey + ey) with ex by lia. reflexivity. }
      assert (Ha : P (ex - ey) = P e' * 2 ^ (ex - ey - e')).
      { replace (ex - ey) with (e' + (ex - ey - e')) at 1 by lia. apply P_add; lia. }
      transitivity (Zpos mx * (P (ex - ey) * P ey)); [rewrite Ha; ring | rewrite Hm; ring]. }
    assert (Hstep : q * Zpos my * P e' * P ey <= Zpos mx * P ex * P 0).
    { rewrite <- E2.
      apply Z.mul_le_mono_nonneg_r; [lia |].
      apply Z.mul_le_mono_nonneg_r; [lia |]. lia. }
    assert (Hstep2 : q * P e' * P b <= q * P e' * (Zpos my * P ey)).
    { apply Z.mul_le_mono_nonneg_l; [nia | exact H2]. }
    rewrite E1.
    assert (Zpos mx * P ex * P 0 <= N * P E * P 0)
      by (apply Z.mul_le_mono_nonneg_r; lia).
    assert (q * P e' * P b <= N * P E * P 0) by lia.
    apply Z.mul_le_mono_nonneg_r; lia. }
  assert (Hlt : q * P e' < P (E - b + j)).
  { rewrite P_add by lia. nia. }
  assert (He'E : e' <= E - b + j).
  { pose proof (digits_scale mx ex ltac:(lia)) as Hd1.
    pose proof (digits2_bounds my) as [_ Hd2].
    assert (Hx1 : P (Zpos (digits2_pos mx) - 1 + ex) < P (E + j)).
    { rewrite (P_add E j) by lia. nia. }
    apply P_lt_inv in Hx1; try lia.
    assert (Hx2 : P b < P (ey + Zpos (digits2_pos my))).
    { rewrite (P_add ey) by lia. nia. }
    apply P_lt_inv in Hx2; try lia.
    subst e'. unfold SpecFloat.fexp, SpecFloat.emin, prec, emax. lia. }
  destruct (round_crude_upper prec emax prec_pos emin_low (xorb sx sy) q e'
              (new_location (Zpos my) r) (E - b + j))
    as [-> | (m' & e2 & -> & _ & _ & Hres)]; try exact I; try lia.
  - unfold SpecFloat.emin, prec, emax. lia.
  - unfold prec, emax. lia.
Qed.

Lemma div_mag_le x y N E b j :
  mag_le x N E -> pos_ge y b ->
  0 <= N < 2 ^ j -> 0 <= j ->
  -1100 <= E <= 1100 -> -1100 <= b <= 1100 -> -1074 <= E - b + j <= 918 ->
  mag_le (x / y) 1 (E - b + j).
Proof.
  unfold mag_le, pos_ge. rewrite FloatAxioms.div_spec. unfold SF64div.
  spec_of x; spec_of y; try contradiction;
    try (destruct s0; try contradiction; intros; exact I).
  intros H1 H2. destruct s0; [contradiction |]. intros.
  apply SFdiv_finite_le with (N := N) (E := E); auto; lia.
Qed.

Lemma nonneg_div x y : nonneg x -> pos_finite y -> nonneg (x / y).
Proof.
  unfold nonneg, pos_finite. rewrite FloatAxioms.div_spec. unfold SF64div.
  spec_of x; spec_of y; try contradiction;
    repeat match goal with s : bool |- _ => destruct s end;
    try contradiction; try discriminate; try (intros; exact I);
    try (intros; reflexivity).
  intros _ _. cbn [SFdiv xorb]. unfold SFdiv_core_binary. cbn [Zdigits2].
  set (e' := Z.min _ _).
  assert (Hs : 0 <= e - e0 - e') by lia.
  rewrite (shifted_mantissa m (e - e0 - e') Hs).
  pose proof (Z_div_mod (Zpos m * 2 ^ (e - e0 - e')) (Zpos m0) ltac:(lia)) as Hdm.
  destruct (Z.div_eucl (Zpos m * 2 ^ (e - e0 - e')) (Zpos m0)) as [q r].
  destruct Hdm as [Hdm Hr].
  assert (Hpow : 0 < 2 ^ (e - e0 - e')) by (apply Z.pow_pos_nonneg; lia).
  assert (Hq : 0 <= q) by nia.
  pose proof (round_nonneg prec emax false q e' (new_location (Zpos m0) r) Hq) as H.
  destruct (binary_round_aux _ _ _ _ _ _); auto.
Qed.

(** *** Square roots *)

Lemma sqrt_pos_ge x b :
  pos_ge x (b + b) -> -537 <= b <= 500 -> pos_ge (sqrt x) b.
Proof.
  unfold pos_ge. rewrite FloatAxioms.sqrt_spec. unfold SF64sqrt.
  spec_of x; try contradiction; destruct s; try contradiction; [intros; exact I |].
  intros Hv Hb. destruct V as (He & Hd & _).
  cbn [SFsqrt]. unfold SFsqrt_core_binary. cbn [Zdigits2].
  set (e' := Z.min (fexp prec emax (Z.div2 (Zpos (digits2_pos m) + e + 1))) (Z.div2 e)).
  assert (He' : -1074 <= e' /\ 2 * e' <= e).
  { subst e'. rewrite !Z.div2_div. unfold fexp, SpecFloat.emin, prec, emax.
    pose proof (Z.mul_div_le e 2 ltac:(lia)).
    pose proof (Z.mul_succ_div_gt e 2 ltac:(lia)).
    lia. }
  assert (Hs : 0 <= e - 2 * e') by lia.
  rewrite (shifted_mantissa m (e - 2 * e') Hs).
  assert (Hpow : 0 < 2 ^ (e - 2 * e')) by (apply Z.pow_pos_nonneg; lia).
  set (mm := Zpos m * 2 ^ (e - 2 * e')).
  assert (Hmm : 1 <= mm) by (subst mm; nia).
  pose proof (Z.sqrtrem_spec mm ltac:(lia)) as Hsq.
  destruct (Z.sqrtrem mm) as [q r]. destruct Hsq as [Hsq Hr].
  assert (Hq : 1 <= q) by nia.
  pose proof (P_pos e' ltac:(lia)) as HPe'.
  pose proof (P_pos (2 * e') ltac:(lia)) as HP2e'.
  assert (HPe : P e = P (2 * e') * 2 ^ (e - 2 * e')).
  { replace e with (2 * e' + (e - 2 * e')) at 1 by lia. apply P_add; lia. }
  assert (Hval : P (b + b) <= mm * P (2 * e')).
  { subst mm. rewrite HPe in Hv. lia. }
  assert (Hres : P b <= q * P e').
  { destruct (Z.le_gt_cases e' b) as [Hle | Hgt].
    - set (T := 2 ^ (b - e')).
      assert (HT : 0 < T) by (apply Z.pow_pos_nonneg; lia).
      assert (HPb : P b = P e' * T).
      { replace b with (e' + (b - e')) at 1 by lia. apply P_add; lia. }
      assert (HPbb : P (b + b) = P (2 * e') * (T * T)).
      { replace (b + b) with (2 * e' + ((b - e') + (b - e'))) by lia.
        rewrite P_add by lia. rewrite Z.pow_add_r by lia. reflexivity. }
      rewrite HPbb in Hval.
      assert (T * T <= mm) by nia.
      assert (T <= q) by nia.
      rewrite HPb. nia.
    - pose proof (P_le b e' ltac:(lia) ltac:(lia)). nia. }
  destruct q as [| p | p]; try lia.
  match goal with
  | |- context [binary_round_aux prec emax false (Zpos p) e' ?l] =>
      destruct (round_lower prec emax prec_pos emin_low false p e' l b)
        as [-> | (m' & e2 & -> & _ & _ & Hfin)]
  end; try exact I; try assumption; try lia.
  unfold SpecFloat.emin, prec, emax. lia.
Qed.

(** *** Comparisons and constants *)

Lemma leb_zero_nonneg x : (0 <=? x)%float = true -> nonneg x.
Proof.
  unfold nonneg. rewrite FloatAxioms.leb_spec. change (Prim2SF 0) with (S754_zero false).
  destruct (Prim2SF x) as [| [] | | [] ? ?]; cbn; try discriminate; auto.
Qed.

Lemma nonneg_ltb x y : nonneg x -> (x <? y)%float = true -> nonneg y.
Proof.
  unfold nonneg. rewrite FloatAxioms.ltb_spec. unfold SFltb.
  destruct (Prim2SF x) as [| [] | | [] ? ?], (Prim2SF y) as [| [] | | [] ? ?];
    cbn [SFcompare]; try discriminate; try contradiction; auto.
Qed.

Lemma nonneg_zero : nonneg 0.
Proof. exact I. Qed.

Lemma mag_le_zero N E : mag_le 0 N E.
Proof. exact I. Qed.

(** A positive count is a positive finite number. *)
Lemma ofNat_pos_finite n :
  (0 < n)%nat -> Z.of_nat n < 2 ^ 63 -> pos_finite (JS.ofNat n).
Proof.
  intros Hn Hlt. unfold JS.ofNat, JS.ofZ, pos_finite.
  destruct (Z.of_nat n) as [| p | p] eqn:E; try lia.
  rewrite FloatAxioms.of_uint63_spec, Uint63.of_Z_spec.
  rewrite Z.mod_small by (change Uint63.wB with (2 ^ 63); lia).
  cbn [binary_normalize].
  destruct (binary_round_upper prec emax prec_pos emin_low false p 0 1 63)
    as [Hz | (m' & e' & -> & _)]; try exact I.
  - lia.
  - unfold SpecFloat.emin, prec, emax. lia.
  - change (2 ^ prec) with (2 ^ 53). lia.
  - unfold prec, emax. lia.
  - assert (HP : P 63 = P 0 * 2 ^ 63) by (apply (P_add 0 63); lia).
    rewrite HP. pose proof (P_pos 0 ltac:(lia)). nia.
  - destruct (binary_round_cases prec emax prec_pos emin_low false p 0)
      as [Hi | (m' & e' & Hf & _)]; [unfold SpecFloat.emin, prec, emax; lia | |];
      congruence.
Qed.

End FloatBounds.

(* ===================================================================== *)
(** * Bounds on the scores *)
(* ===================================================================== *)

Module ScoreBounds.
Import JS Similarity SimilarityFacts FloatFacts FloatBounds.
Local Open Scope Z_scope.

Definition is_zero (x : float) : Prop := exists s, Prim2SF x = S754_zero s.

(** An entry of an embedding: zero, or a number of magnitude between
    [2^-149] (the least positive binary32 value) and [1.5]. *)
Definition small (v : float) : Prop :=
  mag_le v 3 (-1) /\ (is_zero v \/ mag_ge v (-149)).

(** A sum of squares: zero, or at least [2^b]. *)
Definition zero_or_ge (n : float) (b : Z) : Prop := is_zero n \/ pos_ge n b.

Lemma mag_le_mono x N N' E : -2200 <= E -> mag_le x N E -> N <= N' -> mag_le x N' E.
Proof.
  unfold mag_le. intros HE H HN. destruct (Prim2SF x); auto.
  pose proof (P_pos E HE). nia.
Qed.

Lemma pos_ge_nonneg x b : pos_ge x b -> nonneg x.
Proof.
  unfold pos_ge, nonneg.
  destruct (Prim2SF x) as [| [] | | [] ? ?]; intros H; try contradiction; auto.
Qed.

Lemma is_zero_nonneg x : is_zero x -> nonneg x.
Proof. unfold nonneg. intros [s ->]. exact I. Qed.

Lemma zero_or_ge_nonneg n b : zero_or_ge n b -> nonneg n.
Proof. intros [H | H]; [now apply is_zero_nonneg | eapply pos_ge_nonneg, H]. Qed.

Lemma add_zero_zero x y : is_zero x -> is_zero y -> is_zero (x + y).
Proof.
  intros [s Hx] [s' Hy]. unfold is_zero.
  rewrite FloatAxioms.add_spec, Hx, Hy. destruct s, s'; cbn; eauto.
Qed.

Lemma is_zero_eqb x : is_zero x -> (x =? 0)%float = true.
Proof.
  intros [s Hx]. rewrite FloatAxioms.eqb_spec, Hx. destruct s; reflexivity.
Qed.

Lemma square_small v : small v -> zero_or_ge (v * v) (-298).
Proof.
  intros [_ [Hz | Hg]].
  - left. exists false. now apply square_zero.
  - right. change (-298) with (-149 + -149). apply square_pos_ge; [exact Hg | lia].
Qed.

Lemma norm_step n v :
  zero_or_ge n (-298) -> small v -> zero_or_ge (n + v * v) (-298).
Proof.
  intros Hn Hv. destruct (square_small v Hv) as [Hz | Hg].
  - destruct Hn as [Hn | Hn].
    + left. now apply add_zero_zero.
    + right. apply add_pos_ge_l; [exact Hn | now apply is_zero_nonneg | lia].
  - right. apply add_pos_ge_r; [eapply zero_or_ge_nonneg, Hn | exact Hg | lia].
Qed.

Lemma norm_bound u : forall n,
  zero_or_ge n (-298) -> Forall small u -> zero_or_ge (dot_from n u u) (-298).
Proof.
  induction u as [| x u IH]; intros n Hn Hu; [exact Hn |].
  apply Forall_cons in Hu as [Hx Hu]. unfold dot_from. cbn [combine fold_left fst snd].
  apply IH; [| exact Hu]. now apply norm_step.
Qed.

Lemma product_small x y : small x -> small y -> mag_le (x * y) 9 (-2).
Proof.
  intros [Hx _] [Hy _].
  change 9 with (3 * 3). change (-2) with (-1 + -1).
  apply mul_mag_le; auto; lia.
Qed.

Lemma dot_bound u : forall v d N,
  mag_le d N (-2) -> 0 <= N -> Forall small u -> Forall small v ->
  N + 9 * Z.of_nat (length u) < 2 ^ 53 ->
  mag_le (dot_from d u v) (N + 9 * Z.of_nat (length u)) (-2).
Proof.
  induction u as [| x u IH]; intros v d N Hd HN Hu Hv Hlen.
  - cbn. eapply mag_le_mono; [lia | exact Hd | lia].
  - destruct v as [| y v].
    + cbn [dot_from combine fold_left]. eapply mag_le_mono; [lia | exact Hd | lia].
    + apply Forall_cons in Hu as [Hx Hu]. apply Forall_cons in Hv as [Hy Hv].
      unfold dot_from. cbn [combine fold_left fst snd].
      cbn [length] in *. rewrite Nat2Z.inj_succ in *.
      replace (N + 9 * Z.succ (Z.of_nat (length u)))
        with (N + 9 + 9 * Z.of_nat (length u)) by lia.
      apply IH; auto; try lia.
      apply add_mag_le; auto; try lia. now apply product_small.
Qed.

(** On vectors of small entries the similarity is a finite number. *)
Lemma cosine_finite a b :
  Forall small a -> Forall small b ->
  (Nat.min (length a) (length b) <= 768)%nat ->
  mag_le (cosineSimilarity a b) 1 309.
Proof.
  intros Ha Hb Hlen. unfold cosineSimilarity, cosine_branch.
  rewrite cosine_sums_prefix. cbv zeta.
  set (n := Nat.min (length a) (length b)) in *.
  assert (Ha' : Forall small (firstn n a)) by now apply Forall_take.
  assert (Hb' : Forall small (firstn n b)) by now apply Forall_take.
  set (a' := firstn n a) in *. set (b' := firstn n b) in *.
  change (dot_product a' a') with (dot_from 0 a' a').
  change (dot_product b' b') with (dot_from 0 b' b').
  change (dot_product a' b') with (dot_from 0 a' b').
  destruct (strict_eq (dot_from 0 a' a') 0 || strict_eq (dot_from 0 b' b') 0) eqn:Hz;
    [exact I |].
  apply orb_false_iff in Hz as [HzA HzB]. unfold strict_eq in HzA, HzB.
  assert (HnA : pos_ge (dot_from 0 a' a') (-298)).
  { destruct (norm_bound a' 0) as [Hzero | Hge]; auto.
    - left. now exists false.
    - apply is_zero_eqb in Hzero. congruence. }
  assert (HnB : pos_ge (dot_from 0 b' b') (-298)).
  { destruct (norm_bound b' 0) as [Hzero | Hge]; auto.
    - left. now exists false.
    - apply is_zero_eqb in Hzero. congruence. }
  assert (Hden : pos_ge (sqrt (dot_from 0 a' a') * sqrt (dot_from 0 b' b')) (-149 + -149)).
  { apply mul_pos_ge; try lia; apply sqrt_pos_ge; try lia; assumption. }
  assert (Hla : (length a' <= 768)%nat).
  { subst a'. rewrite length_firstn. lia. }
  assert (Hdot : mag_le (dot_from 0 a' b') (0 + 9 * Z.of_nat (length a')) (-2)).
  { apply dot_bound; auto; try lia. exact I. }
  change 309 with (-2 - (-149 + -149) + 13).
  eapply div_mag_le; [exact Hdot | exact Hden | | | | |]; try lia.
Qed.

(** ** The late-interaction score *)

Lemma max_sim_nonneg qEmb docs imp : nonneg (ColBERTEngine.max_sim qEmb docs imp).
Proof.
  unfold ColBERTEngine.max_sim.
  generalize (combine (seq 0 (length docs)) docs). intros l.
  assert (H : nonneg 0) by exact I. revert H. generalize 0%float.
  induction l as [| d l IH]; intros acc Hacc; [exact Hacc |].
  cbn [fold_left]. apply IH. unfold gt.
  destruct (acc <? _)%float eqn:E; [| exact Hacc].
  eapply nonneg_ltb; [exact Hacc | exact E].
Qed.

Lemma split_ws_aux_length t : forall cur,
  (length (split_ws_aux t cur) <= length t + match cur with [] => 0 | _ => 1 end)%nat.
Proof.
  induction t as [| c t IH]; intros cur; cbn [split_ws_aux length].
  - destruct cur; cbn; lia.
  - destruct (is_space c).
    + destruct cur; [specialize (IH []); cbn in IH; lia |].
      cbn [length]. specialize (IH []). cbn in IH. lia.
    + specialize (IH (c :: cur)). cbn in IH. destruct cur; lia.
Qed.

Lemma split_ws_length t : (length (split_ws t) <= length t)%nat.
Proof. unfold split_ws. pose proof (split_ws_aux_length t []). cbn in H. lia. Qed.

(** The score is a number that is not negative: a [NaN] similarity never
    replaces the running maximum. *)
Lemma score_nonneg Math_sin (query : text) doc :
  Z.of_nat (length query) < 2 ^ 53 ->
  nonneg (ColBERTEngine.score Math_sin query doc).
Proof.
  intros Hlen. unfold ColBERTEngine.score.
  destruct ((length (Types.tokens doc) =? 0)%nat || (length (Types.embeddings doc) =? 0)%nat);
    [exact I |].
  destruct (length (split_ws query) =? 0)%nat eqn:Hq; [exact I |].
  apply Nat.eqb_neq in Hq.
  apply nonneg_div.
  - generalize (map (ColBERTEngine.makeQueryTokenEmbedding Math_sin) (split_ws query)).
    intros l. assert (H : nonneg 0) by exact I. revert H. generalize 0%float.
    induction l as [| q l IH]; intros acc Hacc; [exact Hacc |].
    cbn [fold_left]. apply IH. apply add_nonneg; [exact Hacc | apply max_sim_nonneg].
  - rewrite length_map. pose proof (split_ws_length query).
    apply ofNat_pos_finite; [lia |].
    assert (2 ^ 53 < 2 ^ 63) by (apply Z.pow_lt_mono_r; lia). lia.
Qed.

(** ** The combined score *)

Lemma weight_colbert : pos_finite 0.6.
Proof. vm_compute. exact I. Qed.

Lemma weight_final : mag_le 0.4 1 0.
Proof. vm_compute. discriminate. Qed.

Lemma weighted_number x y :
  nonneg x -> mag_le y 1 309 -> is_number (x * 0.6 + y * 0.4) = true.
Proof.
  intros Hx Hy. apply add_number with (N := 1 * 1) (E := 309 + 0).
  - apply nonneg_mul_pos; [exact Hx | exact weight_colbert].
  - apply mul_mag_le; try lia; [exact Hy | exact weight_final].
Qed.

End ScoreBounds.

(* ===================================================================== *)
(** * Bounds on the generated embeddings *)
(* ===================================================================== *)

Module GeneratorBounds.
Import JS Similarity Types MatryoshkaGenerator JSFacts MatryoshkaFacts FloatFacts
  FloatBounds ScoreBounds.
Local Open Scope Z_scope.

(** What the provider needs of [Math.sin]: on a finite argument, a result
    in [[-1, 1]].  At [NaN] and at the infinities [Math.sin] returns
    [NaN]; the provider passes it finite arguments only, which is shown
    below. *)
Definition sine_like (f : float -> float) : Prop :=
  forall x, PrimFloat.is_finite x = true ->
    (-1 <=? f x)%float = true /\ (f x <=? 1)%float = true.

Lemma mantissa_53 m e : bounded prec emax m e = true -> Zpos m < 2 ^ 53.
Proof.
  intros V. apply bounded_cases in V as (_ & Hd & _).
  pose proof (digits2_bounds m) as [_ Hu].
  eapply Z.lt_le_trans; [exact Hu |]. apply Z.pow_le_mono_r; lia.
Qed.

Lemma one_spec : Prim2SF 1 = S754_finite false 4503599627370496 (-52).
Proof. vm_compute. reflexivity. Qed.

Lemma minus_one_spec : Prim2SF (-1) = S754_finite true 4503599627370496 (-52).
Proof. vm_compute. reflexivity. Qed.

(** Between two finite values of opposite signs and one magnitude. *)
Lemma between_spec (s : bool) (m c : positive) (e ec : Z) :
  SFleb (S754_finite true c ec) (S754_finite s m e) = true ->
  SFleb (S754_finite s m e) (S754_finite false c ec) = true ->
  e < ec \/ (e = ec /\ Zpos m <= Zpos c).
Proof.
  unfold SFleb; cbn [SFcompare]. rewrite !Pos.compare_cont_spec. cbn [Pos.switch_Eq].
  intros H1 H2.
  destruct s.
  - destruct (Z.compare_spec ec e) as [E | E | E]; try discriminate H1.
    + destruct (Pos.compare_spec c m) as [E' | E' | E'];
        try discriminate H1; lia.
    + lia.
  - destruct (Z.compare_spec e ec) as [E | E | E]; try discriminate H2.
    + destruct (Pos.compare_spec m c) as [E' | E' | E'];
        try discriminate H2; lia.
    + lia.
Qed.

Lemma unit_mag x :
  (-1 <=? x)%float = true -> (x <=? 1)%float = true -> mag_le x 1 0.
Proof.
  unfold mag_le. rewrite !FloatAxioms.leb_spec, one_spec, minus_one_spec.
  pose proof (FloatAxioms.Prim2SF_valid x) as V.
  destruct (Prim2SF x) as [| [] | | s m e]; intros H1 H2;
    try discriminate H1; try discriminate H2; try exact I.
  cbn [valid_binary] in V. pose proof (mantissa_53 m e V) as Hm.
  apply bounded_cases in V as (He & _).
  pose proof (P_pos e ltac:(lia)) as HPe.
  destruct (between_spec s m _ e _ H1 H2) as [Hlt | [-> Hle]].
  - pose proof (P_le (e + 53) 0 ltac:(lia) ltac:(lia)) as Hle.
    rewrite P_add in Hle by lia. nia.
  - assert (HP : P 0 = P (-52) * 2 ^ 52) by (apply (P_add (-52) 52); lia).
    rewrite HP. change (2 ^ 52) with 4503599627370496. nia.
Qed.

Lemma mag_le_rescale x N E : -2199 <= E -> mag_le x N E -> mag_le x (2 * N) (E - 1).
Proof.
  unfold mag_le. intros HE H. destruct (Prim2SF x); auto.
  assert (HP : P E = P (E - 1) * 2 ^ 1).
  { replace E with (E - 1 + 1) at 1 by lia. apply P_add; lia. }
  rewrite HP in H. change (2 ^ 1) with 2 in H. lia.
Qed.

(** An integer below [2^32] read as a number. *)
Lemma ofZ_mag u : 0 <= u < 2 ^ 32 -> mag_le (ofZ u) (2 ^ 32 - 1) 0.
Proof.
  intros Hu. unfold ofZ, mag_le. destruct u as [| p | p]; [exact I | | lia].
  rewrite FloatAxioms.of_uint63_spec, Uint63.of_Z_spec.
  rewrite Z.mod_small by (change Uint63.wB with (2 ^ 63); lia).
  cbn [binary_normalize].
  destruct (binary_round_upper prec emax prec_pos emin_low false p 0 (2 ^ 32 - 1) 0)
    as [-> | (m' & e' & -> & _ & Hr)]; try exact I; try exact Hr.
  - lia.
  - unfold SpecFloat.emin, prec, emax. lia.
  - change (2 ^ prec) with (2 ^ 53). lia.
  - unfold prec, emax. lia.
  - pose proof (P_pos 0 ltac:(lia)). nia.
Qed.

Lemma two_32_pos_ge : pos_ge 4294967296 32.
Proof. vm_compute. discriminate. Qed.

Lemma half_mag : mag_le 0.5 1 (-1).
Proof. vm_compute. discriminate. Qed.

(** [rand()] lies in [[0, 1]]. *)
Lemma rand_step_mag x : mag_le (fst (rand_step x)) 1 0.
Proof.
  unfold rand_step. cbn [fst].
  apply (div_mag_le _ _ (2 ^ 32 - 1) 0 32 32); try lia.
  - apply ofZ_mag. unfold ushr0. apply toUint32_range.
  - exact two_32_pos_ge.
Qed.

(** ** Stores into a [Float32Array] *)

Lemma prec24_pos : 0 < 24.
Proof. lia. Qed.

Lemma emin24_low : -2200 <= SpecFloat.emin 24 128.
Proof. unfold SpecFloat.emin. lia. Qed.

Lemma small_intro v :
  match Prim2SF v with
  | S754_zero _ => True
  | S754_finite _ m e => P (-149) <= Zpos m * P e <= 3 * P (-1)
  | _ => False
  end -> small v.
Proof.
  unfold small, mag_le, mag_ge, is_zero.
  destruct (Prim2SF v); intros H; try contradiction.
  - split; [exact I | left; eauto].
  - split; [lia | right; lia].
Qed.

(** A binary32 value of magnitude at most [1.5], read back as a binary64
    number. *)
Lemma SF2Prim_small s m e :
  Zpos m < 2 ^ 24 -> -149 <= e <= 104 -> Zpos m * P e <= 3 * P (-1) ->
  small (SF2Prim (S754_finite s m e)).
Proof.
  intros Hm He Hv. apply small_intro. unfold SF2Prim.
  set (f := Z.ldexp (of_uint63 (Uint63.of_Z (Zpos m))) e).
  assert (Hf : match Prim2SF f with
               | S754_finite false m' e' => P (-149) <= Zpos m' * P e' <= 3 * P (-1)
               | _ => False
               end).
  { subst f. unfold Z.ldexp.
    rewrite Z.min_l by (unfold SpecFloat.emin, prec, emax; lia).
    rewrite Z.max_l by (unfold SpecFloat.emin, prec, emax; lia).
    rewrite FloatAxioms.ldshiftexp_spec, FloatAxioms.of_uint63_spec, !Uint63.of_Z_spec.
    assert (H63 : 2 ^ 24 < 2 ^ 63) by (apply Z.pow_lt_mono_r; lia).
    rewrite !Z.mod_small by (change Uint63.wB with (2 ^ 63); unfold FloatOps.shift; lia).
    replace (e + FloatOps.shift - FloatOps.shift) with e by lia.
    cbn [binary_normalize].
    pose proof (P_pos 0 ltac:(lia)) as HP0.
    pose proof (P_pos e ltac:(lia)) as HPe.
    assert (H53 : 2 ^ 24 < 2 ^ 53) by (apply Z.pow_lt_mono_r; lia).
    assert (Q1 : SpecFloat.emin prec emax <= 0) by (unfold SpecFloat.emin, prec, emax; lia).
    assert (Q2 : 0 <= Zpos m < 2 ^ prec) by (change (2 ^ prec) with (2 ^ 53); lia).
    assert (Q3 : 0 + 2 * prec <= emax) by (unfold prec, emax; lia).
    assert (Q4 : Zpos m * P 0 <= Zpos m * P 0) by lia.
    destruct (binary_round_upper prec emax prec_pos emin_low false m 0 (Zpos m) 0
                ltac:(lia) Q1 Q2 Q3 Q4) as [Hz | (m1 & e1 & E1 & Hr1 & Hup)];
      destruct (binary_round_cases prec emax prec_pos emin_low false m 0 Q1)
        as [Hi | (m1' & e1' & E1' & _ & Hlo)]; try congruence.
    rewrite E1 in E1'. injection E1' as <- <-.
    rewrite E1. cbn [SFldexp].
    unfold SpecFloat.emin, prec, emax in Hr1.
    assert (Hmul : P (e1 + e) * P 0 = P e1 * P e) by (symmetry; apply P_mul; lia).
    assert (Hhi' : Zpos m1 * P (e1 + e) <= Zpos m * P e).
    { apply (Z.mul_le_mono_pos_r _ _ (P 0) HP0).
      replace (Zpos m1 * P (e1 + e) * P 0) with (Zpos m1 * P e1 * P e)
        by (rewrite <- !Z.mul_assoc, Hmul; reflexivity).
      replace (Zpos m * P e * P 0) with (Zpos m * P 0 * P e) by ring.
      apply Z.mul_le_mono_nonneg_r; lia. }
    assert (Hlo' : P e <= Zpos m1 * P (e1 + e)).
    { apply (Z.mul_le_mono_pos_r _ _ (P 0) HP0).
      replace (Zpos m1 * P (e1 + e) * P 0) with (Zpos m1 * P e1 * P e)
        by (rewrite <- !Z.mul_assoc, Hmul; reflexivity).
      replace (P e * P 0) with (P 0 * P e) by ring.
      apply Z.mul_le_mono_nonneg_r; lia. }
    pose proof (P_le (-149) e ltac:(lia) ltac:(lia)) as Hmin.
    assert (R1 : SpecFloat.emin prec emax <= -1) by (unfold SpecFloat.emin, prec, emax; lia).
    assert (R2 : 0 <= 3 < 2 ^ prec) by (change (2 ^ prec) with (2 ^ 53); lia).
    assert (R3 : -1 + 2 * prec <= emax) by (unfold prec, emax; lia).
    assert (R4 : SpecFloat.emin prec emax <= -149) by (unfold SpecFloat.emin, prec, emax; lia).
    destruct (binary_round_upper prec emax prec_pos emin_low false m1 (e1 + e) 3 (-1)
                ltac:(lia) R1 R2 R3 ltac:(lia)) as [Hz | (m2 & e2 & E2 & _ & Hb2)];
      destruct (binary_round_lower prec emax prec_pos emin_low false m1 (e1 + e) (-149)
                  ltac:(lia) R4 ltac:(lia)) as [Hi | (m2' & e2' & E2' & _ & Hb2')];
      try congruence.
    rewrite E2. rewrite E2 in E2'. injection E2' as <- <-. lia. }
  destruct s.
  - rewrite FloatAxioms.opp_spec.
    destruct (Prim2SF f) as [| | | [] m' e']; try contradiction. exact Hf.
  - destruct (Prim2SF f) as [| | | [] m' e']; try contradiction. exact Hf.
Qed.

Lemma fround_small x : mag_le x 3 (-1) -> small (fround x).
Proof.
  unfold mag_le, fround. pose proof (FloatAxioms.Prim2SF_valid x) as V.
  destruct (Prim2SF x) as [s | s | | s m e] eqn:Ex; intros H; try contradiction.
  - apply small_intro. rewrite Ex. exact I.
  - cbn [valid_binary] in V. apply bounded_cases in V as (He & _).
    assert (Hn : binary_normalize 24 128 (cond_Zopp s (Zpos m)) e s
                 = binary_round 24 128 s m e) by (destruct s; reflexivity).
    rewrite Hn.
    destruct (binary_round_upper 24 128 prec24_pos emin24_low s m e 3 (-1))
      as [-> | (m' & e' & E & Hr & Hb)]; try lia.
    + unfold SpecFloat.emin. lia.
    + apply small_intro. rewrite FloatAxioms.Prim2SF_SF2Prim by reflexivity. exact I.
    + rewrite E. apply SF2Prim_small.
      * exact (binary_round_fits 24 128 prec24_pos s m e m' e' E).
      * unfold SpecFloat.emin in Hr. lia.
      * exact Hb.
Qed.

(** ** The generated embeddings *)

(** A zero or a finite number is neither [NaN] nor an infinity. *)
Lemma mag_le_finite x N E : mag_le x N E -> PrimFloat.is_finite x = true.
Proof.
  unfold mag_le, PrimFloat.is_finite, PrimFloat.is_infinity, PrimFloat.is_nan.
  rewrite !FloatAxioms.eqb_spec, FloatAxioms.abs_spec.
  change (Prim2SF infinity) with (S754_infinity false).
  destruct (Prim2SF x) as [| | |s m e]; try contradiction; intros _.
  - reflexivity.
  - cbn. unfold SFeqb. cbn [SFcompare]. destruct s.
    + rewrite Z.compare_refl, Pos.compare_cont_refl. reflexivity.
    + rewrite Z.compare_refl, Pos.compare_cont_refl. reflexivity.
Qed.

(** Any length read as a number is finite. *)
Lemma ofZ_mag_wide u : 0 <= u -> mag_le (ofZ u) 1 63.
Proof.
  intros Hu. unfold ofZ, mag_le. destruct u as [| p | p]; [exact I | | lia].
  rewrite FloatAxioms.of_uint63_spec, Uint63.of_Z_spec.
  change Uint63.wB with (2 ^ 63).
  pose proof (Z.mod_pos_bound (Z.pos p) (2 ^ 63) ltac:(lia)) as Hb.
  destruct (Z.pos p mod 2 ^ 63) as [| q | q]; [exact I | | lia].
  cbn [binary_normalize].
  destruct (binary_round_upper prec emax prec_pos emin_low false q 0 1 63)
    as [-> | (m' & e' & -> & _ & Hr)]; try exact I; try exact Hr.
  - lia.
  - unfold SpecFloat.emin, prec, emax. lia.
  - change (2 ^ prec) with (2 ^ 53). lia.
  - unfold prec, emax. lia.
  - assert (HP : P 63 = P 0 * 2 ^ 63) by (apply (P_add 0 63); lia).
    rewrite HP. pose proof (P_pos 0 ltac:(lia)). nia.
Qed.

Lemma dimensions_pos_ge : pos_ge (ofNat 768) 9.
Proof. vm_compute. discriminate. Qed.

(** The argument [angle * seed] that [generateRoPEEmbedding] passes to
    [Math.sin] for 768 dimensions is finite. *)
Lemma angle_finite (j : nat) (u : Z) :
  (j < 768)%nat -> 0 <= u ->
  PrimFloat.is_finite (ofNat j / ofNat 768 * ofZ u) = true.
Proof.
  intros Hj Hu. apply (mag_le_finite _ (1 * 1) (23 + 63)).
  apply mul_mag_le; try lia.
  - apply (div_mag_le _ _ (2 ^ 32 - 1) 0 9 32); try lia.
    + apply ofZ_mag. lia.
    + exact dimensions_pos_ge.
  - now apply ofZ_mag_wide.
Qed.

Section Provider.
Variable Math_sin : float -> float.
Hypothesis sine_ok : sine_like Math_sin.

Lemma rope_loop_small n : forall i d seed x,
  (forall j, (i <= j < i + n)%nat ->
     PrimFloat.is_finite (ofNat j / d * seed) = true) ->
  Forall small (rope_loop Math_sin n i d seed x).
Proof.
  induction n as [| n IH]; intros i d seed x Hfin; cbn [rope_loop]; [constructor |].
  pose proof (rand_step_mag x) as Hr.
  destruct (rand_step x) as [r x']. cbn [fst] in Hr.
  constructor; [| apply IH; intros j Hj; apply Hfin; lia].
  apply fround_small.
  destruct (sine_ok (ofNat i / d * seed)%float (Hfin i ltac:(lia))) as [Hlo Hhi].
  apply (add_mag_le _ _ (1 * 1) (2 * 1) (0 + -1)); try lia.
  - apply mul_mag_le; try lia; [now apply unit_mag | exact half_mag].
  - apply (mag_le_rescale r 1 0); [lia | exact Hr].
Qed.

(** Every component of a generated full vector is a small entry, and
    there are 768 of them. *)
Lemma generateAll_full_small t :
  Forall small (full (fst (generateAll Math_sin t)))
  /\ length (full (fst (generateAll Math_sin t))) = 768%nat.
Proof.
  cbn [generateAll fst full]. split.
  - unfold generateRoPEEmbedding. cbv zeta. apply rope_loop_small.
    intros j Hj. apply angle_finite; lia.
  - apply generateRoPEEmbedding_length.
Qed.

End Provider.

End GeneratorBounds.

(* ===================================================================== *)
(** * Sorting by a numeric key, highest first *)
(* ===================================================================== *)

Module RankFacts.
Import JS SortFacts FloatFacts.

Lemma leb_true_numbers x y :
  (x <=? y)%float = true -> is_number x = true /\ is_number y = true.
Proof.
  rewrite FloatAxioms.leb_spec. unfold SFleb. intros H.
  split; apply is_number_spec; intros E; rewrite E in H.
  - discriminate.
  - destruct (Prim2SF x) as [| [] | |]; discriminate.
Qed.

Lemma leb_trans x y z :
  (x <=? y)%float = true -> (y <=? z)%float = true -> (x <=? z)%float = true.
Proof.
  intros Hxy Hyz.
  destruct (leb_true_numbers _ _ Hxy) as [Nx Ny].
  destruct (leb_true_numbers _ _ Hyz) as [_ Nz].
  apply leb_rank in Hxy, Hyz; auto. apply leb_rank; auto.
  destruct (num_rank x) as [[a b] c], (num_rank y) as [[a' b'] c'],
    (num_rank z) as [[a'' b''] c'']. unfold lex_lt in *. lia.
Qed.

(** No two entries of a list of scores tie: each pair is ordered one way
    or the other by [<]. *)
Fixpoint tie_free (l : list float) : bool :=
  match l with
  | [] => true
  | x :: l' => forallb (fun y => (x <? y)%float || (y <? x)%float) l' && tie_free l'
  end.

Section Descending.
Context {A : Type}.
Variable key : A -> float.

(** [cmp(a, b) > 0] for the comparator [(a, b) => key(b) - key(a)]. *)
Definition lower (a b : A) : bool := gt (key b - key a)%float 0.

Definition ge_key (a b : A) : Prop := (key b <=? key a)%float = true.
Definition gt_key (a b : A) : Prop := (key b <? key a)%float = true.

(** Two entries do not tie: the comparator orders them one way or the
    other. *)
Definition comparable (a b : A) : Prop :=
  (key a <? key b)%float || (key b <? key a)%float = true.

Definition no_ties (l : list A) : Prop :=
  forall a b, a ∈ l -> b ∈ l -> a <> b -> comparable a b.

Lemma lower_ltb a b :
  is_number (key a) = true -> is_number (key b) = true ->
  lower a b = (key a <? key b)%float.
Proof. intros Ha Hb. unfold lower, gt. now apply sub_pos. Qed.

Lemma comparable_numbers a b :
  comparable a b -> is_number (key a) = true /\ is_number (key b) = true.
Proof.
  unfold comparable. intros H. apply orb_true_iff in H as [H | H];
    apply ltb_true_numbers in H; tauto.
Qed.

Lemma sort_insert_HdRel (R : relation A) a x l :
  HdRel R a l -> R a x -> HdRel R a (sort_insert lower x l).
Proof.
  intros Hl Hx. destruct l as [| y l]; cbn [sort_insert]; [now constructor |].
  destruct (lower x y); constructor; [now inversion Hl | assumption].
Qed.

Lemma sort_insert_ge x l :
  is_number (key x) = true -> Forall (fun a => is_number (key a) = true) l ->
  Sorted ge_key l -> Sorted ge_key (sort_insert lower x l).
Proof.
  intros Hx Hl Hs. induction Hs as [| y l Hs IH Hhd]; cbn [sort_insert].
  - repeat constructor.
  - apply Forall_cons in Hl as [Hy Hl]. rewrite (lower_ltb x y Hx Hy).
    destruct (key x <? key y)%float eqn:E.
    + constructor; [now apply IH |].
      apply sort_insert_HdRel; [exact Hhd |]. now apply ltb_leb.
    + constructor; [now constructor |]. constructor. now apply not_ltb_leb.
Qed.

(** With numeric keys the result is in descending order. *)
Lemma sort_descending l :
  Forall (fun a => is_number (key a) = true) l -> Sorted ge_key (sort lower l).
Proof.
  induction l as [| x l IH]; intros Hl; cbn [sort]; [constructor |].
  apply Forall_cons in Hl as [Hx Hl]. apply sort_insert_ge; auto.
  rewrite (sort_perm lower l). exact Hl.
Qed.

Lemma sort_insert_gt x l :
  (forall y, y ∈ l -> comparable x y) ->
  Sorted gt_key l -> Sorted gt_key (sort_insert lower x l).
Proof.
  intros Hc Hs. induction Hs as [| y l Hs IH Hhd]; cbn [sort_insert].
  - repeat constructor.
  - assert (Hxy : comparable x y) by (apply Hc; now left).
    destruct (comparable_numbers x y Hxy) as [Nx Ny].
    rewrite (lower_ltb x y Nx Ny).
    destruct (key x <? key y)%float eqn:E.
    + constructor; [apply IH; intros z Hz; apply Hc; now right |].
      apply sort_insert_HdRel; [exact Hhd | exact E].
    + constructor; [now constructor |]. constructor.
      unfold comparable in Hxy. rewrite E in Hxy. exact Hxy.
Qed.

(** Without ties the result is in strictly descending order. *)
Lemma sort_strict l :
  NoDup l -> no_ties l -> Sorted gt_key (sort lower l).
Proof.
  induction l as [| x l IH]; intros Hnd Hnt; cbn [sort]; [constructor |].
  apply NoDup_cons in Hnd as [Hx Hnd]. apply sort_insert_gt.
  - intros y Hy. rewrite (sort_perm lower l) in Hy.
    apply Hnt; [now left | now right | intros ->; contradiction].
  - apply IH; [exact Hnd |]. intros a b Ha Hb. apply Hnt; now right.
Qed.

Lemma tie_free_no_ties l :
  tie_free (map key l) = true -> NoDup l /\ no_ties l.
Proof.
  induction l as [| x l IH]; cbn [map tie_free]; intros H.
  - split; [constructor |]. intros a b Ha. inversion Ha.
  - apply andb_true_iff in H as [Hx Hl]. destruct (IH Hl) as [Hnd Hnt].
    rewrite forallb_forall in Hx.
    assert (Hc : forall y, y ∈ l -> comparable x y).
    { intros y Hy. apply (Hx (key y)). apply in_map. now apply list_elem_of_In. }
    split.
    + constructor; [| exact Hnd]. intros Hin. specialize (Hc x Hin).
      unfold comparable in Hc. rewrite orb_diag in Hc.
      pose proof (ltb_asym _ _ Hc). congruence.
    + intros a b Ha Hb Hab.
      apply elem_of_cons in Ha as [-> | Ha]; apply elem_of_cons in Hb as [-> | Hb].
      * contradiction.
      * now apply Hc.
      * unfold comparable. rewrite orb_comm. now apply Hc.
      * now apply Hnt.
Qed.

#[export] Instance ge_key_trans : Transitive ge_key.
Proof. intros a b c Hab Hbc. unfold ge_key in *. eapply leb_trans; eauto. Qed.

#[export] Instance gt_key_trans : Transitive gt_key.
Proof. intros a b c Hab Hbc. unfold gt_key in *. eapply ltb_trans; eauto. Qed.

(** Without ties the sorted arrangement does not depend on the order the
    entries were produced in. *)
Lemma sort_perm_eq l1 l2 :
  Permutation l1 l2 -> NoDup l2 -> no_ties l2 ->
  sort lower l1 = sort lower l2.
Proof.
  intros Hp Hnd Hnt.
  apply (Sorted_unique_strong gt_key).
  - intros a b _ _ Hab Hba. unfold gt_key in *.
    apply ltb_asym in Hab. congruence.
  - apply sort_strict.
    + now rewrite Hp.
    + intros a b Ha Hb. rewrite Hp in Ha, Hb. now apply Hnt.
  - now apply sort_strict.
  - now rewrite !sort_perm.
Qed.

(** The first [n] entries of a strictly descending arrangement are above
    all the others. *)
Lemma sorted_prefix_top (R : relation A) n l :
  StronglySorted R l ->
  StronglySorted R (firstn n l)
  /\ forall a b, a ∈ firstn n l -> b ∈ l -> b ∉ firstn n l -> R a b.
Proof.
  intros Hs. rewrite <- (firstn_skipn n l) in Hs.
  split; [eapply StronglySorted_app_1_l, Hs |].
  intros a b Ha Hb Hnb. eapply StronglySorted_app_1_elem_of; [exact Hs | exact Ha |].
  rewrite <- (firstn_skipn n l) in Hb. apply elem_of_app in Hb as [Hb | Hb];
    [contradiction | exact Hb].
Qed.

End Descending.
End RankFacts.

(* ===================================================================== *)
(** * The prefilter distance *)
(* ===================================================================== *)

Module HammingFacts.
Import JS Types UltraVectorDB JSFacts.
Local Open Scope Z_scope.

Definition int32 (x : Z) : Prop := - 2 ^ 31 <= x < 2 ^ 31.

(** The [k] lowest bits of [x] are clear. *)
Definition low_zero (k x : Z) : Prop :=
  forall j, 0 <= j < k -> Z.testbit x j = false.

Lemma low_zero_mod k x : 0 <= k -> low_zero k x -> x mod 2 ^ k = 0.
Proof.
  intros Hk Hz. apply Z.bits_inj'. intros n Hn. rewrite Z.bits_0.
  destruct (Z.lt_ge_cases n k).
  - rewrite Z.mod_pow2_bits_low by lia. apply Hz. lia.
  - apply Z.mod_pow2_bits_high. lia.
Qed.

Lemma low_zero_32 x : int32 x -> low_zero 32 x -> x = 0.
Proof.
  intros Hr Hz. apply low_zero_mod in Hz; [| lia]. unfold int32 in Hr.
  change (2 ^ 32) with 4294967296 in Hz. change (2 ^ 31) with 2147483648 in Hr.
  pose proof (Z.div_mod x 4294967296 ltac:(lia)). lia.
Qed.

Lemma band_int32 x y : int32 (band x y).
Proof. apply toInt32_range. Qed.

Lemma bxor_int32 x y : int32 (bxor x y).
Proof. apply toInt32_range. Qed.

(** [x & (x - 1)] clears the lowest set bit. *)
Lemma clear_lowest k x :
  0 <= k < 32 -> low_zero k x -> low_zero (k + 1) (band x (x - 1)).
Proof.
  intros Hk Hz j Hj. unfold band.
  rewrite toInt32_bits, Z.land_spec, !toInt32_bits by lia.
  destruct (Z.eq_dec j k) as [-> | Hne].
  - destruct (Z.testbit x k) eqn:Hb; [| reflexivity]. cbn [andb].
    pose proof (low_zero_mod k x ltac:(lia) Hz) as Hmod.
    rewrite Z.testbit_odd, Z.shiftr_div_pow2 in Hb |- * by lia.
    assert (Hpos : 0 < 2 ^ k) by (apply Z.pow_pos_nonneg; lia).
    assert (Hx : x = 2 ^ k * (x / 2 ^ k)).
    { pose proof (Z.div_mod x (2 ^ k) ltac:(lia)). lia. }
    assert (Hdiv : (x - 1) / 2 ^ k = x / 2 ^ k - 1).
    { symmetry. apply Z.div_unique with (r := 2 ^ k - 1); lia. }
    rewrite Hdiv, Z.odd_sub. rewrite Hb. reflexivity.
  - rewrite Hz by lia. reflexivity.
Qed.

(** The loop returns within 32 iterations of the first test. *)
Lemma count_bits_returns fuel : forall k x c,
  0 <= k <= 32 -> int32 x -> low_zero k x -> (32 - k < Z.of_nat fuel) ->
  exists d, count_bits fuel x c = Ok d
    /\ c <= d <= c + (32 - k) /\ (d = c <-> x = 0).
Proof.
  induction fuel as [| fuel IH]; intros k x c Hk Hr Hz Hfuel; [lia |].
  cbn [count_bits]. destruct (Z.eqb_spec x 0) as [-> | Hx].
  - exists c. split; [reflexivity |]. split; [lia | tauto].
  - assert (Hk32 : k < 32).
    { destruct (Z.eq_dec k 32) as [-> | ?]; [| lia].
      exfalso. apply Hx. now apply low_zero_32. }
    destruct (IH (k + 1) (band x (x - 1)) (c + 1)) as (d & Hd & Hrange & _).
    + lia.
    + apply band_int32.
    + apply clear_lowest; [lia | exact Hz].
    + lia.
    + exists d. split; [exact Hd |]. split; [lia |]. split; [lia | contradiction].
Qed.

Lemma bxor_comm x y : bxor x y = bxor y x.
Proof. unfold bxor. now rewrite Z.lxor_comm. Qed.

Definition uint32 (w : Z) : Prop := 0 <= w < 2 ^ 32.

Lemma bxor_zero_iff x y : uint32 x -> uint32 y -> (bxor x y = 0 <-> x = y).
Proof.
  intros Hx Hy. split.
  - intros H.
    assert (Hbits : forall j, 0 <= j < 32 -> Z.testbit x j = Z.testbit y j).
    { intros j Hj. apply (f_equal (fun z => Z.testbit z j)) in H.
      unfold bxor in H. rewrite toInt32_bits, Z.lxor_spec, !toInt32_bits, Z.bits_0 in H by lia.
      now apply xorb_eq. }
    assert (Hm : x mod 2 ^ 32 = y mod 2 ^ 32).
    { apply Z.bits_inj'. intros n Hn. destruct (Z.lt_ge_cases n 32).
      - rewrite !Z.mod_pow2_bits_low by lia. apply Hbits. lia.
      - rewrite !Z.mod_pow2_bits_high by lia. reflexivity. }
    unfold uint32 in *. rewrite !Z.mod_small in Hm by lia. exact Hm.
  - intros ->. unfold bxor. now rewrite Z.lxor_nilpotent.
Qed.

Lemma nanoHammingDistance_comm a b :
  nanoHammingDistance a b = nanoHammingDistance b a.
Proof.
  unfold nanoHammingDistance. rewrite (bxor_comm (word0 a)). reflexivity.
Qed.

(** The distance is defined on all inputs. *)
Lemma nanoHammingDistance_returns a b :
  exists d, nanoHammingDistance a b = Ok d /\ 0 <= d <= 32
    /\ (d = 0 <-> bxor (word0 a) (word0 b) = 0).
Proof.
  unfold nanoHammingDistance.
  destruct (count_bits_returns 33 0 (bxor (word0 a) (word0 b)) 0) as (d & Hd & Hr & Hz).
  - lia.
  - apply bxor_int32.
  - intros j Hj. lia.
  - lia.
  - exists d. split; [exact Hd |]. split; [lia | exact Hz].
Qed.

(** C7. On 32-bit packed words the distance is a non-negative integer (at
    most 32), is symmetric, and is zero exactly when the two words are
    equal; in particular the distance from a sketch to itself is 0. *)
Theorem nanoHammingDistance_metric (a b : Uint32Array) :
  uint32 (word0 a) -> uint32 (word0 b) ->
  exists d, nanoHammingDistance a b = Ok d
    /\ nanoHammingDistance b a = Ok d
    /\ 0 <= d <= 32
    /\ (d = 0 <-> word0 a = word0 b)
    /\ nanoHammingDistance a a = Ok 0.
Proof.
  intros Ha Hb.
  destruct (nanoHammingDistance_returns a b) as (d & Hd & Hr & Hz).
  exists d. split; [exact Hd |]. split; [| split; [exact Hr | split]].
  - rewrite nanoHammingDistance_comm. exact Hd.
  - rewrite Hz. now apply bxor_zero_iff.
  - destruct (nanoHammingDistance_returns a a) as (d0 & Hd0 & _ & Hz0).
    assert (E : d0 = 0) by (apply Hz0; now apply bxor_zero_iff).
    rewrite <- E. exact Hd0.
Qed.

Lemma nanoHammingDistance_metric_witness :
  uint32 (word0 [5]) /\ uint32 (word0 [3])
  /\ exists d, nanoHammingDistance [5] [3] = Ok d /\ nanoHammingDistance [3] [5] = Ok d.
Proof.
  assert (H5 : uint32 (word0 [5])) by (unfold uint32; cbn; lia).
  assert (H3 : uint32 (word0 [3])) by (unfold uint32; cbn; lia).
  split; [exact H5 |]. split; [exact H3 |].
  destruct (nanoHammingDistance_metric [5] [3] H5 H3) as (d & E1 & E2 & _).
  exists d. auto.
Defined.

End HammingFacts.

(* ===================================================================== *)
(** * The search pipeline *)
(* ===================================================================== *)

Module PipelineFacts.
Import JS Similarity Types UltraVectorDB SortFacts SearchFacts FloatFacts
  RankFacts HammingFacts FloatBounds ScoreBounds GeneratorBounds.

Lemma mapM_ok {A B} (g : A -> outcome B) (f : A -> B) l :
  (forall x, x ∈ l -> g x = Ok (f x)) -> mapM g l = Ok (map f l).
Proof.
  induction l as [| x l IH]; intros H; cbn [mapM map]; [reflexivity |].
  rewrite (H x) by now left. cbn [bind]. rewrite IH by (intros y Hy; apply H; now right).
  reflexivity.
Qed.

Lemma trim_start_blank t : forallb is_space t = true -> trim_start t = [].
Proof.
  induction t as [| c t IH]; cbn [forallb trim_start]; [reflexivity |].
  intros H. apply andb_true_iff in H as [-> Ht]. now apply IH.
Qed.

(** A text made of white space only trims to the empty string. *)
Lemma trim_blank t : forallb is_space t = true -> trim t = [].
Proof. intros H. unfold trim. now rewrite (trim_start_blank t H). Qed.

(** The value of the distance, which is always defined. *)
Definition hamming (a b : Uint32Array) : Z :=
  match nanoHammingDistance a b with
  | Ok d => d
  | _ => 0%Z
  end.

Lemma nanoHammingDistance_hamming a b : nanoHammingDistance a b = Ok (hamming a b).
Proof.
  unfold hamming. destruct (nanoHammingDistance_returns a b) as (d & -> & _). reflexivity.
Qed.

(** The graph search returns for a beam of at least one. *)
Lemma search_returns h q ef lvl :
  1 <= ef -> exists res, HNSWGraph.search h q ef lvl = Ok res.
Proof.
  intros Hef. unfold HNSWGraph.search.
  destruct (HNSWGraph.entryPointId h) as [entry |]; [| eauto].
  destruct (bool_decide (entry = EmptyString) || (size (HNSWGraph.graph h) =? 0));
    [eauto |].
  destruct (descend_spec (HNSWGraph.graph h) q
              (HNSWGraph.layers_down (HNSWGraph.maxLevel h) lvl) entry)
    as (cur & -> & _).
  cbn [bind].
  destruct (searchLayer_spec (HNSWGraph.graph h) q ef lvl cur Hef) as (res & -> & _).
  eauto.
Qed.

(** ** The store *)

Lemma store_get_Some store i c : store_get store i = Some c -> (i, c) ∈ store.
Proof.
  induction store as [| [k c'] rest IH]; cbn [store_get]; [discriminate |].
  case_bool_decide as Hk.
  - intros [= ->]. subst k. now left.
  - intros H. right. now apply IH.
Qed.

Lemma store_get_is_Some store i : is_Some (store_get store i) <-> i ∈ map fst store.
Proof.
  induction store as [| [k c] rest IH]; cbn [store_get map fst].
  - split; [intros [? [=]] | intros H; inversion H].
  - case_bool_decide as Hk.
    + split; [intros _; subst; now left | eauto].
    + rewrite IH. split; [now right |].
      intros H. apply elem_of_cons in H as [-> | H]; [contradiction | exact H].
Qed.

Lemma omap_cons_eq {A B} (f : A -> option B) (x : A) (l : list A) :
  omap f (x :: l) = match f x with Some y => y :: omap f l | None => omap f l end.
Proof. reflexivity. Qed.

Lemma omap_ext_in {A B} (f g : A -> option B) (l : list A) :
  (forall x, x ∈ l -> f x = g x) -> omap f l = omap g l.
Proof.
  induction l as [| x l IH]; intros H; [reflexivity |]. rewrite !omap_cons_eq.
  rewrite (H x) by now left. rewrite IH by (intros y Hy; apply H; now right).
  reflexivity.
Qed.

(** Looking every key up, in order, yields the stored chunks in order. *)
Lemma store_get_keys store :
  NoDup (map fst store) -> omap (store_get store) (map fst store) = map snd store.
Proof.
  induction store as [| [k c] rest IH]; intros Hnd; [reflexivity |].
  cbn [map fst snd] in *. apply NoDup_cons in Hnd as [Hk Hnd].
  rewrite omap_cons_eq. cbn [store_get]. rewrite bool_decide_eq_true_2 by reflexivity.
  f_equal. rewrite <- (IH Hnd). apply omap_ext_in.
  intros x Hx. cbn [store_get]. rewrite bool_decide_eq_false_2; [reflexivity |].
  intros ->. contradiction.
Qed.

Lemma omap_filter_Some {A B} (f : A -> option B) (l : list A) :
  omap f l = omap f (filter (fun x => is_Some (f x)) l).
Proof.
  induction l as [| x l IH]; [reflexivity |].
  rewrite filter_cons, omap_cons_eq.
  destruct (f x) as [y |] eqn:E.
  - rewrite decide_True by eauto. rewrite omap_cons_eq, E. now rewrite IH.
  - rewrite decide_False by (intros [? [=]]). exact IH.
Qed.

(** Candidate ids that cover the keys select the whole store. *)
Lemma omap_store_all store ids :
  NoDup (map fst store) -> NoDup ids ->
  (forall k, k ∈ map fst store -> k ∈ ids) ->
  omap (store_get store) ids ≡ₚ map snd store.
Proof.
  intros Hnd Hids Hall.
  rewrite omap_filter_Some, <- (store_get_keys store Hnd).
  apply omap_Permutation, NoDup_Permutation.
  - now apply NoDup_filter.
  - exact Hnd.
  - intros x. rewrite list_elem_of_filter, store_get_is_Some. split; [tauto | auto].
Qed.

(** ** Stage 1 *)

Lemma getBinaryCandidates_returns store queryNano limit :
  exists B, getBinaryCandidates store queryNano limit = Ok B
    /\ (forall i, i ∈ B -> i ∈ map fst store)
    /\ (length store <= limit -> B ≡ₚ map fst store).
Proof.
  unfold getBinaryCandidates. destruct (length store =? 0) eqn:Hlen.
  - apply Nat.eqb_eq in Hlen. destruct store; [| discriminate].
    exists []. split; [reflexivity |]. split; [intros i Hi; inversion Hi | reflexivity].
  - set (f := fun e : string * UltraChunk =>
               (fst e, hamming queryNano (nano (matryoshka (snd e))))).
    rewrite (mapM_ok _ f).
    2:{ intros e _. rewrite nanoHammingDistance_hamming. reflexivity. }
    cbn [bind]. eexists. split; [reflexivity |].
    assert (Hfst : map fst (map f store) = map fst store).
    { rewrite map_map. apply map_ext. reflexivity. }
    split.
    + intros i Hi. apply map_elem in Hi as (e & -> & He).
      apply take_elem in He. rewrite (sort_perm farther_bits) in He.
      rewrite <- Hfst. apply map_elem. eauto.
    + intros Hle. unfold slice0. rewrite firstn_all2.
      2:{ rewrite sort_length, length_map. lia. }
      rewrite <- Hfst. apply Permutation_map, sort_perm.
Qed.

(** ** Scoring *)

Section Scoring.
Variable Math_sin : float -> float.
Variable query : text.

Definition qMat : MatryoshkaEmbeddings :=
  fst (MatryoshkaGenerator.generateAll Math_sin query).

(** [colbertScore * 0.6 + fullScore * 0.4] for a chunk. *)
Definition combined (c : UltraChunk) : float :=
  (ColBERTEngine.score Math_sin query (colbert c) * 0.6
   + cosineSimilarity (full qMat) (full (matryoshka c)) * 0.4)%float.

(** The entry pushed for a stored chunk. *)
Definition result_of (c : UltraChunk) : SearchResult :=
  {| chunk := c; score := combined c;
     breakdown := {| binary := hamming (nano qMat) (nano (matryoshka c));
                     bd_hnsw := 0%float;
                     bd_colbert := ColBERTEngine.score Math_sin query (colbert c);
                     final := cosineSimilarity (full qMat) (full (matryoshka c)) |} |}.

Lemma score_chunk_eq c :
  score_chunk Math_sin query (full qMat) (nano qMat) c = Ok (result_of c).
Proof. unfold score_chunk. rewrite nanoHammingDistance_hamming. reflexivity. Qed.

Lemma rank_candidates_eq store ids :
  rank_candidates Math_sin store query (full qMat) (nano qMat) ids
  = Ok (map result_of (omap (store_get store) ids)).
Proof.
  induction ids as [| i ids IH]; [reflexivity |].
  cbn [rank_candidates]. rewrite omap_cons_eq.
  destruct (store_get store i) as [c |]; [| exact IH].
  rewrite score_chunk_eq, IH. reflexivity.
Qed.

Definition guard (db : DB) : bool :=
  (length (trim query) =? 0) || (length (dataStore db) =? 0).

(** The candidates both stages hand to the scoring loop. *)
Lemma ultraSearch_unfold db limit :
  guard db = false ->
  exists B Hn,
    getBinaryCandidates (dataStore db) (nano qMat) 500 = Ok B
    /\ HNSWGraph.search (hnsw db) (medium qMat) 50 0 = Ok Hn
    /\ ultraSearch Math_sin db query limit
       = Ok (slice0 limit (sort (lower score)
               (map result_of (omap (store_get (dataStore db)) (set_of_list (B ++ Hn)))))).
Proof.
  intros Hg. unfold ultraSearch. unfold guard in Hg. rewrite Hg.
  destruct (getBinaryCandidates_returns (dataStore db) (nano qMat) 500) as (B & HB & _).
  destruct (search_returns (hnsw db) (medium qMat) 50 0 ltac:(lia)) as (Hn & HHn).
  exists B, Hn. split; [exact HB |]. split; [exact HHn |].
  fold qMat. rewrite HB. cbn [bind]. rewrite HHn. cbn [bind].
  rewrite rank_candidates_eq. reflexivity.
Qed.

Lemma naiveSearch_unfold db limit :
  guard db = false ->
  naiveSearch Math_sin db query limit
  = Ok (slice0 limit (sort (lower score) (map result_of (map snd (dataStore db))))).
Proof.
  intros Hg. unfold naiveSearch. unfold guard in Hg. rewrite Hg. fold qMat.
  rewrite (mapM_ok _ (fun e => result_of (snd e))).
  2:{ intros e _. apply score_chunk_eq. }
  cbn [bind]. now rewrite map_map.
Qed.

Lemma scores_of_store (store : list (string * UltraChunk)) :
  map score (map result_of (map snd store)) = map (fun e => combined (snd e)) store.
Proof. rewrite !map_map. reflexivity. Qed.

End Scoring.

(** C6. For every limit, [ultraSearch] returns the empty list (it does not
    throw) when the query is empty or made of white space only, and when
    the store holds no chunk. *)
Theorem ultraSearch_blank_or_empty (Math_sin : float -> float) (db : DB)
    (query : text) (limit : nat) :
  forallb is_space query = true \/ dataStore db = [] ->
  ultraSearch Math_sin db query limit = Ok [].
Proof.
  intros [Hq | Hs]; unfold ultraSearch.
  - rewrite (trim_blank query Hq). reflexivity.
  - rewrite Hs. cbn [length Nat.eqb]. rewrite orb_true_r. reflexivity.
Qed.

(** Scores that are numbers (not [NaN]). *)
Definition numeric_scores (Math_sin : float -> float) (query : text)
    (store : list (string * UltraChunk)) : bool :=
  forallb (fun e => is_number (combined Math_sin query (snd e))) store.

(** Results from the highest score down. *)
Definition descending (res : list SearchResult) : Prop :=
  StronglySorted (fun a b => (score b <=? score a)%float = true) res.

(** What the loop records for a result: a stored chunk, its two
    component scores, and their weighted sum as the score. *)
Definition scored_as_combined (Math_sin : float -> float) (db : DB) (query : text)
    (r : SearchResult) : Prop :=
  (exists i, store_get (dataStore db) i = Some (chunk r))
  /\ bd_colbert (breakdown r) = ColBERTEngine.score Math_sin query (colbert (chunk r))
  /\ final (breakdown r)
     = cosineSimilarity (full (qMat Math_sin query)) (full (matryoshka (chunk r)))
  /\ score r = (bd_colbert (breakdown r) * 0.6 + final (breakdown r) * 0.4)%float.

(** The ranking, for a store whose combined scores are numbers. *)
Lemma ultraSearch_ranked_numeric (Math_sin : float -> float) (db : DB)
    (query : text) (limit : nat) :
  numeric_scores Math_sin query (dataStore db) = true ->
  exists res, ultraSearch Math_sin db query limit = Ok res
    /\ length res <= limit
    /\ descending res
    /\ forall r, r ∈ res -> scored_as_combined Math_sin db query r.
Proof.
  intros Hnum. destruct (guard query db) eqn:Hg.
  - exists []. unfold ultraSearch. unfold guard in Hg. rewrite Hg.
    split; [reflexivity |]. split; [cbn; lia |]. split; [constructor |].
    intros r Hr. inversion Hr.
  - destruct (ultraSearch_unfold Math_sin query db limit Hg) as (B & Hn & _ & _ & ->).
    eexists. split; [reflexivity |].
    set (ids := set_of_list (B ++ Hn)).
    set (results := map (result_of Math_sin query) (omap (store_get (dataStore db)) ids)).
    assert (Hres : forall r, r ∈ results ->
              exists i c, store_get (dataStore db) i = Some c
                          /\ r = result_of Math_sin query c).
    { intros r Hr. apply map_elem in Hr as (c & -> & Hc).
      apply list_elem_of_omap in Hc as (i & _ & Hi). eauto. }
    split; [unfold slice0; rewrite length_firstn; lia |]. split.
    + unfold descending, slice0. apply sorted_prefix_top.
      apply (Sorted_StronglySorted (ge_key score)).
      apply sort_descending. apply Forall_forall. intros r Hr.
      destruct (Hres r Hr) as (i & c & Hi & ->). unfold result_of. cbn [score].
      apply store_get_Some in Hi. unfold numeric_scores in Hnum.
      rewrite forallb_forall in Hnum.
      apply (Hnum (i, c)). now apply list_elem_of_In.
    + intros r Hr. apply take_elem in Hr. rewrite (sort_perm (lower score)) in Hr.
      destruct (Hres r Hr) as (i & c & Hi & ->).
      unfold scored_as_combined, result_of. cbn [chunk score breakdown bd_colbert final].
      split; [eauto |]. split; [reflexivity |]. split; reflexivity.
Qed.

(** ** Stores filled by [addChunk] *)

(** Every stored chunk carries the embeddings generated from its own
    content, which is how [addChunk] builds it. *)
Definition generated (Math_sin : float -> float)
    (store : list (string * UltraChunk)) : Prop :=
  forall e, e ∈ store ->
    matryoshka (snd e) = fst (MatryoshkaGenerator.generateAll Math_sin (content (snd e))).

Lemma store_set_elem store i c e :
  e ∈ store_set store i c -> e ∈ store \/ snd e = c.
Proof.
  induction store as [| [k c'] rest IH]; cbn [store_set].
  - intros H. apply list_elem_of_singleton in H as ->. now right.
  - case_bool_decide as Hk; intros H; apply elem_of_cons in H as [-> | H].
    + now right.
    + left. now right.
    + left. now left.
    + destruct (IH H) as [H' | H']; [left; now right | now right].
Qed.

Lemma generated_empty Math_sin : generated Math_sin [].
Proof. intros e He. inversion He. Qed.

Lemma addChunk_generated Math_sin db level i text meta db' :
  addChunk Math_sin db level i text meta = Ok db' ->
  generated Math_sin (dataStore db) -> generated Math_sin (dataStore db').
Proof.
  unfold addChunk.
  destruct (MatryoshkaGenerator.generateAll Math_sin text) as [m cb] eqn:Eg.
  destruct (HNSWGraph.insert _ _ _ _) as [h | |]; cbn [bind]; try discriminate.
  intros [= <-] Hgen e He. cbn [dataStore] in He.
  apply store_set_elem in He as [He | ->]; [now apply Hgen |].
  cbn [matryoshka content]. now rewrite Eg.
Qed.

(** On such a store, with a sine within [[-1, 1]] on finite arguments,
    no combined score is [NaN]: the late-interaction score is a number
    that is not negative and the similarity of two full vectors is
    finite. *)
Lemma combined_is_number Math_sin (query : text) (c : UltraChunk) :
  sine_like Math_sin -> (Z.of_nat (length query) < 2 ^ 53)%Z ->
  matryoshka c = fst (MatryoshkaGenerator.generateAll Math_sin (content c)) ->
  is_number (combined Math_sin query c) = true.
Proof.
  intros Hsin Hlen Hc. unfold combined. apply weighted_number.
  - now apply score_nonneg.
  - destruct (generateAll_full_small Math_sin Hsin query) as [Hq Hql].
    destruct (generateAll_full_small Math_sin Hsin (content c)) as [Hd Hdl].
    rewrite <- Hc in Hd, Hdl. unfold qMat.
    apply cosine_finite; [exact Hq | exact Hd |]. rewrite Hql, Hdl. cbn. lia.
Qed.

Lemma generated_numeric Math_sin (query : text) store :
  sine_like Math_sin -> (Z.of_nat (length query) < 2 ^ 53)%Z ->
  generated Math_sin store -> numeric_scores Math_sin query store = true.
Proof.
  intros Hsin Hlen Hgen. unfold numeric_scores. apply forallb_forall.
  intros e He. apply combined_is_number; auto. apply Hgen. now apply list_elem_of_In.
Qed.

(** C3. For every query (a string has fewer than [2^53] code units) and
    every limit, on a store filled by [addChunk] and with a [Math.sin]
    whose results on finite arguments lie in [[-1, 1]] (nothing is asked
    of it at [NaN] and the infinities), [ultraSearch] returns at most [limit]
    results in descending order of score; each result is a stored chunk
    whose score is [colbert * 0.6 + final * 0.4], with [colbert] the
    late-interaction score of the query against the chunk and [final] the
    cosine similarity of the two full vectors, both as recorded in the
    breakdown. *)
Theorem ultraSearch_ranked (Math_sin : float -> float) (db : DB)
    (query : text) (limit : nat) :
  sine_like Math_sin ->
  generated Math_sin (dataStore db) ->
  (Z.of_nat (length query) < 2 ^ 53)%Z ->
  exists res, ultraSearch Math_sin db query limit = Ok res
    /\ length res <= limit
    /\ descending res
    /\ forall r, r ∈ res -> scored_as_combined Math_sin db query r.
Proof.
  intros Hsin Hgen Hlen. apply ultraSearch_ranked_numeric.
  now apply generated_numeric.
Qed.

(** C10. With at most 500 chunks under distinct keys, the prefilter
    returns every stored id, the scoring loop sees every stored chunk, and,
    no two chunks tying on the combined score, [ultraSearch] returns what
    the implementation that scores every chunk returns: the [limit] chunks
    that score highest, every other chunk scoring strictly lower. *)
Theorem small_store_exhaustive (Math_sin : float -> float) (db : DB)
    (query : text) (limit : nat) :
  length (dataStore db) <= 500 ->
  NoDup (map fst (dataStore db)) ->
  tie_free (map (fun e => combined Math_sin query (snd e)) (dataStore db)) = true ->
  (exists B Hn,
      getBinaryCandidates (dataStore db) (nano (qMat Math_sin query)) 500 = Ok B
      /\ HNSWGraph.search (hnsw db) (medium (qMat Math_sin query)) 50 0 = Ok Hn
      /\ B ≡ₚ map fst (dataStore db)
      /\ omap (store_get (dataStore db)) (set_of_list (B ++ Hn))
         ≡ₚ map snd (dataStore db))
  /\ exists res,
      ultraSearch Math_sin db query limit = Ok res
      /\ naiveSearch Math_sin db query limit = Ok res
      /\ (guard query db = false -> length res = Nat.min limit (length (dataStore db)))
      /\ forall r e, r ∈ res -> e ∈ dataStore db ->
           result_of Math_sin query (snd e) ∉ res ->
           (combined Math_sin query (snd e) <? score r)%float = true.
Proof.
  intros Hlen Hnd Hties.
  destruct (getBinaryCandidates_returns (dataStore db) (nano (qMat Math_sin query)) 500)
    as (B & HB & HBin & HBall).
  specialize (HBall Hlen).
  destruct (search_returns (hnsw db) (medium (qMat Math_sin query)) 50 0 ltac:(lia))
    as (Hn & HHn).
  assert (Hall : omap (store_get (dataStore db)) (set_of_list (B ++ Hn))
                 ≡ₚ map snd (dataStore db)).
  { destruct (set_of_list_spec (B ++ Hn)) as (Hnd' & Hel & _).
    apply omap_store_all; [exact Hnd | exact Hnd' |].
    intros k Hk. apply Hel, elem_of_app. left. now rewrite HBall. }
  split; [exists B, Hn; auto |].
  destruct (guard query db) eqn:Hg.
  - exists []. unfold ultraSearch, naiveSearch. unfold guard in Hg. rewrite Hg.
    split; [reflexivity |]. split; [reflexivity |]. split; [discriminate |].
    intros r e Hr. inversion Hr.
  - destruct (ultraSearch_unfold Math_sin query db limit Hg) as (B' & Hn' & HB' & HHn' & ->).
    rewrite (naiveSearch_unfold Math_sin query db limit Hg).
    assert (B' = B) by congruence. assert (Hn' = Hn) by congruence. subst B' Hn'.
    set (all := map (result_of Math_sin query) (map snd (dataStore db))).
    destruct (tie_free_no_ties score all) as [Hnd_all Hnt].
    { unfold all. now rewrite scores_of_store. }
    assert (Hsort : sort (lower score)
                      (map (result_of Math_sin query)
                         (omap (store_get (dataStore db)) (set_of_list (B ++ Hn))))
                    = sort (lower score) all).
    { apply sort_perm_eq; [| exact Hnd_all | exact Hnt].
      unfold all. now apply Permutation_map. }
    rewrite Hsort. eexists. split; [reflexivity |]. split; [reflexivity |].
    split.
    + intros _. unfold slice0. rewrite length_firstn, sort_length.
      unfold all. now rewrite !length_map.
    + intros r e Hr He Hne.
      assert (Hs : StronglySorted (gt_key score) (sort (lower score) all)).
      { apply (Sorted_StronglySorted (gt_key score)). now apply sort_strict. }
      destruct (sorted_prefix_top (gt_key score) limit _ Hs) as [_ Htop].
      apply (Htop r (result_of Math_sin query (snd e)) Hr); [| exact Hne].
      rewrite (sort_perm (lower score)). unfold all.
      apply map_elem. exists (snd e). split; [reflexivity |].
      apply map_elem. eauto.
Qed.

End PipelineFacts.

(* ===================================================================== *)
(** * A run of the pipeline *)
(* ===================================================================== *)

Module PipelineRuns.
Import JS Types MatryoshkaGenerator UltraVectorDB FloatFacts RankFacts HammingFacts
  GeneratorBounds PipelineFacts.
Local Open Scope string_scope.

Definition meta0 : UltraMetadata :=
  {| meta_type := "note"; meta_importance := None; meta_created := None;
     meta_lastAccessed := None |}.

(** [addChunk] for each [(id, content, level)] in turn. *)
Definition adds (Math_sin : float -> float) (db : DB) (l : list (string * string * nat))
  : outcome DB :=
  fold_left
    (fun o c =>
       do d <- o ;
       addChunk Math_sin d (HNSWGraph.Level (snd c)) (fst (fst c)) (of_ascii_string (snd (fst c))) meta0)
    l (Ok db).

Definition demo_chunks : list (string * string * nat) :=
  [("A1", "Consciousness is a feature that emerges from complex neural networks, driven by electrical signals.", 0);
   ("B2", "The HNSW graph is a multi-layer structure used for lightning-fast Approximate Nearest Neighbor search.", 1);
   ("C3", "I often think about the nature of the mind and what it means to be truly conscious and aware.", 0);
   ("D4", "Binary Quantization compresses vectors by 128x, allowing mobile devices to handle huge datasets.", 2)].

Definition run (Math_sin : float -> float) : DB :=
  match adds Math_sin (create 16 200) demo_chunks with
  | Ok d => d
  | _ => create 16 200
  end.

Definition demo_db : DB := run sin_taylor.

(** A sine for the runs that need one within [[-1, 1]]: [NaN] at [NaN]
    and at the infinities, as [Math.sin]; on a finite argument
    [sin_taylor], whose polynomial leaves [[-1, 1]] for large arguments,
    with its result kept in that range. *)
Definition sin_clamped (x : float) : float :=
  if PrimFloat.is_finite x then
    let s := sin_taylor x in
    if (s <? -1)%float then (-1)%float
    else if (1 <? s)%float then 1%float
    else if is_number s then s else 0%float
  else nan.

Lemma sin_clamped_sine_like : sine_like sin_clamped.
Proof.
  intros x Hx. unfold sin_clamped. rewrite Hx. set (s := sin_taylor x).
  destruct (s <? -1)%float eqn:Elo; [split; reflexivity |].
  destruct (1 <? s)%float eqn:Ehi; [split; reflexivity |].
  destruct (is_number s) eqn:En; [| split; reflexivity].
  split; apply not_ltb_leb; auto.
Qed.

Lemma adds_failed Math_sin l (o : outcome DB) :
  (forall d, o <> Ok d) ->
  forall d,
    fold_left
      (fun o c =>
         do d <- o ;
         addChunk Math_sin d (HNSWGraph.Level (snd c)) (fst (fst c)) (of_ascii_string (snd (fst c))) meta0)
      l o <> Ok d.
Proof.
  revert o. induction l as [| c l IH]; intros o Ho d; cbn [fold_left]; [apply Ho |].
  apply IH. intros d'. destruct o as [d0 | |]; cbn [bind]; try discriminate.
  exfalso. now apply (Ho d0).
Qed.

Lemma adds_generated Math_sin l : forall db db',
  generated Math_sin (dataStore db) ->
  adds Math_sin db l = Ok db' -> generated Math_sin (dataStore db').
Proof.
  unfold adds. induction l as [| c l IH]; intros db db' Hgen; cbn [fold_left].
  - now intros [= <-].
  - cbn [bind].
    destruct (addChunk Math_sin db (HNSWGraph.Level (snd c)) (fst (fst c))
                (of_ascii_string (snd (fst c))) meta0) as [d | |] eqn:Ea.
    + apply IH. eapply addChunk_generated; eauto.
    + intros H. exfalso. revert H. apply adds_failed. discriminate.
    + intros H. exfalso. revert H. apply adds_failed. discriminate.
Qed.

Lemma run_generated Math_sin : generated Math_sin (dataStore (run Math_sin)).
Proof.
  unfold run.
  destruct (adds Math_sin (create 16 200) demo_chunks) as [d | |] eqn:E;
    try apply generated_empty.
  eapply adds_generated; [| exact E]. apply generated_empty.
Qed.

Definition demo_query : text := of_ascii_string "What does it mean to be self-aware?".

Definition blank_query : text := of_ascii_string "   ".

Lemma ultraSearch_blank_or_empty_witness :
  (forallb is_space blank_query = true \/ dataStore demo_db = [])
  /\ ultraSearch sin_taylor demo_db blank_query 5 = Ok [].
Proof.
  assert (H : forallb is_space blank_query = true \/ dataStore demo_db = [])
    by (left; reflexivity).
  split; [exact H |]. exact (ultraSearch_blank_or_empty sin_taylor demo_db blank_query 5 H).
Defined.

Lemma ultraSearch_ranked_witness :
  sine_like sin_clamped
  /\ generated sin_clamped (dataStore (run sin_clamped))
  /\ (Z.of_nat (length demo_query) < 2 ^ 53)%Z
  /\ exists res, ultraSearch sin_clamped (run sin_clamped) demo_query 3 = Ok res
       /\ length res <= 3 /\ descending res.
Proof.
  assert (Hlen : (Z.of_nat (length demo_query) < 2 ^ 53)%Z) by (vm_compute; reflexivity).
  split; [exact sin_clamped_sine_like |]. split; [apply run_generated |].
  split; [exact Hlen |].
  destruct (ultraSearch_ranked sin_clamped (run sin_clamped) demo_query 3
              sin_clamped_sine_like (run_generated sin_clamped) Hlen)
    as (res & E & L & D & _).
  exists res. auto.
Defined.

Lemma small_store_exhaustive_witness :
  length (dataStore demo_db) <= 500
  /\ NoDup (map fst (dataStore demo_db))
  /\ tie_free (map (fun e => combined sin_taylor demo_query (snd e)) (dataStore demo_db))
     = true
  /\ exists res, ultraSearch sin_taylor demo_db demo_query 3 = Ok res
       /\ naiveSearch sin_taylor demo_db demo_query 3 = Ok res
       /\ length res = 3.
Proof.
  assert (Hlen : length (dataStore demo_db) <= 500).
  { apply Nat.leb_le. vm_compute. reflexivity. }
  assert (Hnd : NoDup (map fst (dataStore demo_db))).
  { apply (bool_decide_unpack _). vm_compute. exact I. }
  assert (Ht : tie_free (map (fun e => combined sin_taylor demo_query (snd e))
                           (dataStore demo_db)) = true)
    by (vm_compute; reflexivity).
  split; [exact Hlen |]. split; [exact Hnd |]. split; [exact Ht |].
  destruct (small_store_exhaustive sin_taylor demo_db demo_query 3 Hlen Hnd Ht)
    as (_ & res & E1 & E2 & L & _).
  exists res. split; [exact E1 |]. split; [exact E2 |].
  rewrite L by (vm_compute; reflexivity). vm_compute. reflexivity.
Defined.

End PipelineRuns.

(* ===================================================================== *)
(** * Symmetry of the similarity kernel *)
(* ===================================================================== *)

Module SymmetryFacts.
Import JS Similarity FloatFacts.

Lemma SFmul_comm x y : SF64mul x y = SF64mul y x.
Proof.
  unfold SF64mul, SFmul.
  destruct x as [sx| sx| |sx mx ex], y as [sy| sy| |sy my ey]; try reflexivity;
    try (now rewrite xorb_comm).
  now rewrite xorb_comm, Pos.mul_comm, Z.add_comm.
Qed.

Lemma float_mul_comm (x y : float) : (x * y = y * x)%float.
Proof.
  apply FloatAxioms.Prim2SF_inj. rewrite !FloatAxioms.mul_spec. apply SFmul_comm.
Qed.

Lemma cosine_fold_swap a b l d x y :
  fold_left (cosine_step b a) l (d, y, x)
  = let '(d', x', y') := fold_left (cosine_step a b) l (d, x, y) in (d', y', x').
Proof.
  revert d x y. induction l as [|i l IH]; intros d x y; [reflexivity|].
  cbn [fold_left]. unfold cosine_step at 2 4.
  rewrite (float_mul_comm (at_index b i) (at_index a i)). apply IH.
Qed.

(** X1.  [cosineSimilarity] is symmetric: for all arrays, of any lengths
    and with any entries ([NaN] and infinities included), swapping the two
    arguments returns the same number, bit for bit. *)
Theorem cosineSimilarity_symmetric (a b : Float32Array) :
  cosineSimilarity a b = cosineSimilarity b a.
Proof.
  unfold cosineSimilarity, cosine_branch, cosine_sums.
  rewrite (Nat.min_comm (length b) (length a)).
  rewrite (cosine_fold_swap a b).
  destruct (fold_left (cosine_step a b) _ _) as [[d x] y].
  rewrite (orb_comm (strict_eq y 0)).
  destruct (strict_eq x 0 || strict_eq y 0); [reflexivity|].
  now rewrite (float_mul_comm (sqrt y) (sqrt x)).
Qed.

End SymmetryFacts.

(* ===================================================================== *)
(** * The bit count of the nano distance *)
(* ===================================================================== *)

Module BitCountFacts.
Import JS Types UltraVectorDB JSFacts HammingFacts.
Local Open Scope Z_scope.

(** The number of indices below [n] at which [f] holds. *)
Fixpoint count_upto (f : nat -> bool) (n : nat) : Z :=
  match n with
  | O => 0
  | S n' => count_upto f n' + (if f n' then 1 else 0)
  end.

(** The number of positions, among the 32 of a word, at which two words
    differ. *)
Definition differing_bits (x y : Z) : Z :=
  count_upto (fun j => xorb (Z.testbit x (Z.of_nat j)) (Z.testbit y (Z.of_nat j))) 32.

Definition pop32 (x : Z) : Z := count_upto (fun j => Z.testbit x (Z.of_nat j)) 32.

Lemma count_upto_ext f g n :
  (forall j, (j < n)%nat -> f j = g j) -> count_upto f n = count_upto g n.
Proof.
  induction n as [|n IH]; intros H; [reflexivity|].
  cbn [count_upto]. rewrite IH by (intros; apply H; lia). rewrite (H n) by lia.
  reflexivity.
Qed.

Lemma count_upto_bounds f n : 0 <= count_upto f n <= Z.of_nat n.
Proof.
  induction n as [|n IH]; cbn [count_upto]; [lia|]. destruct (f n); lia.
Qed.

Lemma count_upto_none f n :
  (forall j, (j < n)%nat -> f j = false) -> count_upto f n = 0.
Proof.
  induction n as [|n IH]; intros H; [reflexivity|].
  cbn [count_upto]. rewrite IH by (intros; apply H; lia). rewrite (H n) by lia.
  reflexivity.
Qed.

Lemma count_upto_clear f g n k :
  (k < n)%nat -> f k = true -> g k = false ->
  (forall j, (j < n)%nat -> j <> k -> g j = f j) ->
  count_upto g n = count_upto f n - 1.
Proof.
  induction n as [|n IH]; intros Hk Hf Hg H; [lia|].
  cbn [count_upto]. destruct (decide (k = n)) as [->|Hne].
  - rewrite Hf, Hg. rewrite (count_upto_ext g f n); [lia|].
    intros j Hj. apply H; lia.
  - rewrite IH by (try lia; try assumption; intros; apply H; lia).
    rewrite (H n) by lia. lia.
Qed.

Lemma count_upto_sub f g h n :
  (forall j, (j < n)%nat -> h j = true -> f j = true \/ g j = true) ->
  count_upto h n <= count_upto f n + count_upto g n.
Proof.
  induction n as [|n IH]; intros H; [cbn; lia|].
  cbn [count_upto]. specialize (IH ltac:(intros; apply H; [lia|assumption])).
  specialize (H n ltac:(lia)).
  destruct (h n), (f n), (g n); lia.
Qed.

(** A non-zero 32-bit integer has a lowest set bit. *)
Lemma lowest_set_bit x :
  int32 x -> x <> 0 ->
  exists k, 0 <= k < 32 /\ Z.testbit x k = true /\ low_zero k x.
Proof.
  intros Hx Hne.
  assert (H : forall n : nat,
             low_zero (Z.of_nat n) x
             \/ exists k, 0 <= k < Z.of_nat n /\ Z.testbit x k = true /\ low_zero k x).
  { induction n as [|n [IH|IH]].
    - left. intros j Hj. lia.
    - destruct (Z.testbit x (Z.of_nat n)) eqn:E.
      + right. exists (Z.of_nat n). split; [lia|]. split; assumption.
      + left. intros j Hj. destruct (decide (j = Z.of_nat n)) as [->|]; [assumption|].
        apply IH. lia.
    - right. destruct IH as (k & Hk & Hb & Hl). exists k. split; [lia|]. split; assumption. }
  destruct (H 32%nat) as [Hz|(k & Hk & Hb & Hl)].
  - exfalso. apply Hne. apply low_zero_32; assumption.
  - exists k. split; [lia|]. split; assumption.
Qed.

(** What subtracting one does to the bits at and above the lowest set
    bit. *)
Lemma pred_bits x k :
  0 <= k -> Z.testbit x k = true -> low_zero k x ->
  Z.testbit (x - 1) k = false
  /\ forall j, k < j -> Z.testbit (x - 1) j = Z.testbit x j.
Proof.
  intros Hk Hb Hl.
  pose proof (low_zero_mod k x Hk Hl) as Hm.
  apply Z.testbit_true in Hb; [|assumption].
  assert (Hp : 0 < 2 ^ k) by (apply Z.pow_pos_nonneg; lia).
  set (p := 2 ^ k) in *.
  pose proof (Z.div_mod x p ltac:(lia)) as Hx. rewrite Hm in Hx.
  pose proof (Z.div_mod (x / p) 2 ltac:(lia)) as Hq. rewrite Hb in Hq.
  set (q := x / p / 2) in *.
  assert (Ex : x = 2 * p * q + p) by nia.
  assert (D1 : (x - 1) / p = 2 * q).
  { symmetry. apply (Z.div_unique (x - 1) p (2 * q) (p - 1)); [lia|nia]. }
  split.
  - apply Z.testbit_false; [assumption|]. fold p. rewrite D1.
    rewrite Z.mul_comm. apply Z.mod_mul. lia.
  - intros j Hj.
    assert (D2 : (x - 1) / 2 ^ (k + 1) = x / 2 ^ (k + 1)).
    { rewrite Z.pow_add_r by lia. fold p. change (2 ^ 1) with 2.
      transitivity q.
      - symmetry. apply (Z.div_unique (x - 1) (p * 2) q (p - 1)); [lia|nia].
      - apply (Z.div_unique x (p * 2) q p); [lia|nia]. }
    replace j with ((j - (k + 1)) + (k + 1)) by lia.
    rewrite <- !Z.div_pow2_bits by lia. now rewrite D2.
Qed.

Lemma band_bits x y j :
  0 <= j < 32 -> Z.testbit (band x y) j = Z.testbit x j && Z.testbit y j.
Proof.
  intros Hj. unfold band. rewrite toInt32_bits, Z.land_spec, !toInt32_bits by lia.
  reflexivity.
Qed.

Lemma bxor_bits x y j :
  0 <= j < 32 -> Z.testbit (bxor x y) j = xorb (Z.testbit x j) (Z.testbit y j).
Proof.
  intros Hj. unfold bxor. rewrite toInt32_bits, Z.lxor_spec, !toInt32_bits by lia.
  reflexivity.
Qed.

(** [x & (x - 1)] clears exactly one set bit. *)
Lemma pop32_clear x : int32 x -> x <> 0 -> pop32 (band x (x - 1)) = pop32 x - 1.
Proof.
  intros Hx Hne. destruct (lowest_set_bit x Hx Hne) as (k & Hk & Hb & Hl).
  destruct (pred_bits x k ltac:(lia) Hb Hl) as [Pk Pj].
  unfold pop32. apply (count_upto_clear _ _ 32 (Z.to_nat k)).
  - lia.
  - rewrite Z2Nat.id by lia. exact Hb.
  - rewrite Z2Nat.id by lia. rewrite band_bits by lia. rewrite Hb, Pk. reflexivity.
  - intros j Hj Hjk. rewrite band_bits by lia.
    destruct (Z_lt_le_dec (Z.of_nat j) k) as [Hlt|Hge].
    + rewrite (Hl (Z.of_nat j)) by lia. reflexivity.
    + rewrite Pj by lia. apply andb_diag.
Qed.

Lemma pop32_zero : pop32 0 = 0.
Proof. reflexivity. Qed.

Lemma pop32_bounds x : 0 <= pop32 x <= 32.
Proof. exact (count_upto_bounds _ 32). Qed.

Lemma count_bits_pop fuel : forall x c,
  int32 x -> pop32 x < Z.of_nat fuel -> count_bits fuel x c = Ok (c + pop32 x).
Proof.
  induction fuel as [|fuel IH]; intros x c Hx Hf.
  - pose proof (pop32_bounds x) as Hb. exfalso.
    generalize dependent (pop32 x). intros. lia.
  - cbn [count_bits]. destruct (x =? 0) eqn:E.
    + apply Z.eqb_eq in E. subst x. rewrite pop32_zero, Z.add_0_r. reflexivity.
    + apply Z.eqb_neq in E.
      pose proof (pop32_clear x Hx E) as Hc.
      rewrite IH.
      * rewrite Hc. f_equal. generalize (pop32 x). intros. lia.
      * apply band_int32.
      * rewrite Hc. rewrite Nat2Z.inj_succ in Hf.
        generalize dependent (pop32 x). intros. lia.
Qed.

Lemma nanoHammingDistance_differing a b :
  nanoHammingDistance a b = Ok (differing_bits (word0 a) (word0 b)).
Proof.
  unfold nanoHammingDistance. cbv zeta. rewrite count_bits_pop.
  - f_equal. rewrite Z.add_0_l. unfold pop32, differing_bits.
    apply count_upto_ext. intros j Hj. apply bxor_bits. lia.
  - apply bxor_int32.
  - pose proof (pop32_bounds (bxor (word0 a) (word0 b))) as Hb.
    generalize dependent (pop32 (bxor (word0 a) (word0 b))). intros.
    change (Z.of_nat 33) with 33. lia.
Qed.

(** X2.  [nanoHammingDistance] returns the number of bit positions, among
    the 32 of a word, at which the first words of the two arrays differ
    (a missing first word counts as 0): the loop [x &= x - 1] runs once
    per set bit of the exclusive or. *)
Theorem nanoHammingDistance_counts_bits (a b : Uint32Array) :
  nanoHammingDistance a b = Ok (differing_bits (word0 a) (word0 b))
  /\ 0 <= differing_bits (word0 a) (word0 b) <= 32.
Proof.
  split; [apply nanoHammingDistance_differing|].
  apply (count_upto_bounds _ 32).
Qed.

(** X3.  The nano distance satisfies the triangle inequality: going
    through a third array never gives a smaller total. *)
Theorem nanoHammingDistance_triangle (a b c : Uint32Array) :
  exists dab dbc dac,
    nanoHammingDistance a b = Ok dab
    /\ nanoHammingDistance b c = Ok dbc
    /\ nanoHammingDistance a c = Ok dac
    /\ dac <= dab + dbc.
Proof.
  exists (differing_bits (word0 a) (word0 b)), (differing_bits (word0 b) (word0 c)),
    (differing_bits (word0 a) (word0 c)).
  repeat split; try apply nanoHammingDistance_differing.
  unfold differing_bits. apply count_upto_sub. intros j _.
  destruct (Z.testbit (word0 a) _), (Z.testbit (word0 b) _), (Z.testbit (word0 c) _);
    cbn; auto.
Qed.

End BitCountFacts.

(* ===================================================================== *)
(** * Numbers the scorers return *)
(* ===================================================================== *)

Module NumberFacts.
Import JS Similarity Types MatryoshkaGenerator FloatFacts FloatBounds ScoreBounds
  GeneratorBounds.

Lemma nonneg_leb_zero x : nonneg x -> (0 <=? x)%float = true.
Proof.
  unfold nonneg. rewrite FloatAxioms.leb_spec. change (Prim2SF 0) with (S754_zero false).
  destruct (Prim2SF x) as [| [] | | [] ? ?]; cbn; try discriminate; try contradiction; auto.
Qed.

Section Provider.
Variable Math_sin : float -> float.

(** X4.  The late-interaction score is never [NaN] and never negative,
    whatever the stored token embeddings and weights hold ([NaN]
    included): a similarity only replaces the running maximum, which
    starts at 0, when it is greater. *)
Theorem score_not_negative (query : text) (doc : ColbertData) :
  (Z.of_nat (length query) < 2 ^ 53)%Z ->
  is_number (ColBERTEngine.score Math_sin query doc) = true
  /\ (0 <=? ColBERTEngine.score Math_sin query doc)%float = true.
Proof.
  intros Hlen. pose proof (score_nonneg Math_sin query doc Hlen) as H.
  split; [now apply nonneg_number | now apply nonneg_leb_zero].
Qed.

(** X5.  With a sine that maps every finite argument into [-1, 1]
    (nothing is asked of it at [NaN] and the infinities, where [Math.sin]
    returns [NaN]), the cosine similarity of the full embeddings of any
    two texts, and of their 256-entry medium prefixes (the vectors the
    graph index compares), is a finite number: no division by zero or
    overflow produces [NaN] or an infinity. *)
Theorem generated_similarity_finite (t1 t2 : text) :
  sine_like Math_sin ->
  let m1 := fst (generateAll Math_sin t1) in
  let m2 := fst (generateAll Math_sin t2) in
  PrimFloat.is_finite (cosineSimilarity (full m1) (full m2)) = true
  /\ PrimFloat.is_finite (cosineSimilarity (medium m1) (medium m2)) = true.
Proof.
  intros Hs m1 m2.
  destruct (generateAll_full_small Math_sin Hs t1) as [S1 L1].
  destruct (generateAll_full_small Math_sin Hs t2) as [S2 L2].
  fold m1 in S1, L1. fold m2 in S2, L2. split.
  - apply (mag_le_finite _ 1 309). apply cosine_finite; try assumption. lia.
  - apply (mag_le_finite _ 1 309).
    assert (M1 : medium m1 = firstn 256 (full m1)) by reflexivity.
    assert (M2 : medium m2 = firstn 256 (full m2)) by reflexivity.
    rewrite M1, M2. apply cosine_finite.
    + apply Forall_take. exact S1.
    + apply Forall_take. exact S2.
    + rewrite !length_firstn. lia.
Qed.

End Provider.

Lemma score_not_negative_witness :
  (Z.of_nat (length (of_ascii_string "vector search")) < 2 ^ 53)%Z
  /\ (0 <=? ColBERTEngine.score sin_taylor (of_ascii_string "vector search")
              (snd (generateAll sin_taylor (of_ascii_string "graph search"))))%float
     = true.
Proof.
  split; [vm_compute; reflexivity|].
  apply (score_not_negative sin_taylor (of_ascii_string "vector search")).
  vm_compute. reflexivity.
Defined.

Lemma generated_similarity_finite_witness :
  sine_like PipelineRuns.sin_clamped
  /\ PrimFloat.is_finite
       (cosineSimilarity
          (medium (fst (generateAll PipelineRuns.sin_clamped (of_ascii_string "alpha"))))
          (medium (fst (generateAll PipelineRuns.sin_clamped (of_ascii_string "beta gamma")))))
     = true.
Proof.
  split; [exact PipelineRuns.sin_clamped_sine_like|].
  apply (generated_similarity_finite PipelineRuns.sin_clamped
           (of_ascii_string "alpha") (of_ascii_string "beta gamma")
           PipelineRuns.sin_clamped_sine_like).
Defined.

End NumberFacts.

(* ===================================================================== *)
(** * What the late-interaction score reads of a text *)
(* ===================================================================== *)

Module TokenFacts.
Import JS Similarity Types MatryoshkaGenerator.

(** The lengths of the white-space separated tokens of a text. *)
Definition token_lengths (t : text) : list nat := map (@length N) (split_ws t).

Lemma map_by_length {B} (f : text -> B) (g : nat -> B) (l l' : list text) :
  (forall t, f t = g (length t)) ->
  map (@length N) l = map (@length N) l' -> map f l = map f l'.
Proof.
  intros Hf. revert l'. induction l as [| x l IH]; intros [| x' l'] H; try discriminate.
  - reflexivity.
  - cbn [map] in *. inversion H as [[Hx Hl]]. rewrite !Hf, Hx. f_equal. now apply IH.
Qed.

Section Provider.
Variable Math_sin : float -> float.

(** X6.  The late-interaction score reads a text only through the
    lengths of its tokens: two queries whose tokens have the same lengths
    in the same order score the same against a document, and two
    documents generated from contents with the same token lengths score
    the same against a query, whatever the words are. *)
Theorem score_token_lengths (q q' t t' : text) :
  token_lengths q = token_lengths q' -> token_lengths t = token_lengths t' ->
  ColBERTEngine.score Math_sin q (snd (generateAll Math_sin t))
  = ColBERTEngine.score Math_sin q' (snd (generateAll Math_sin t')).
Proof.
  unfold token_lengths. intros Hq Ht.
  unfold ColBERTEngine.score. cbn [generateAll snd tokens embeddings importance].
  assert (Lq : length (split_ws q) = length (split_ws q')).
  { pose proof (f_equal (@length nat) Hq) as H. now rewrite !List.length_map in H. }
  assert (Lt : length (split_ws t) = length (split_ws t')).
  { pose proof (f_equal (@length nat) Ht) as H. now rewrite !List.length_map in H. }
  assert (Eq : map (ColBERTEngine.makeQueryTokenEmbedding Math_sin) (split_ws q)
               = map (ColBERTEngine.makeQueryTokenEmbedding Math_sin) (split_ws q')).
  { apply (map_by_length _ (fun n => map (fun j => fround (Math_sin (ofNat (n + j) * 0.05)))
                                        (seq 0 32))); [reflexivity | exact Hq]. }
  assert (Et : map (token_embedding Math_sin 0.1) (split_ws t)
               = map (token_embedding Math_sin 0.1) (split_ws t')).
  { apply (map_by_length _ (fun n => map (fun j => fround (Math_sin (ofNat (n + j) * 0.1)))
                                        (seq 0 32))); [reflexivity | exact Ht]. }
  assert (Ei : map (fun _ : text => fround 1) (split_ws t)
               = map (fun _ : text => fround 1) (split_ws t')).
  { apply (map_by_length _ (fun _ => fround 1)); [reflexivity | exact Ht]. }
  rewrite !length_map. rewrite Lq, Lt, Eq, Et, Ei. reflexivity.
Qed.

End Provider.

Lemma score_token_lengths_witness :
  token_lengths (of_ascii_string "red fox") = token_lengths (of_ascii_string "big  cat")
  /\ ColBERTEngine.score sin_taylor (of_ascii_string "red fox")
       (snd (generateAll sin_taylor (of_ascii_string "a quick note")))
     = ColBERTEngine.score sin_taylor (of_ascii_string "big  cat")
         (snd (generateAll sin_taylor (of_ascii_string "I think  much"))).
Proof.
  split; [reflexivity |].
  apply (score_token_lengths sin_taylor); reflexivity.
Defined.

End TokenFacts.

(* ===================================================================== *)
(** * The range of the generated values *)
(* ===================================================================== *)

Module RangeFacts.
Import JS Similarity Types MatryoshkaGenerator FloatFacts FloatBounds ScoreBounds
  GeneratorBounds NumberFacts.
Local Open Scope Z_scope.

(** A magnitude bound read as two comparisons with a finite number. *)
Lemma mag_le_between x N E (c : positive) (ec : Z) :
  mag_le x N E -> N * P E <= Zpos c * P ec -> Zpos c < 2 ^ 53 -> -1074 <= ec ->
  SFleb (S754_finite true c ec) (Prim2SF x) = true
  /\ SFleb (Prim2SF x) (S754_finite false c ec) = true.
Proof.
  unfold mag_le. intros Hx Hc Hc53 Hec. spec_of x; try contradiction.
  - split; reflexivity.
  - destruct V as (He & Hd & Hcan).
    pose proof (P_pos ec ltac:(lia)) as HPec.
    pose proof (P_pos e ltac:(lia)) as HPe.
    assert (K : e <= ec).
    { destruct (Z.le_gt_cases e ec) as [| Hgt]; [assumption | exfalso].
      destruct Hcan as [-> | Hd53]; [lia |].
      pose proof (digits2_bounds m) as [Hlo _]. rewrite Hd53 in Hlo.
      change (2 ^ (53 - 1)) with (2 ^ 52) in Hlo.
      pose proof (P_le (ec + 1) e ltac:(lia) ltac:(lia)) as Hle.
      rewrite (P_add ec 1) in Hle by lia. change (2 ^ 1) with 2 in Hle.
      assert (2 ^ 52 * (P ec * 2) <= Zpos m * P e) by nia.
      change (2 ^ 53) with (2 ^ 52 * 2) in Hc53.
      assert (Zpos c * P ec < 2 ^ 52 * 2 * P ec) by nia. lia. }
    assert (L : e = ec -> Zpos m <= Zpos c).
    { intros ->. nia. }
    unfold SFleb. cbn [SFcompare]. rewrite !Pos.compare_cont_spec. cbn [Pos.switch_Eq].
    destruct s.
    + split; [| reflexivity].
      destruct (Z.compare_spec ec e) as [E' | E' | E']; try reflexivity; try lia.
      symmetry in E'. specialize (L E').
      destruct (Pos.compare_spec c m) as [? | ? | ?]; cbn [CompOpp]; try reflexivity; lia.
    + split; [reflexivity |].
      destruct (Z.compare_spec e ec) as [E' | E' | E']; try reflexivity; try lia.
      specialize (L E').
      destruct (Pos.compare_spec m c) as [? | ? | ?]; try reflexivity; lia.
Qed.

Lemma three_halves_spec : Prim2SF 1.5 = S754_finite false 6755399441055744 (-52).
Proof. vm_compute. reflexivity. Qed.

Lemma minus_three_halves_spec : Prim2SF (-1.5) = S754_finite true 6755399441055744 (-52).
Proof. vm_compute. reflexivity. Qed.

Lemma mag_le_three_halves x :
  mag_le x 3 (-1) -> (-1.5 <=? x)%float = true /\ (x <=? 1.5)%float = true.
Proof.
  intros H. rewrite !FloatAxioms.leb_spec, three_halves_spec, minus_three_halves_spec.
  apply (mag_le_between x 3 (-1)); [exact H | | lia | lia].
  assert (HP : P (-1) = P (-52) * 2 ^ 51) by (apply (P_add (-52) 51); lia).
  rewrite HP. change (2 ^ 51) with 2251799813685248.
  pose proof (P_pos (-52) ltac:(lia)). nia.
Qed.

Lemma mag_le_one x : mag_le x 1 0 -> (x <=? 1)%float = true.
Proof.
  intros H. rewrite FloatAxioms.leb_spec, one_spec.
  apply (mag_le_between x 1 0); [exact H | | lia | lia].
  assert (HP : P 0 = P (-52) * 2 ^ 52) by (apply (P_add (-52) 52); lia).
  rewrite HP. change (2 ^ 52) with 4503599627370496. lia.
Qed.

Lemma ofZ_nonneg u : 0 <= u < 2 ^ 63 -> nonneg (ofZ u).
Proof.
  intros Hu. destruct u as [| p | p]; [exact I | | lia].
  pose proof (ofNat_pos_finite (Pos.to_nat p)) as H. unfold ofNat in H.
  rewrite positive_nat_Z in H. specialize (H ltac:(lia) ltac:(lia)).
  unfold pos_finite in H. unfold nonneg. destruct (Prim2SF (ofZ (Z.pos p))) as [| | | [] ? ?];
    try contradiction; reflexivity.
Qed.

Lemma two_32_pos_finite : pos_finite 4294967296.
Proof. vm_compute. exact I. Qed.

(** X7.  Every call of the generator that [seededRandom] returns yields
    a number between 0 and 1, whatever the state. *)
Theorem rand_step_range (x : Z) :
  (0 <=? fst (rand_step x))%float = true /\ (fst (rand_step x) <=? 1)%float = true.
Proof.
  split.
  - apply nonneg_leb_zero. unfold rand_step. cbn [fst].
    apply nonneg_div; [| exact two_32_pos_finite].
    apply ofZ_nonneg. unfold ushr0. pose proof (JSFacts.toUint32_range
      (bxor (bxor (bxor x (shl x 13)) (sar (bxor x (shl x 13)) 17))
            (shl (bxor (bxor x (shl x 13)) (sar (bxor x (shl x 13)) 17)) 5))).
    lia.
  - apply mag_le_one. apply rand_step_mag.
Qed.

Section Provider.
Variable Math_sin : float -> float.

(** X8.  With a sine that maps every finite argument into [-1, 1]
    (nothing is asked of it at [NaN] and the infinities), every entry of a
    generated full embedding, and so of the medium and small prefixes
    cut from it, is a number between -1.5 and 1.5. *)
Theorem generated_entries_range (t : text) :
  sine_like Math_sin ->
  Forall (fun v => (-1.5 <=? v)%float = true /\ (v <=? 1.5)%float = true)
         (full (fst (generateAll Math_sin t))).
Proof.
  intros Hs. destruct (generateAll_full_small Math_sin Hs t) as [Hsmall _].
  eapply Forall_impl; [exact Hsmall |]. intros v [Hv _]. now apply mag_le_three_halves.
Qed.

End Provider.

Lemma generated_entries_range_witness :
  sine_like PipelineRuns.sin_clamped
  /\ Forall (fun v => (-1.5 <=? v)%float = true /\ (v <=? 1.5)%float = true)
       (full (fst (generateAll PipelineRuns.sin_clamped (of_ascii_string "alpha")))).
Proof.
  split; [exact PipelineRuns.sin_clamped_sine_like |].
  exact (generated_entries_range PipelineRuns.sin_clamped (of_ascii_string "alpha")
           PipelineRuns.sin_clamped_sine_like).
Defined.

End RangeFacts.

(* ===================================================================== *)
(** * Insertion and search on any graph state *)
(* ===================================================================== *)

Module GraphFacts.
Import JS Similarity HNSWGraph SortFacts SearchFacts InsertFacts InvariantFacts.

(** ** What an insertion never changes *)

Lemma link_same newId l M st x : same_node (snd st) (snd (link newId l M st x)).
Proof.
  destruct st as [g nn]. destruct (link newId l M (g, nn) x) as [g' nn'] eqn:E.
  now destruct (link_spec _ _ _ _ _ _ _ _ E) as [Hs _].
Qed.

Lemma link_dom newId l M st x k :
  is_Some (fst (link newId l M st x) !! k) <-> is_Some (fst st !! k).
Proof.
  destruct st as [g nn]. destruct (link newId l M (g, nn) x) as [g' nn'] eqn:E.
  destruct (link_spec _ _ _ _ _ _ _ _ E) as (_ & _ & Hne & Hx). cbn [fst].
  destruct (decide (k = x)) as [-> | Hk]; [| now rewrite Hne].
  destruct (g !! x) as [nx |].
  - destruct Hx as (nx' & -> & _). split; eauto.
  - now rewrite Hx.
Qed.

Lemma fold_link_same newId l M sel : forall st,
  same_node (snd st) (snd (fold_left (link newId l M) sel st))
  /\ forall k, is_Some (fst (fold_left (link newId l M) sel st) !! k)
               <-> is_Some (fst st !! k).
Proof.
  induction sel as [| x sel IH]; intros st; cbn [fold_left].
  - split; [apply same_node_refl | reflexivity].
  - destruct (IH (link newId l M st x)) as [Hs Hd]. split.
    + eapply same_node_trans; [apply link_same | exact Hs].
    + intros k. rewrite Hd. apply link_dom.
Qed.

Lemma connect_same newId v M efC layers : forall cur st st',
  connect newId v M efC layers cur st = Ok st' ->
  same_node (snd st) (snd st')
  /\ forall k, is_Some (fst st' !! k) <-> is_Some (fst st !! k).
Proof.
  induction layers as [| l layers IH]; intros cur st st' E; cbn [connect] in E.
  - inversion E; subst. split; [apply same_node_refl | reflexivity].
  - destruct (searchLayer (fst st) v efC l cur) as [cands | |]; try discriminate.
    cbn [bind] in E. apply IH in E as [Hs Hd].
    destruct (fold_link_same newId l M (selectNeighbors (fst st) cands M v) st)
      as [Hs' Hd'].
    split.
    + eapply same_node_trans; [exact Hs' | exact Hs].
    + intros k. rewrite Hd. apply Hd'.
Qed.

(** The shape of the state an insertion with [efConstruction >= 1]
    returns: the new node is put on a map that has the keys of the old
    one. *)
Lemma insert_shape (h : HNSW) (lv : nat) (newId : string) (v : Float32Array) :
  1 <= efConstruction h ->
  exists g1 nn maxLevel' entry',
    insert h (Level lv) newId v
    = Ok {| graph := <[newId := nn]> g1; maxLevel := maxLevel';
            entryPointId := Some entry';
            M := M h; efConstruction := efConstruction h |}
    /\ id nn = newId /\ vector nn = v /\ level nn = lv
    /\ forall k, is_Some (g1 !! k) <-> is_Some (graph h !! k).
Proof.
  intros HefC. unfold insert.
  set (newNode := {| id := newId; vector := v; level := lv;
                     neighbors := fresh_neighbors lv |}).
  assert (Hfirst : exists g1 nn maxLevel' entry',
            Ok {| graph := <[newId := newNode]> (graph h); maxLevel := lv;
                  entryPointId := Some newId; M := M h;
                  efConstruction := efConstruction h |}
            = Ok {| graph := <[newId := nn]> g1; maxLevel := maxLevel';
                    entryPointId := Some entry';
                    M := M h; efConstruction := efConstruction h |}
            /\ id nn = newId /\ vector nn = v /\ level nn = lv
            /\ forall k, is_Some (g1 !! k) <-> is_Some (graph h !! k)).
  { exists (graph h), newNode, lv, newId. repeat split; auto. }
  destruct (entryPointId h) as [e |]; [| exact Hfirst].
  destruct (size (graph h) =? 0); [exact Hfirst |]. clear Hfirst.
  destruct (descend_spec (graph h) v
              (layers_down (if maxLevel h <? lv then lv else maxLevel h) lv)
              (if maxLevel h <? lv then newId else e)) as (cur & -> & _).
  cbn [bind].
  destruct (connect_returns newId v (M h) (efConstruction h) (S lv) cur
              (graph h, newNode) HefC) as (st & Ec).
  rewrite Ec. cbn [bind].
  destruct (connect_same _ _ _ _ _ _ _ _ Ec) as [(Hid & Hvec & Hlv) Hdom].
  cbn [fst snd] in Hid, Hvec, Hlv, Hdom.
  eexists (fst st), (snd st), _, _. split; [reflexivity |].
  split; [exact Hid |]. split; [exact Hvec |]. split; [exact Hlv | exact Hdom].
Qed.

(** ** The loop that sets up the layers of a new node *)

Lemma init_neighbors_steps lv k : forall l m fuel,
  k < fuel -> l + k = S lv ->
  init_neighbors fuel l (Level lv) m
  = Ok (fold_left (fun m l => <[l := []]> m) (seq l k) m).
Proof.
  induction k as [| k IH]; intros l m [| fuel] Hf Hl; try lia; cbn [init_neighbors within].
  - rewrite (proj2 (Nat.leb_gt l lv)) by lia. reflexivity.
  - rewrite (proj2 (Nat.leb_le l lv)) by lia. cbn [seq fold_left].
    apply IH; lia.
Qed.

(** For a drawn integer the loop exits after [level + 1] rounds and
    leaves the sets [fresh_neighbors level]. *)
Lemma init_neighbors_level lv fuel :
  lv + 2 <= fuel -> init_neighbors fuel 0 (Level lv) ∅ = Ok (fresh_neighbors lv).
Proof. intros Hf. apply init_neighbors_steps; lia. Qed.

(** On the [Infinity] draw no number of rounds ends it. *)
Lemma init_neighbors_endless fuel : forall l m,
  init_neighbors fuel l InfiniteLevel m = OutOfFuel.
Proof.
  induction fuel as [| fuel IH]; intros l m; [reflexivity |].
  cbn [init_neighbors within]. apply IH.
Qed.

(** X9.  With [efConstruction >= 1], [insert] returns normally exactly
    when the level it draws is an integer, on every graph state and also
    for an id that is already stored: the first loop then sets up the
    layers [0 .. level], the loop of [searchLayer] ends and no
    [undefined] candidate is read.  Afterwards the id maps to a node with
    the given vector and level, an entry point is set, and the stored ids
    are the previous ones and the new one: an insertion never removes a
    node.  On the [Infinity] draw ([Math.random()] returning 0) the first
    loop never exits, whatever the number of rounds, and the call does
    not return. *)
Theorem insert_total (h : HNSW) (level : drawn) (newId : string) (v : Float32Array) :
  1 <= efConstruction h ->
  match level with
  | Level lv =>
      (forall fuel, lv + 2 <= fuel ->
         init_neighbors fuel 0 (Level lv) ∅ = Ok (fresh_neighbors lv))
      /\ exists h' nn,
           insert h (Level lv) newId v = Ok h'
           /\ graph h' !! newId = Some nn
           /\ id nn = newId /\ vector nn = v /\ HNSWGraph.level nn = lv
           /\ is_Some (entryPointId h')
           /\ M h' = M h /\ efConstruction h' = efConstruction h
           /\ forall k, is_Some (graph h' !! k) <-> k = newId \/ is_Some (graph h !! k)
  | InfiniteLevel =>
      (forall fuel, init_neighbors fuel 0 InfiniteLevel ∅ = OutOfFuel)
      /\ insert h InfiniteLevel newId v = OutOfFuel
  end.
Proof.
  intros HefC. destruct level as [lv |].
  2:{ split; [intros fuel; apply init_neighbors_endless | reflexivity]. }
  split; [intros fuel Hf; now apply init_neighbors_level |].
  destruct (insert_shape h lv newId v HefC)
    as (g1 & nn & ml & e' & -> & Hid & Hvec & Hlv & Hdom).
  eexists. exists nn. split; [reflexivity |].
  cbn [graph entryPointId M efConstruction].
  split; [apply lookup_insert_eq |].
  split; [exact Hid |]. split; [exact Hvec |]. split; [exact Hlv |].
  split; [eauto |]. split; [reflexivity |]. split; [reflexivity |].
  intros k. destruct (decide (k = newId)) as [-> | Hk].
  - rewrite lookup_insert_eq. split; eauto.
  - rewrite lookup_insert_ne by congruence. rewrite Hdom.
    split; [auto | intros [? | ?]; congruence || auto].
Qed.

(** ** A node drawn above the top layer *)

Lemma connect_missing newId v M efC g nn cur layers :
  g !! cur = None -> connect newId v M efC layers cur (g, nn) = Ok (g, nn).
Proof.
  intros Hc. induction layers as [| l layers IH]; cbn [connect]; [reflexivity |].
  cbn [fst]. unfold searchLayer at 1. rewrite Hc. cbn [bind].
  unfold selectNeighbors. cbn [length]. rewrite (proj2 (Nat.leb_le 0 M)) by lia.
  cbn [fold_left]. exact IH.
Qed.

(** A stored node without neighbours at a layer is all a search of that
    layer finds from it. *)
Lemma searchLayer_alone g q ef l i n :
  g !! i = Some n -> layer_set n l = [] -> 1 <= ef ->
  searchLayer g q ef l i = Ok [i].
Proof.
  intros Hi Hl Hef. unfold searchLayer. rewrite Hi. cbn [search_loop sort sort_insert sid].
  rewrite Hi, Hl. cbn [expand bind sort sort_insert].
  destruct ef as [| ef]; [lia |]. unfold slice0. cbn [firstn]. rewrite firstn_nil.
  reflexivity.
Qed.

Lemma descend_alone g q i n layers :
  g !! i = Some n -> (forall l, layer_set n l = []) ->
  descend g q layers i = Ok i.
Proof.
  intros Hi Hl. induction layers as [| l layers IH]; cbn [descend]; [reflexivity |].
  rewrite (searchLayer_alone g q 1 l i n Hi (Hl l)) by lia. cbn [bind]. exact IH.
Qed.

(** X10.  Inserting a new id whose drawn level is an integer above
    [maxLevel] into a non-empty graph stores the node with empty
    neighbour sets and touches no other node: the entry point has already
    been moved to the new id, which is not in the map yet, so every layer
    search starts from a missing node and returns no candidate.  The new
    node is the entry point, and a following search returns this one id
    whatever the query.  The [Infinity] draw is above every [maxLevel]
    too, but on it the call does not return. *)
Theorem insert_above_top (h : HNSW) (lv : nat) (newId : string) (v : Float32Array) :
  is_Some (entryPointId h) -> size (graph h) <> 0 ->
  graph h !! newId = None -> maxLevel h < lv ->
  (exists h',
     insert h (Level lv) newId v = Ok h'
     /\ graph h' = <[newId := {| id := newId; vector := v; level := lv;
                                 neighbors := fresh_neighbors lv |}]> (graph h)
     /\ entryPointId h' = Some newId /\ maxLevel h' = lv
     /\ (newId <> EmptyString ->
         forall q ef targetLevel, 1 <= ef -> search h' q ef targetLevel = Ok [newId]))
  /\ insert h InfiniteLevel newId v = OutOfFuel
  /\ forall fuel, init_neighbors fuel 0 InfiniteLevel ∅ = OutOfFuel.
Proof.
  intros [e He] Hsize Hfresh Hlv.
  split; [| split; [reflexivity | intros fuel; apply init_neighbors_endless]].
  unfold insert. rewrite He.
  rewrite (proj2 (Nat.eqb_neq _ _) Hsize). rewrite (proj2 (Nat.ltb_lt _ _) Hlv).
  rewrite layers_down_nil by lia. cbn [descend bind].
  rewrite connect_missing by exact Hfresh. cbn [bind fst snd].
  eexists. split; [reflexivity |]. cbn [graph entryPointId maxLevel].
  split; [reflexivity |]. split; [reflexivity |]. split; [reflexivity |].
  intros Hne q ef t Hef. unfold search. cbn [graph entryPointId maxLevel].
  rewrite bool_decide_eq_false_2 by exact Hne.
  set (nn := {| id := newId; vector := v; level := lv; neighbors := fresh_neighbors lv |}).
  assert (Hn : <[newId := nn]> (graph h) !! newId = Some nn) by apply lookup_insert_eq.
  assert (Hl : forall l, layer_set nn l = []).
  { intros l. now apply (fresh_layer_set lv). }
  rewrite (lookup_size_ne_0 _ newId) by (rewrite Hn; eauto). cbn [orb].
  rewrite (descend_alone _ q newId nn _ Hn Hl). cbn [bind].
  now apply (searchLayer_alone _ q ef t newId nn).
Qed.

(** ** Graphs built by insertions of distinct ids *)

(** No node lists itself as a neighbour. *)
Definition no_self (g : gmap string HNSWNode) : Prop :=
  forall k n l, g !! k = Some n -> k ∉ layer_set n l.

Lemma insert_no_self h lv newId v h' :
  Inv h -> no_self (graph h) -> graph h !! newId = None ->
  insert h (Level lv) newId v = Ok h' -> no_self (graph h').
Proof.
  intros (Hwf & Hll & Hent) Hns Hfresh E. unfold insert in E.
  set (newNode := {| id := newId; vector := v; level := lv;
                     neighbors := fresh_neighbors lv |}) in *.
  assert (Hfirst : no_self (<[newId := newNode]> (graph h))).
  { intros k n l Hk. destruct (decide (k = newId)) as [-> | Hne].
    - rewrite lookup_insert_eq in Hk. inversion Hk; subst n.
      rewrite (fresh_layer_set lv l newNode eq_refl). apply not_elem_of_nil.
    - rewrite lookup_insert_ne in Hk by congruence. now apply (Hns k n l). }
  unfold entry_ok in Hent.
  destruct (entryPointId h) as [e |] eqn:He.
  2:{ inversion E; subst h'. exact Hfirst. }
  destruct (size (graph h) =? 0).
  { inversion E; subst h'. exact Hfirst. }
  clear Hfirst. destruct Hent as (ne & Hne & Hnelv & Hmax).
  set (raised := maxLevel h <? lv) in *.
  set (maxLevel' := if raised then lv else maxLevel h) in *.
  set (entry' := if raised then newId else e) in *.
  destruct (descend (graph h) v (layers_down maxLevel' lv) entry') as [cur | |] eqn:Ed;
    try discriminate.
  cbn [bind] in E.
  destruct (connect newId v (M h) (efConstruction h) (rev (seq 0 (S lv))) cur
              (graph h, newNode)) as [[g1 nn1] | |] eqn:Ec; try discriminate.
  cbn [bind fst snd] in E. inversion E; subst h'. clear E.
  pose proof (linked_levels_closed _ Hll) as Hcl.
  assert (Hentry' : is_Some (graph h !! entry') ->
                    forall l, l <= maxLevel' -> reaches (graph h) l entry').
  { subst entry' maxLevel' raised. destruct (Nat.ltb_spec (maxLevel h) lv).
    - rewrite Hfresh. intros [? ?]; discriminate.
    - intros _ l Hl. exists ne. split; [exact Hne | lia]. }
  assert (HmaxLevel' : lv <= maxLevel').
  { subst maxLevel' raised. destruct (Nat.ltb_spec (maxLevel h) lv); lia. }
  pose proof (descend_sound (graph h) v (reaches (graph h)) (reaches_mono (graph h)) Hcl
                lv maxLevel' entry' cur Hentry' Ed) as Hcur.
  destruct (connect_spec newId v (M h) (efConstruction h) (reaches (graph h))
              (reaches_mono (graph h)) (S lv) cur (graph h) newNode g1 nn1 Hcl)
    as (Hs & Hoth & Hev & Hlay).
  { rewrite Hfresh. intros [? ?]; discriminate. }
  { intros Hc l Hl. apply Hcur; [exact Hc | lia | lia]. }
  { exact Ec. }
  cbn [graph]. intros k n l Hk Hin.
  destruct (decide (k = newId)) as [-> | Hkne].
  - rewrite lookup_insert_eq in Hk. inversion Hk; subst n.
    destruct (Nat.le_gt_cases l lv) as [Hl | Hl].
    + destruct (Hlay l ltac:(lia)) as (sel & _ & _ & _ & Hsel & _ & _ & Hset & _).
      rewrite (fresh_layer_set lv l newNode eq_refl) in Hset.
      destruct (set_of_list_from sel [] (NoDup_nil_2 (A:=string))) as (_ & Hrm & _).
      cbn zeta in Hrm. rewrite <- Hset in Hrm.
      apply Hrm in Hin as [Hin | Hin]; [inversion Hin |].
      destruct (Hsel newId Hin) as [[? Hx] _]. congruence.
    + unfold layer_set in Hin. rewrite Hoth in Hin by lia.
      unfold newNode in Hin. cbn [neighbors] in Hin.
      rewrite fresh_neighbors_lookup, bool_decide_eq_false_2 in Hin by lia.
      inversion Hin.
  - rewrite lookup_insert_ne in Hk by congruence.
    destruct (evolves_lookup _ _ _ _ _ Hev Hk) as (n0 & Hk0 & _ & Hkeep).
    destruct (Nat.le_gt_cases l lv) as [Hl | Hl].
    + destruct (Hlay l ltac:(lia)) as (sel & _ & _ & _ & _ & _ & _ & _ & _ & Hnodes).
      destruct (Hnodes k n0 n Hk0 Hk) as [Hout Hsel].
      destruct (decide (k ∈ sel)) as [Hks | Hks].
      * destruct (Hsel Hks) as (T & HT & (_ & Hsub & _)).
        rewrite (layer_set_lookup _ _ _ HT) in Hin.
        destruct (Hsub k Hin) as [-> | Hin0]; [congruence |].
        now apply (Hns k n0 l).
      * unfold layer_set in Hin. rewrite (Hout Hks) in Hin. now apply (Hns k n0 l).
    + unfold layer_set in Hin. rewrite Hkeep in Hin by lia. now apply (Hns k n0 l).
Qed.

Lemma inserts_no_self calls : forall h h',
  Inv h -> no_self (graph h) -> NoDup (map id_of calls) ->
  (forall c, c ∈ calls -> graph h !! id_of c = None) ->
  inserts h calls = Ok h' -> no_self (graph h').
Proof.
  induction calls as [| [[lv i] v] rest IH]; intros h h' HInv Hns Hnd Hfresh E.
  - cbn in E. inversion E; subst h'. exact Hns.
  - cbn [inserts] in E.
    destruct (insert h (Level lv) i v) as [h1 | |] eqn:E1; try discriminate. cbn [bind] in E.
    cbn [map] in Hnd. apply NoDup_cons in Hnd as [Hi Hnd].
    change (id_of (lv, i, v)) with i in Hi.
    assert (Hfi : graph h !! i = None) by (apply (Hfresh (lv, i, v)); now left).
    destruct (insert_Inv h lv i v h1 HInv Hfi E1) as (HInv1 & _ & _ & _ & _ & Hothers).
    apply (IH h1 h' HInv1); try assumption.
    + exact (insert_no_self h lv i v h1 HInv Hns Hfi E1).
    + intros c Hc. assert (Hne : id_of c <> i).
      { intros Heq. apply Hi. rewrite <- Heq. apply map_elem. eauto. }
      specialize (Hothers (id_of c) Hne).
      rewrite (Hfresh c) in Hothers by (now right). exact Hothers.
Qed.

(** X11.  After insertions of pairwise distinct ids into an empty graph,
    no link dangles: every id listed in a neighbour set of layer [l]
    is another stored node, whose level, like that of the listing node,
    is at least [l].  When at least one id was inserted the entry point
    is a stored node whose level is [maxLevel]. *)
Theorem inserts_links_closed (M0 efC : nat)
    (calls : list (nat * string * Float32Array)) (h : HNSW) :
  NoDup (map id_of calls) ->
  inserts (create M0 efC) calls = Ok h ->
  (forall k n l m,
      graph h !! k = Some n -> m ∈ layer_set n l ->
      m <> k /\ l <= level n
      /\ exists n', graph h !! m = Some n' /\ l <= level n')
  /\ (calls <> [] ->
      exists e ne, entryPointId h = Some e /\ graph h !! e = Some ne
        /\ level ne = maxLevel h).
Proof.
  intros Hnd E.
  assert (Hfresh : forall c, c ∈ calls -> graph (create M0 efC) !! id_of c = None).
  { intros c _. unfold create. cbn [graph]. apply lookup_empty. }
  destruct (inserts_Inv calls (create M0 efC) h (Inv_create M0 efC) Hnd Hfresh E)
    as ((Hwf & Hll & Hent) & _ & _ & _ & Hcalls & _).
  assert (Hns : no_self (graph h)).
  { apply (inserts_no_self calls (create M0 efC) h (Inv_create M0 efC)); try assumption.
    intros k n l Hk. unfold create in Hk. cbn [graph] in Hk.
    rewrite lookup_empty in Hk. discriminate. }
  split.
  - intros k n l m Hk Hm. split; [| split].
    + intros ->. now apply (Hns k n l).
    + destruct (Hwf k n Hk) as [Hlayers _]. apply Hlayers.
      unfold layer_set in Hm. destruct (neighbors n !! l); [eauto | inversion Hm].
    + eapply Hll; eauto.
  - intros Hne. unfold entry_ok in Hent.
    destruct (entryPointId h) as [e |].
    + destruct Hent as (ne & He & Hlv & _). eauto.
    + destruct Hent as [Hg _]. destruct calls as [| c rest]; [congruence |].
      destruct (Hcalls c ltac:(now left)) as (n & Hn & _).
      rewrite Hg, lookup_empty in Hn. discriminate.
Qed.

(** X12.  Insert, then search: after insertions of pairwise distinct,
    non-empty ids into an empty graph, a search with [ef >= 1] returns at
    least one id, at most [ef], without repetition, and every id it
    returns was inserted. *)
Theorem search_after_inserts (M0 efC : nat)
    (calls : list (nat * string * Float32Array)) (h : HNSW)
    (q : Float32Array) (ef targetLevel : nat) :
  NoDup (map id_of calls) -> calls <> [] -> EmptyString ∉ map id_of calls ->
  1 <= ef ->
  inserts (create M0 efC) calls = Ok h ->
  exists res,
    search h q ef targetLevel = Ok res
    /\ res <> [] /\ NoDup res /\ length res <= ef
    /\ forall i, i ∈ res -> i ∈ map id_of calls.
Proof.
  intros Hnd Hne Hempty Hef E.
  assert (Hfresh : forall c, c ∈ calls -> graph (create M0 efC) !! id_of c = None).
  { intros c _. unfold create. cbn [graph]. apply lookup_empty. }
  destruct (inserts_Inv calls (create M0 efC) h (Inv_create M0 efC) Hnd Hfresh E)
    as ((_ & _ & Hent) & _ & _ & Hdom & Hcalls & _).
  assert (Hin : forall k, is_Some (graph h !! k) -> k ∈ map id_of calls).
  { intros k Hk. destruct (Hdom k Hk) as [Hc | Hc]; [| exact Hc].
    unfold create in Hc. cbn [graph] in Hc. rewrite lookup_empty in Hc.
    destruct Hc; discriminate. }
  unfold entry_ok in Hent. unfold search.
  destruct (entryPointId h) as [e |].
  2:{ destruct Hent as [Hg _]. destruct calls as [| c rest]; [congruence |].
      destruct (Hcalls c ltac:(now left)) as (n & Hn & _).
      rewrite Hg, lookup_empty in Hn. discriminate. }
  destruct Hent as (ne & He & _).
  assert (Hes : is_Some (graph h !! e)) by (rewrite He; eauto).
  rewrite bool_decide_eq_false_2 by (intros ->; apply Hempty, Hin, Hes).
  rewrite (lookup_size_ne_0 _ e Hes). cbn [orb].
  destruct (descend_spec (graph h) q (layers_down (maxLevel h) targetLevel) e)
    as (cur & -> & Hcur).
  cbn [bind].
  destruct (searchLayer_spec (graph h) q ef targetLevel cur Hef)
    as (res & -> & Hn & Hl & Hst & Hres).
  exists res. split; [reflexivity |]. split; [apply Hres, Hcur, Hes |].
  split; [exact Hn |]. split; [exact Hl |]. intros i Hi. apply Hin, Hst, Hi.
Qed.

End GraphFacts.

(* ===================================================================== *)
(** * Runs of the facts about insertion and search *)
(* ===================================================================== *)

Module GraphFactsRuns.
Import JS Similarity HNSWGraph InvariantFacts GraphRuns GraphFacts.
Local Open Scope string_scope.

Lemma seven_calls_distinct : NoDup (map id_of seven_calls).
Proof. apply (bool_decide_unpack _). vm_compute. exact I. Qed.

Lemma seven_run : inserts (create 2 3) seven_calls = Ok seven.
Proof. vm_compute. reflexivity. Qed.

Lemma insert_total_witness :
  1 <= efConstruction seven
  /\ exists h' nn, insert seven (Level 1) "A" [0.5; 0.5]%float = Ok h'
       /\ graph h' !! "A" = Some nn /\ level nn = 1.
Proof.
  split; [vm_compute; lia |].
  destruct (insert_total seven (Level 1) "A" [0.5; 0.5]%float ltac:(vm_compute; lia))
    as (_ & h' & nn & E & Hn & _ & _ & Hl & _).
  exists h', nn. auto.
Defined.

Lemma insert_above_top_witness :
  maxLevel seven < 3
  /\ exists h', insert seven (Level 3) "H" [0.5; 0.4]%float = Ok h'
       /\ search h' [0.2; 0.9]%float 3 0 = Ok ["H"].
Proof.
  split; [vm_compute; lia |].
  destruct (insert_above_top seven 3 "H" [0.5; 0.4]%float)
    as ((h' & E & _ & _ & _ & Hs) & _).
  - vm_compute. eauto.
  - vm_compute. discriminate.
  - vm_compute. reflexivity.
  - vm_compute. lia.
  - exists h'. split; [exact E |]. apply Hs; [discriminate | lia].
Defined.

Lemma inserts_links_closed_witness :
  NoDup (map id_of seven_calls)
  /\ inserts (create 2 3) seven_calls = Ok seven
  /\ exists e ne, entryPointId seven = Some e /\ graph seven !! e = Some ne
       /\ level ne = maxLevel seven.
Proof.
  split; [exact seven_calls_distinct |]. split; [exact seven_run |].
  apply (inserts_links_closed 2 3 seven_calls seven seven_calls_distinct seven_run).
  discriminate.
Defined.

Lemma search_after_inserts_witness :
  NoDup (map id_of seven_calls) /\ (EmptyString ∉ map id_of seven_calls)
  /\ exists res, search seven [0.5; 0.5]%float 3 0 = Ok res /\ res <> [].
Proof.
  assert (Hne : EmptyString ∉ map id_of seven_calls).
  { apply (bool_decide_unpack _). vm_compute. exact I. }
  split; [exact seven_calls_distinct |]. split; [exact Hne |].
  destruct (search_after_inserts 2 3 seven_calls seven [0.5; 0.5]%float 3 0
              seven_calls_distinct ltac:(discriminate) Hne ltac:(lia) seven_run)
    as (res & E & Hr & _).
  exists res. auto.
Defined.

End GraphFactsRuns.

(* ===================================================================== *)
(** * Sorting nearest first *)
(* ===================================================================== *)

Module OrderFacts.
Import JS SortFacts SearchFacts.

Section Ordered.
Context {A : Type}.
Variables (after : A -> A -> bool) (R : relation A) (ok : A -> Prop).
Hypothesis after_true : forall x y, ok x -> ok y -> after x y = true -> R y x.
Hypothesis after_false : forall x y, ok x -> ok y -> after x y = false -> R x y.

Lemma sort_insert_head a x l :
  HdRel R a l -> R a x -> HdRel R a (sort_insert after x l).
Proof.
  intros Hl Hx. destruct l as [| y l]; cbn [sort_insert]; [now constructor |].
  destruct (after x y); constructor; [now inversion Hl | assumption].
Qed.

Lemma sort_insert_ordered x l :
  ok x -> Forall ok l -> Sorted R l -> Sorted R (sort_insert after x l).
Proof.
  intros Hx Hl Hs. induction Hs as [| y l Hs IH Hhd]; cbn [sort_insert].
  - repeat constructor.
  - apply Forall_cons in Hl as [Hy Hl]. destruct (after x y) eqn:E.
    + constructor; [now apply IH |].
      apply sort_insert_head; [exact Hhd |]. now apply after_true.
    + constructor; [now constructor |]. constructor. now apply after_false.
Qed.

(** [sort] arranges the entries it can compare in the order of the
    comparator. *)
Lemma sort_ordered l : Forall ok l -> Sorted R (sort after l).
Proof.
  induction l as [| x l IH]; intros Hl; cbn [sort]; [constructor |].
  apply Forall_cons in Hl as [Hx Hl]. apply sort_insert_ordered; auto.
  rewrite (sort_perm after l). exact Hl.
Qed.

End Ordered.

(** The first [n] entries of a sorted arrangement come before all the
    others. *)
Lemma sorted_prefix {A} (R : relation A) n l :
  StronglySorted R l ->
  StronglySorted R (firstn n l)
  /\ forall a b, a ∈ firstn n l -> b ∈ l -> b ∉ firstn n l -> R a b.
Proof.
  intros Hs. rewrite <- (firstn_skipn n l) in Hs.
  split; [eapply StronglySorted_app_1_l, Hs |].
  intros a b Ha Hb Hnb. eapply StronglySorted_app_1_elem_of; [exact Hs | exact Ha |].
  rewrite <- (firstn_skipn n l) in Hb. apply elem_of_app in Hb as [Hb | Hb];
    [contradiction | exact Hb].
Qed.

(** An order on records that carry their key is an order on what they
    stand for. *)
Lemma StronglySorted_keyed {A B} (R : relation A) (S : relation B) (f : A -> B) l :
  (forall a b, a ∈ l -> b ∈ l -> R a b -> S (f a) (f b)) ->
  StronglySorted R l -> StronglySorted S (map f l).
Proof.
  intros H Hs. induction Hs as [| a l Hs IH Hall]; cbn [map]; [constructor |].
  constructor.
  - apply IH. intros x y Hx Hy. apply H; now right.
  - apply Forall_forall. intros y Hy.
    apply map_elem in Hy as (b & -> & Hb). apply H; [now left | now right |].
    rewrite Forall_forall in Hall. now apply Hall.
Qed.

End OrderFacts.

(* ===================================================================== *)
(** * Nearest first in the graph index *)
(* ===================================================================== *)

Module NearestFacts.
Import JS Similarity HNSWGraph SortFacts SearchFacts InsertFacts FloatFacts RankFacts
  OrderFacts.

(** The distance the code computes from [v] to the node stored under an
    id ([Infinity] when there is none). *)
Definition distance_to (g : gmap string HNSWNode) (v : Float32Array) (i : string)
  : float :=
  distance (score_from g v i).

Definition nearer_eq (a b : scored) : Prop := (distance a <=? distance b)%float = true.

Definition is_numeric (c : scored) : Prop := is_number (distance c) = true.

Lemma farther_true x y : is_numeric x -> is_numeric y -> farther x y = true -> nearer_eq y x.
Proof.
  unfold is_numeric, farther, gt, nearer_eq. intros Hx Hy H.
  rewrite sub_pos in H by assumption. now apply ltb_leb.
Qed.

Lemma farther_false x y : is_numeric x -> is_numeric y -> farther x y = false -> nearer_eq x y.
Proof.
  unfold is_numeric, farther, gt, nearer_eq. intros Hx Hy H.
  rewrite sub_pos in H by assumption. now apply not_ltb_leb.
Qed.

Lemma sort_farther_sorted (l : list scored) :
  Forall is_numeric l -> StronglySorted nearer_eq (sort farther l).
Proof.
  intros Hl. apply Sorted_StronglySorted.
  - intros a b c Hab Hbc. unfold nearer_eq in *. eapply leb_trans; eauto.
  - apply (sort_ordered farther nearer_eq is_numeric);
      [exact farther_true | exact farther_false | exact Hl].
Qed.

(** The [M] first ids of the candidates sorted by distance: no candidate
    left out is strictly nearer than one kept. *)
Lemma kept_nearest (g : gmap string HNSWNode) (v : Float32Array) (l : list string)
    (M : nat) :
  (forall i, i ∈ l -> is_number (distance_to g v i) = true) ->
  let kept := map sid (slice0 M (sort farther (map (score_from g v) l))) in
  forall i j, i ∈ kept -> j ∈ l -> j ∉ kept ->
    (distance_to g v i <=? distance_to g v j)%float = true.
Proof.
  intros Hnum kept. set (recs := map (score_from g v) l) in *.
  assert (Hall : Forall is_numeric recs).
  { apply Forall_forall. intros r Hr. apply map_elem in Hr as (i & -> & Hi).
    now apply Hnum. }
  destruct (sorted_prefix nearer_eq M _ (sort_farther_sorted recs Hall)) as [_ Htop].
  assert (Hrec : forall r, r ∈ sort farther recs -> r = score_from g v (sid r)).
  { intros r Hr. rewrite sort_perm in Hr. apply map_elem in Hr as (i & -> & _).
    now rewrite sid_score_from. }
  intros i j Hi Hj Hnj. unfold kept, slice0 in Hi, Hnj.
  apply map_elem in Hi as (a & -> & Ha).
  assert (Hb : score_from g v j ∈ sort farther recs).
  { rewrite sort_perm. apply map_elem. eauto. }
  assert (Hnb : score_from g v j ∉ firstn M (sort farther recs)).
  { intros Hin. apply Hnj. apply map_elem. exists (score_from g v j).
    split; [now rewrite sid_score_from | exact Hin]. }
  specialize (Htop a _ Ha Hb Hnb). unfold nearer_eq in Htop.
  unfold distance_to. now rewrite <- (Hrec a (take_elem _ _ _ Ha)).
Qed.

(** X13.  [selectNeighbors] returns the [M] candidates nearest to the
    new vector (all of them when there are at most [M]): when the
    distances are numbers, no candidate it leaves out is strictly nearer
    than one it returns. *)
Theorem selectNeighbors_nearest (g : gmap string HNSWNode) (candidates : list string)
    (M : nat) (v : Float32Array) :
  NoDup candidates ->
  (forall i, i ∈ candidates -> is_number (distance_to g v i) = true) ->
  let sel := selectNeighbors g candidates M v in
  length sel = Nat.min M (length candidates)
  /\ NoDup sel
  /\ (forall i, i ∈ sel -> i ∈ candidates)
  /\ forall i j, i ∈ sel -> j ∈ candidates -> j ∉ sel ->
       (distance_to g v i <=? distance_to g v j)%float = true.
Proof.
  intros Hnd Hnum sel. unfold selectNeighbors in sel.
  destruct (length candidates <=? M) eqn:E.
  { apply Nat.leb_le in E. subst sel. split; [lia |]. split; [exact Hnd |].
    split; [auto |]. intros i j _ Hj Hnj. contradiction. }
  destruct (nearest_ids g v candidates M) as (Hn & Hsub & Hlen). cbn zeta in Hn, Hsub, Hlen.
  fold sel in Hn, Hsub, Hlen.
  split; [exact Hlen |]. split; [now apply Hn |]. split; [exact Hsub |].
  exact (kept_nearest g v candidates M Hnum).
Qed.

Lemma set_of_list_NoDup_perm (l : list string) : NoDup l -> set_of_list l ≡ₚ l.
Proof.
  intros Hl. destruct (set_of_list_spec l) as (Hn & Hm & _).
  apply NoDup_Permutation; assumption.
Qed.

(** X14.  [trimNeighbors] cuts a neighbour set that holds more than [M]
    ids down to the [M] nearest to the node's own vector, and leaves a
    smaller set, the other layers and the node's id, vector and level as
    they are: when the distances are numbers, no id it drops is strictly
    nearer than one it keeps. *)
Theorem trimNeighbors_nearest (g : gmap string HNSWNode) (node : HNSWNode)
    (layer M : nat) (T0 : list string) :
  neighbors node !! layer = Some T0 -> NoDup T0 ->
  (forall i, i ∈ T0 -> is_number (distance_to g (vector node) i) = true) ->
  let node' := trimNeighbors g node layer M in
  id node' = id node /\ vector node' = vector node /\ level node' = level node
  /\ (forall l', l' <> layer -> neighbors node' !! l' = neighbors node !! l')
  /\ exists T,
       neighbors node' !! layer = Some T
       /\ length T = Nat.min M (length T0)
       /\ NoDup T
       /\ (forall i, i ∈ T -> i ∈ T0)
       /\ (length T0 <= M -> T = T0)
       /\ forall i j, i ∈ T -> j ∈ T0 -> j ∉ T ->
            (distance_to g (vector node) i <=? distance_to g (vector node) j)%float = true.
Proof.
  intros HT Hnd Hnum. cbv zeta. unfold trimNeighbors. rewrite HT.
  destruct (length T0 <=? M) eqn:E.
  { apply Nat.leb_le in E.
    split; [reflexivity |]. split; [reflexivity |]. split; [reflexivity |].
    split; [reflexivity |]. exists T0. split; [exact HT |]. split; [lia |].
    split; [exact Hnd |]. split; [auto |]. split; [auto |].
    intros i j _ Hj Hnj. contradiction. }
  apply Nat.leb_gt in E. cbn [id vector level neighbors].
  split; [reflexivity |]. split; [reflexivity |]. split; [reflexivity |].
  split; [intros l' Hl'; now rewrite lookup_insert_ne by congruence |].
  destruct (nearest_ids g (vector node) T0 M) as (Hn & Hsub & Hlen).
  cbn zeta in Hn, Hsub, Hlen.
  set (kept := map sid (slice0 M (sort farther (map (score_from g (vector node)) T0)))) in *.
  pose proof (set_of_list_NoDup_perm kept (Hn Hnd)) as Hp.
  exists (set_of_list kept). split; [apply lookup_insert_eq |].
  split; [now rewrite Hp |]. split; [apply set_of_list_spec |].
  split; [intros i Hi; rewrite Hp in Hi; now apply Hsub |].
  split; [lia |].
  intros i j Hi Hj Hnj. rewrite Hp in Hi, Hnj.
  exact (kept_nearest g (vector node) T0 M Hnum i j Hi Hj Hnj).
Qed.

(** ** The order of the ids a layer search returns *)

Section Layer.
Variable g : gmap string HNSWNode.
Variable query : Float32Array.

(** A candidate carries the distance from the query to its node. *)
Definition exact (c : scored) : Prop :=
  exists n, g !! sid c = Some n /\ distance c = dist query (vector n).

Lemma exact_truncate ef (c : list scored) :
  Forall exact c ->
  Forall exact (if ef <? length c then slice0 ef (sort farther c) else c).
Proof.
  intros H. destruct (ef <? length c); [| exact H].
  unfold slice0. apply Forall_take. now rewrite sort_perm.
Qed.

Lemma expand_exact ef nbrs : forall visited cands changed visited' cands' changed',
  expand g query ef nbrs visited cands changed = (visited', cands', changed') ->
  Forall exact cands -> Forall exact cands'.
Proof.
  induction nbrs as [| n nbrs IH]; intros visited cands changed visited' cands' changed' E Hc;
    cbn [expand] in E.
  - now inversion E; subst.
  - destruct (bool_decide (n ∈ visited)); [eapply IH; eauto |].
    destruct (g !! n) as [node |] eqn:En; [| eapply IH; eauto].
    eapply IH; [exact E |]. apply exact_truncate.
    apply Forall_app. split; [exact Hc |]. constructor; [| constructor].
    exists node. cbn [sid distance]. auto.
Qed.

Lemma search_loop_exact ef layer fuel : forall visited cands res,
  search_loop fuel g query ef layer visited cands = Ok res ->
  Forall exact cands -> Forall exact res.
Proof.
  induction fuel as [| fuel IH]; intros visited cands res E Hc; cbn [search_loop] in E;
    [discriminate |].
  assert (Hs : Forall exact (sort farther cands)) by now rewrite sort_perm.
  destruct (sort farther cands) as [| current rest] eqn:Es; [discriminate |].
  destruct (g !! sid current) as [node |]; [| now inversion E; subst].
  destruct (expand g query ef (layer_set node layer) visited (current :: rest) false)
    as [[visited' cands'] changed'] eqn:Ex.
  pose proof (expand_exact _ _ _ _ _ _ _ _ Ex Hs) as Hc'.
  destruct changed'; [eapply IH; eauto | now inversion E; subst].
Qed.

Hypothesis numeric : forall k n, g !! k = Some n -> is_number (dist query (vector n)) = true.

Lemma searchLayer_sorted ef layer entry res :
  searchLayer g query ef layer entry = Ok res ->
  StronglySorted
    (fun i j => (distance_to g query i <=? distance_to g query j)%float = true) res.
Proof.
  unfold searchLayer. destruct (g !! entry) as [entryNode |] eqn:Ee.
  2:{ intros [= <-]. constructor. }
  destruct (search_loop _ g query ef layer [entry] _) as [cands | |] eqn:El; try discriminate.
  cbn [bind]. intros [= <-].
  assert (Hc : Forall exact cands).
  { eapply search_loop_exact; [exact El |]. constructor; [| constructor].
    exists entryNode. cbn [sid distance]. auto. }
  assert (Hn : Forall is_numeric cands).
  { eapply Forall_impl; [exact Hc |]. intros c (n & Hk & Hd). unfold is_numeric.
    rewrite Hd. eapply numeric; eauto. }
  destruct (sorted_prefix nearer_eq ef _ (sort_farther_sorted cands Hn)) as [Hsorted _].
  unfold slice0. apply (StronglySorted_keyed nearer_eq); [| exact Hsorted].
  intros a b Ha Hb Hab. apply take_elem in Ha, Hb. rewrite sort_perm in Ha, Hb.
  rewrite Forall_forall in Hc.
  destruct (Hc a Ha) as (na & Hka & Hda), (Hc b Hb) as (nb & Hkb & Hdb).
  unfold distance_to, score_from. rewrite Hka, Hkb. cbn [distance].
  unfold nearer_eq in Hab. now rewrite <- Hda, <- Hdb.
Qed.

End Layer.

(** X15.  [search] returns its ids nearest first: when the distance from
    the query to every stored vector is a number, the ids come in order
    of non-decreasing distance, so the first is the nearest of those
    returned. *)
Theorem search_sorted (h : HNSW) (q : Float32Array) (ef targetLevel : nat) :
  1 <= ef ->
  (forall k n, graph h !! k = Some n -> is_number (dist q (vector n)) = true) ->
  exists res,
    search h q ef targetLevel = Ok res
    /\ StronglySorted
         (fun i j => (distance_to (graph h) q i <=? distance_to (graph h) q j)%float = true)
         res.
Proof.
  intros Hef Hnum. unfold search.
  destruct (entryPointId h) as [entry |]; [| exists []; split; [reflexivity | constructor]].
  destruct (bool_decide (entry = EmptyString) || (size (graph h) =? 0));
    [exists []; split; [reflexivity | constructor] |].
  destruct (descend_spec (graph h) q (layers_down (maxLevel h) targetLevel) entry)
    as (cur & -> & _).
  cbn [bind].
  destruct (searchLayer_spec (graph h) q ef targetLevel cur Hef) as (res & E & _).
  exists res. split; [exact E |]. eapply searchLayer_sorted; eauto.
Qed.

End NearestFacts.

(* ===================================================================== *)
(** * A beam of width zero *)
(* ===================================================================== *)

Module ZeroBeamFacts.
Import JS Similarity HNSWGraph SortFacts SearchFacts InsertFacts.

Section Layer.
Variable g : gmap string HNSWNode.
Variable query : Float32Array.

(** Some id of [nbrs] is stored and not yet visited: the loop over the
    neighbours pushes a candidate. *)
Definition pushes (nbrs visited : list string) : Prop :=
  exists m, m ∈ nbrs /\ (m ∉ visited) /\ is_Some (g !! m).

(** From an emptied candidate list: each candidate pushed is cut off at
    once. *)
Lemma expand_zero_emptied nbrs : forall visited,
  exists visited', expand g query 0 nbrs visited [] true = (visited', [], true).
Proof.
  induction nbrs as [| n nbrs IH]; intros visited; cbn [expand]; [eauto |].
  destruct (bool_decide (n ∈ visited)); [apply IH |].
  destruct (g !! n); apply IH.
Qed.

Lemma expand_zero nbrs : forall visited cands,
  (pushes nbrs visited ->
   exists visited', expand g query 0 nbrs visited cands false = (visited', [], true))
  /\ (~ pushes nbrs visited ->
      exists visited', expand g query 0 nbrs visited cands false = (visited', cands, false)).
Proof.
  induction nbrs as [| n nbrs IH]; intros visited cands; cbn [expand].
  - split; [intros (m & Hm & _); inversion Hm | eauto].
  - case_bool_decide as Hv.
    + destruct (IH visited cands) as [IH1 IH2]. split.
      * intros (m & Hm & Hmv & Hs). apply IH1. exists m.
        apply elem_of_cons in Hm as [-> | Hm]; [contradiction | auto].
      * intros Hn. apply IH2. intros (m & Hm & Hmv & Hs). apply Hn.
        exists m. split; [now right | auto].
    + destruct (g !! n) as [node |] eqn:En.
      * split; [intros _ | intros Hn; exfalso; apply Hn; exists n].
        -- rewrite length_app, Nat.add_1_r. cbn [Nat.ltb Nat.leb slice0 firstn].
           apply expand_zero_emptied.
        -- split; [now left | split; [exact Hv | eauto]].
      * destruct (IH (set_add n visited) cands) as [IH1 IH2]. split.
        -- intros (m & Hm & Hmv & Hs). apply IH1. exists m.
           apply elem_of_cons in Hm as [-> | Hm];
             [rewrite En in Hs; destruct Hs; discriminate |].
           split; [exact Hm |]. split; [| exact Hs].
           rewrite set_add_elem. intros [-> | ?]; [| contradiction].
           rewrite En in Hs. destruct Hs; discriminate.
        -- intros Hn. apply IH2. intros (m & Hm & Hmv & Hs). apply Hn.
           exists m. split; [now right |]. split; [| exact Hs].
           intros Hin. apply Hmv. apply set_add_elem. now right.
Qed.

(** With [ef = 0] a layer search returns no id, or reads the first
    element of an emptied candidate list. *)
Lemma searchLayer_zero layer entry :
  match g !! entry with
  | None => searchLayer g query 0 layer entry = Ok []
  | Some n =>
      (pushes (layer_set n layer) [entry] ->
       searchLayer g query 0 layer entry = TypeError)
      /\ (~ pushes (layer_set n layer) [entry] ->
          searchLayer g query 0 layer entry = Ok [])
  end.
Proof.
  unfold searchLayer. destruct (g !! entry) as [n |] eqn:Ee; [| reflexivity].
  cbn [search_loop sort sort_insert sid]. rewrite Ee.
  destruct (expand_zero (layer_set n layer) [entry]
              [{| sid := entry; distance := dist query (vector n) |}]) as [H1 H2].
  split; intros Hp.
  - destruct (H1 Hp) as (visited' & ->).
    destruct Hp as (m & Hm & _).
    pose proof (layer_ids_elem g layer m entry n Ee Hm) as Hin.
    destruct (layer_ids g layer) as [| x l]; [inversion Hin |].
    reflexivity.
  - destruct (H2 Hp) as (visited' & ->). reflexivity.
Qed.

End Layer.

(** The node a search ends its descent at has a stored neighbour other
    than itself at the layer. *)
Definition has_neighbour (g : gmap string HNSWNode) (layer : nat) (cur : string) : Prop :=
  exists n m, g !! cur = Some n /\ m ∈ layer_set n layer /\ m <> cur /\ is_Some (g !! m).

(** X16.  [search] with [ef = 0] never returns an id.  It throws a
    [TypeError] when the node its descent ends at has a stored neighbour
    other than itself at the target layer: the candidate pushed is cut
    off at once, and the next round reads [candidates[0].id] of an empty
    array.  Otherwise it returns the empty list. *)
Theorem search_zero_ef (h : HNSW) (q : Float32Array) (targetLevel : nat)
    (e cur : string) :
  entryPointId h = Some e -> e <> EmptyString ->
  descend (graph h) q (layers_down (maxLevel h) targetLevel) e = Ok cur ->
  (has_neighbour (graph h) targetLevel cur -> search h q 0 targetLevel = TypeError)
  /\ (~ has_neighbour (graph h) targetLevel cur -> search h q 0 targetLevel = Ok []).
Proof.
  intros He Hne Hd.
  assert (Hp : forall n, graph h !! cur = Some n ->
            (pushes (graph h) (layer_set n targetLevel) [cur]
             <-> has_neighbour (graph h) targetLevel cur)).
  { intros n Hn. split.
    - intros (m & Hm & Hv & Hs). exists n, m. repeat split; auto.
      intros ->. apply Hv. now left.
    - intros (n' & m & Hn' & Hm & Hv & Hs). rewrite Hn in Hn'. inversion Hn'; subst n'.
      exists m. repeat split; auto. intros Hin. apply list_elem_of_singleton in Hin.
      contradiction. }
  unfold search. rewrite He. rewrite bool_decide_eq_false_2 by exact Hne. cbn [orb].
  pose proof (searchLayer_zero (graph h) q targetLevel cur) as Hz.
  destruct (size (graph h) =? 0) eqn:Es.
  { apply Nat.eqb_eq in Es. apply map_size_empty_iff in Es.
    split; [| reflexivity]. intros (n & m & Hn & _). rewrite Es, lookup_empty in Hn.
    discriminate. }
  rewrite Hd. cbn [bind].
  destruct (graph h !! cur) as [n |] eqn:Hn.
  - destruct Hz as [Hz1 Hz2]. split; intros H.
    + apply Hz1. now apply (Hp n).
    + apply Hz2. intros Hc. apply H. now apply (Hp n).
  - split; [| intros _; exact Hz]. intros (n & m & Hn' & _). congruence.
Qed.

End ZeroBeamFacts.

(* ===================================================================== *)
(** * The binary prefilter *)
(* ===================================================================== *)

Module PrefilterFacts.
Import JS Types UltraVectorDB SortFacts SearchFacts HammingFacts PipelineFacts
  BitCountFacts OrderFacts.
Local Open Scope Z_scope.

(** The nano distance from the query to the chunk stored under a key. *)
Definition nano_distance (store : list (string * UltraChunk)) (queryNano : Uint32Array)
    (i : string) : Z :=
  match store_get store i with
  | Some c => differing_bits (word0 queryNano) (word0 (nano (matryoshka c)))
  | None => 0
  end.

Lemma store_get_elem store k c :
  NoDup (map fst store) -> (k, c) ∈ store -> store_get store k = Some c.
Proof.
  induction store as [| [k' c'] store IH]; intros Hnd Hin; [inversion Hin |].
  cbn [map fst] in Hnd. apply NoDup_cons in Hnd as [Hk Hnd]. cbn [store_get].
  apply elem_of_cons in Hin as [Heq | Hin].
  - inversion Heq; subst. now rewrite bool_decide_eq_true_2.
  - rewrite bool_decide_eq_false_2; [now apply IH |].
    intros ->. apply Hk. apply map_elem. exists (k, c). auto.
Qed.

Lemma farther_bits_true (x y : string * Z) : farther_bits x y = true -> snd y <= snd x.
Proof. unfold farther_bits. intros H. apply Z.ltb_lt in H. lia. Qed.

Lemma farther_bits_false (x y : string * Z) : farther_bits x y = false -> snd x <= snd y.
Proof. unfold farther_bits. intros H. apply Z.ltb_ge in H. lia. Qed.

Lemma sort_bits_sorted (l : list (string * Z)) :
  StronglySorted (fun a b => snd a <= snd b) (sort farther_bits l).
Proof.
  apply Sorted_StronglySorted.
  - intros a b c Hab Hbc. lia.
  - apply (sort_ordered farther_bits _ (fun _ => True)).
    + intros x y _ _. apply farther_bits_true.
    + intros x y _ _. apply farther_bits_false.
    + apply Forall_forall. auto.
Qed.

(** X17.  The prefilter returns the [limit] stored keys nearest to the
    query in nano distance (all of them when the store is smaller): each
    key once, in order of non-decreasing distance, and no key it leaves
    out is strictly nearer than one it returns. *)
Theorem getBinaryCandidates_nearest (store : list (string * UltraChunk))
    (queryNano : Uint32Array) (limit : nat) :
  NoDup (map fst store) ->
  exists B,
    getBinaryCandidates store queryNano limit = Ok B
    /\ length B = Nat.min limit (length store)
    /\ NoDup B
    /\ (forall i, i ∈ B -> i ∈ map fst store)
    /\ StronglySorted
         (fun i j => nano_distance store queryNano i <= nano_distance store queryNano j) B
    /\ forall i k, i ∈ B -> k ∈ map fst store -> k ∉ B ->
         nano_distance store queryNano i <= nano_distance store queryNano k.
Proof.
  intros Hnd. unfold getBinaryCandidates.
  destruct (length store =? 0)%nat eqn:El.
  { apply Nat.eqb_eq in El. destruct store; [| discriminate].
    exists []. split; [reflexivity |]. split; [cbn; lia |]. split; [constructor |].
    split; [auto |]. split; [constructor |]. intros i k Hi. inversion Hi. }
  set (rec := fun i : string => (i, nano_distance store queryNano i)).
  rewrite (mapM_ok _ (fun e : string * UltraChunk => rec (fst e))).
  2:{ intros [k c] Hin. cbn [fst snd]. rewrite nanoHammingDistance_differing. cbn [bind].
      unfold rec, nano_distance. now rewrite (store_get_elem store k c Hnd Hin). }
  cbn [bind]. rewrite length_map.
  set (scored := map (fun e : string * UltraChunk => rec (fst e)) store).
  set (n := Nat.min limit (length store)).
  pose proof (sort_perm farther_bits scored) as Hperm.
  assert (Hkeys : map fst scored = map fst store).
  { unfold scored. rewrite map_map. reflexivity. }
  assert (Hrec : forall r, r ∈ sort farther_bits scored ->
                   r = rec (fst r) /\ fst r ∈ map fst store).
  { intros r Hr. rewrite Hperm in Hr. unfold scored in Hr.
    apply map_elem in Hr as (e & -> & He). split; [reflexivity |].
    cbn [rec fst]. apply map_elem. eauto. }
  assert (Hndk : NoDup (map fst (sort farther_bits scored))).
  { rewrite Hperm, Hkeys. exact Hnd. }
  destruct (sorted_prefix _ n _ (sort_bits_sorted scored)) as [Hsorted Htop].
  eexists. split; [reflexivity |].
  split.
  { rewrite length_map. unfold slice0. rewrite length_firstn, sort_length.
    unfold scored. rewrite length_map. unfold n. lia. }
  split.
  { unfold slice0. rewrite <- firstn_map. now apply take_NoDup. }
  split.
  { intros i Hi. apply map_elem in Hi as (r & -> & Hr). apply take_elem in Hr.
    now apply Hrec. }
  split.
  { unfold slice0. apply (StronglySorted_keyed (fun a b : string * Z => snd a <= snd b));
      [| exact Hsorted].
    intros a b Ha Hb Hab. apply take_elem in Ha, Hb.
    destruct (Hrec a Ha) as [Ea _], (Hrec b Hb) as [Eb _].
    rewrite Ea, Eb in Hab. exact Hab. }
  intros i k Hi Hk Hnk. unfold slice0 in *.
  apply map_elem in Hi as (a & -> & Ha).
  assert (Hb : rec k ∈ sort farther_bits scored).
  { rewrite Hperm. unfold scored. apply map_elem in Hk as (e & -> & He).
    apply map_elem. eauto. }
  assert (Hnb : rec k ∉ firstn n (sort farther_bits scored)).
  { intros Hin. apply Hnk. apply map_elem. exists (rec k). auto. }
  specialize (Htop a (rec k) Ha Hb Hnb).
  destruct (Hrec a (take_elem _ _ _ Ha)) as [Ea _]. rewrite Ea in Htop. exact Htop.
Qed.

End PrefilterFacts.

(* ===================================================================== *)
(** * The chunk store *)
(* ===================================================================== *)

Module StoreFacts.
Import JS Similarity Types MatryoshkaGenerator UltraVectorDB SortFacts SearchFacts
  PipelineFacts GraphFacts PrefilterFacts.

(** [getStats().chunks]: the size of the store. *)
Definition getStats (db : DB) : nat := length (dataStore db).

Lemma store_get_set_eq store i c : store_get (store_set store i c) i = Some c.
Proof.
  induction store as [| [k c'] store IH]; cbn [store_set store_get].
  - now rewrite bool_decide_eq_true_2.
  - destruct (decide (k = i)) as [-> | Hk].
    + rewrite (bool_decide_eq_true_2 (i = i)) by reflexivity. cbn [store_get].
      now rewrite bool_decide_eq_true_2.
    + rewrite (bool_decide_eq_false_2 (k = i)) by exact Hk. cbn [store_get].
      now rewrite bool_decide_eq_false_2.
Qed.

Lemma store_get_set_ne store i c k :
  k <> i -> store_get (store_set store i c) k = store_get store k.
Proof.
  intros Hne. induction store as [| [k' c'] store IH]; cbn [store_set store_get].
  - now rewrite bool_decide_eq_false_2 by congruence.
  - destruct (decide (k' = i)) as [-> | Hk].
    + rewrite (bool_decide_eq_true_2 (i = i)) by reflexivity. cbn [store_get].
      now rewrite !bool_decide_eq_false_2 by congruence.
    + rewrite (bool_decide_eq_false_2 (k' = i)) by exact Hk. cbn [store_get].
      destruct (bool_decide (k' = k)); [reflexivity | exact IH].
Qed.

Lemma store_set_keys store i c :
  map fst (store_set store i c)
  = if bool_decide (i ∈ map fst store) then map fst store else map fst store ++ [i].
Proof.
  induction store as [| [k c'] store IH]; cbn [store_set map fst].
  - rewrite bool_decide_eq_false_2 by apply not_elem_of_nil. reflexivity.
  - destruct (decide (k = i)) as [-> | Hk].
    + rewrite !bool_decide_eq_true_2 by (reflexivity || now left). reflexivity.
    + rewrite (bool_decide_eq_false_2 (k = i)) by exact Hk. cbn [map fst].
      rewrite IH. destruct (decide (i ∈ map fst store)) as [Hi | Hi].
      * rewrite !bool_decide_eq_true_2 by (assumption || now right). reflexivity.
      * rewrite !bool_decide_eq_false_2; [reflexivity | | exact Hi].
        intros Hin. apply elem_of_cons in Hin as [-> | Hin]; congruence.
Qed.

Lemma store_set_NoDup store i c :
  NoDup (map fst store) -> NoDup (map fst (store_set store i c)).
Proof.
  intros Hnd. rewrite store_set_keys. case_bool_decide as Hi; [exact Hnd |].
  apply NoDup_app. repeat split; [exact Hnd | | apply NoDup_singleton].
  intros y Hy Hy'. apply list_elem_of_singleton in Hy'. now subst.
Qed.

Section Provider.
Variable Math_sin : float -> float.

(** X18.  [addChunk] followed by a lookup: with [efConstruction >= 1] the
    call returns normally exactly when the graph index draws an integer
    level; the store then maps the id to the chunk with the embeddings
    generated from its content, replacing a chunk stored under the same
    id; the other keys keep their chunks; the count of [getStats] grows
    by one exactly when the id is new; and the graph index holds a node
    for the id whose vector is the medium embedding.  On the [Infinity]
    draw the call does not return. *)
Theorem addChunk_lookup (db : DB) (level : HNSWGraph.drawn) (i : string)
    (content : text) (meta : UltraMetadata) :
  1 <= HNSWGraph.efConstruction (hnsw db) ->
  match level with
  | HNSWGraph.Level lv =>
      exists db',
        addChunk Math_sin db (HNSWGraph.Level lv) i content meta = Ok db'
        /\ store_get (dataStore db') i
           = Some {| id := i; content := content;
                     matryoshka := fst (generateAll Math_sin content);
                     colbert := snd (generateAll Math_sin content);
                     metadata := meta |}
        /\ (forall k, k <> i -> store_get (dataStore db') k = store_get (dataStore db) k)
        /\ getStats db'
           = getStats db + (if bool_decide (i ∈ map fst (dataStore db)) then 0 else 1)
        /\ (NoDup (map fst (dataStore db)) -> NoDup (map fst (dataStore db')))
        /\ exists n, HNSWGraph.graph (hnsw db') !! i = Some n
             /\ HNSWGraph.vector n = medium (fst (generateAll Math_sin content))
  | HNSWGraph.InfiniteLevel =>
      addChunk Math_sin db HNSWGraph.InfiniteLevel i content meta = OutOfFuel
      /\ forall fuel,
           HNSWGraph.init_neighbors fuel 0 HNSWGraph.InfiniteLevel ∅ = OutOfFuel
  end.
Proof.
  intros HefC. unfold addChunk.
  destruct (generateAll Math_sin content) as [m cb] eqn:Eg. cbn [fst snd].
  destruct level as [lv |];
    [| split; [reflexivity | intros fuel; apply init_neighbors_endless]].
  destruct (insert_shape (hnsw db) lv i (medium m) HefC)
    as (g1 & nn & ml & e' & -> & _ & Hvec & _).
  assert (Hn : <[i := nn]> g1 !! i = Some nn) by apply lookup_insert_eq.
  cbn [bind]. eexists. split; [reflexivity |]. cbn [dataStore hnsw HNSWGraph.graph].
  split; [apply store_get_set_eq |].
  split; [intros k Hk; now apply store_get_set_ne |].
  split.
  { unfold getStats. cbn [dataStore].
    rewrite <- (length_map fst (store_set _ _ _)), store_set_keys.
    case_bool_decide; rewrite ?length_app, length_map; cbn [length]; lia. }
  split; [apply store_set_NoDup |].
  exists nn. split; [exact Hn | exact Hvec].
Qed.

(** Every chunk is stored under its own id, and no key occurs twice:
    what [addChunk] keeps of a store. *)
Definition well_keyed (store : list (string * UltraChunk)) : Prop :=
  NoDup (map fst store) /\ forall e, e ∈ store -> id (snd e) = fst e.

Lemma well_keyed_empty : well_keyed [].
Proof. split; [constructor | intros e He; inversion He]. Qed.

Lemma store_set_elem_key store i c e :
  e ∈ store_set store i c -> e ∈ store \/ e = (i, c).
Proof.
  induction store as [| [k c'] store IH]; cbn [store_set]; intros He.
  - apply list_elem_of_singleton in He. now right.
  - destruct (decide (k = i)) as [-> | Hk].
    + rewrite bool_decide_eq_true_2 in He by reflexivity.
      apply elem_of_cons in He as [-> | He]; [now right | left; now right].
    + rewrite bool_decide_eq_false_2 in He by exact Hk.
      apply elem_of_cons in He as [-> | He]; [left; now left |].
      destruct (IH He) as [H | H]; [left; now right | now right].
Qed.

Lemma addChunk_well_keyed db level i content meta db' :
  addChunk Math_sin db level i content meta = Ok db' ->
  well_keyed (dataStore db) -> well_keyed (dataStore db').
Proof.
  unfold addChunk. destruct (generateAll Math_sin content) as [m cb].
  destruct (HNSWGraph.insert (hnsw db) level i (medium m)) as [h | |]; try discriminate.
  cbn [bind]. intros [= <-] [Hnd Hid]. cbn [dataStore]. split.
  - now apply store_set_NoDup.
  - intros e He. apply store_set_elem_key in He as [He | ->]; [now apply Hid | reflexivity].
Qed.

Lemma omap_ids store (ids : list string) :
  (forall e, e ∈ store -> id (snd e) = fst e) ->
  map id (omap (store_get store) ids)
  = filter (fun i => is_Some (store_get store i)) ids.
Proof.
  intros Hid. induction ids as [| i ids IH]; [reflexivity |].
  rewrite omap_cons_eq, filter_cons. destruct (store_get store i) as [c |] eqn:E.
  - rewrite decide_True by eauto. cbn [map]. rewrite IH. f_equal.
    apply store_get_Some in E. exact (Hid _ E).
  - rewrite decide_False by (intros [? ?]; discriminate). exact IH.
Qed.

(** X19.  A search returns every chunk at most once, although an id can
    come from both the prefilter and the graph search: the returned
    chunks have pairwise distinct ids.  Each returned chunk is the one the
    store holds under its id, the [binary] field of its breakdown is its
    nano distance to the query, and the [hnsw] field is always 0. *)
Theorem ultraSearch_distinct (db : DB) (query : text) (limit : nat) :
  well_keyed (dataStore db) ->
  exists res,
    ultraSearch Math_sin db query limit = Ok res
    /\ NoDup (map (fun r => id (chunk r)) res)
    /\ forall r, r ∈ res ->
         store_get (dataStore db) (id (chunk r)) = Some (chunk r)
         /\ nanoHammingDistance (nano (qMat Math_sin query))
              (nano (matryoshka (chunk r))) = Ok (binary (breakdown r))
         /\ bd_hnsw (breakdown r) = 0%float.
Proof.
  intros [Hnd Hid]. destruct (guard query db) eqn:G.
  { exists []. split; [| split; [constructor | intros r Hr; inversion Hr]].
    unfold ultraSearch. unfold guard in G. now rewrite G. }
  destruct (ultraSearch_unfold Math_sin query db limit G) as (B & Hn & _ & _ & ->).
  set (ids := set_of_list (B ++ Hn)).
  set (cs := omap (store_get (dataStore db)) ids).
  eexists. split; [reflexivity |]. split.
  - unfold slice0. rewrite <- firstn_map. apply take_NoDup.
    rewrite (sort_perm _ (map (result_of Math_sin query) cs)), map_map.
    change (NoDup (map id cs)). unfold cs. rewrite omap_ids by exact Hid.
    apply NoDup_filter. apply set_of_list_spec.
  - intros r Hr. apply take_elem in Hr. rewrite sort_perm in Hr.
    apply map_elem in Hr as (c & -> & Hc). unfold cs in Hc.
    apply list_elem_of_omap in Hc as (i & _ & Hi).
    cbn [result_of chunk breakdown binary bd_hnsw].
    split; [| split; [apply nanoHammingDistance_hamming | reflexivity]].
    pose proof (store_get_Some _ _ _ Hi) as He. apply Hid in He. cbn [fst snd] in He.
    now rewrite He.
Qed.

(** X20.  A chunk that was added is found: in a store of at most 500
    chunks, a search with a query that is not blank and a limit of at
    least the store's size returns one result per stored chunk, the one
    just added among them. *)
Theorem added_chunk_found (db db' : DB) (level : HNSWGraph.drawn) (i : string)
    (content : text)
    (meta : UltraMetadata) (query : text) (limit : nat) :
  addChunk Math_sin db level i content meta = Ok db' ->
  NoDup (map fst (dataStore db)) ->
  length (dataStore db') <= 500 -> length (dataStore db') <= limit ->
  length (trim query) <> 0 ->
  exists res r,
    ultraSearch Math_sin db' query limit = Ok res
    /\ length res = length (dataStore db')
    /\ r ∈ res /\ id (chunk r) = i /\ Types.content (chunk r) = content.
Proof.
  intros Ha Hnd H500 Hlim Hq.
  assert (Hst : exists c, dataStore db' = store_set (dataStore db) i c
                  /\ id c = i /\ Types.content c = content).
  { unfold addChunk in Ha. destruct (generateAll Math_sin content) as [m cb].
    destruct (HNSWGraph.insert (hnsw db) level i (medium m)) as [h | |]; try discriminate.
    cbn [bind] in Ha. inversion Ha; subst db'. cbn [dataStore]. eauto. }
  destruct Hst as (c & Hst & Hid & Hcontent).
  assert (Hget : store_get (dataStore db') i = Some c)
    by (rewrite Hst; apply store_get_set_eq).
  assert (Hnd' : NoDup (map fst (dataStore db')))
    by (rewrite Hst; now apply store_set_NoDup).
  assert (Hin : c ∈ map snd (dataStore db')).
  { apply map_elem. exists (i, c). split; [reflexivity | now apply store_get_Some]. }
  assert (G : guard query db' = false).
  { unfold guard. apply orb_false_iff. split; apply Nat.eqb_neq; [exact Hq |].
    intros Hz. destruct (dataStore db'); [inversion Hin | discriminate]. }
  destruct (ultraSearch_unfold Math_sin query db' limit G) as (B & Hn & HB & _ & ->).
  destruct (getBinaryCandidates_returns (dataStore db') (nano (qMat Math_sin query)) 500)
    as (B' & HB' & _ & Hall).
  rewrite HB in HB'. inversion HB'; subst B'. specialize (Hall H500).
  set (ids := set_of_list (B ++ Hn)).
  assert (Hp : omap (store_get (dataStore db')) ids ≡ₚ map snd (dataStore db')).
  { apply omap_store_all; [exact Hnd' | apply set_of_list_spec |].
    intros k Hk. apply set_of_list_spec. apply elem_of_app. left. now rewrite Hall. }
  set (cs := omap (store_get (dataStore db')) ids) in *.
  assert (Hlen : length (sort (RankFacts.lower score) (map (result_of Math_sin query) cs))
                 = length (dataStore db')).
  { now rewrite sort_length, length_map, Hp, length_map. }
  unfold slice0. rewrite firstn_all2 by lia.
  eexists. exists (result_of Math_sin query c). split; [reflexivity |].
  split; [exact Hlen |]. split; [| split; [exact Hid | exact Hcontent]].
  rewrite sort_perm. apply map_elem. exists c. split; [reflexivity |]. now rewrite Hp.
Qed.

End Provider.

End StoreFacts.

(* ===================================================================== *)
(** * The result limit *)
(* ===================================================================== *)

Module LimitFacts.
Import JS Similarity Types UltraVectorDB PipelineFacts.

(** X21.  The limit of [ultraSearch] only cuts the ranked list: for a
    store and a query there is one list of which every call returns the
    first [limit] entries, so a smaller limit returns a prefix of what a
    larger one returns, and no call throws. *)
Theorem ultraSearch_limit_prefix (Math_sin : float -> float) (db : DB)
    (query : text) :
  exists ranked, forall limit,
    ultraSearch Math_sin db query limit = Ok (slice0 limit ranked).
Proof.
  destruct (guard query db) eqn:G.
  - exists []. intros limit. unfold ultraSearch. unfold guard in G. rewrite G.
    unfold slice0. now rewrite firstn_nil.
  - destruct (ultraSearch_unfold Math_sin query db 0 G) as (B & Hn & HB & HH & _).
    eexists. intros limit.
    destruct (ultraSearch_unfold Math_sin query db limit G) as (B' & Hn' & HB' & HH' & HU).
    rewrite HB in HB'. rewrite HH in HH'. inversion HB'. inversion HH'. subst B' Hn'.
    exact HU.
Qed.

End LimitFacts.

(* ===================================================================== *)
(** * The clamped similarity of the single-file build
      (ultra_vector_db_demo.ts) *)
(* ===================================================================== *)

Module DemoSimilarity.
Import JS Similarity.

(** [Math.max(x, y)] and [Math.min(x, y)]: [NaN] when an argument is
    [NaN]; [+0] counts as larger than [-0]. *)
Definition Math_max (x y : float) : float :=
  if PrimFloat.is_nan x || PrimFloat.is_nan y then nan
  else if (x <? y)%float then y
  else if (y <? x)%float then x
  else if PrimFloat.get_sign x then y else x.

Definition Math_min (x y : float) : float :=
  if PrimFloat.is_nan x || PrimFloat.is_nan y then nan
  else if (x <? y)%float then x
  else if (y <? x)%float then y
  else if PrimFloat.get_sign x then x else y.

(** The loop and the zero-norm guard are those of
    [Similarity.cosine_branch]; the quotient is scaled and clamped. *)
Definition cosineSimilarity (a b : Float32Array) : float :=
  match cosine_branch a b with
  | ReturnZero => 0%float
  | Divide num den =>
      let sim := (num / den)%float in
      Math_min 1 (Math_max 0 (sim * 1.05)%float)
  end.

End DemoSimilarity.

Module DemoSimilarityFacts.
Import JS Similarity FloatFacts RankFacts DemoSimilarity.

Lemma is_nan_number x : PrimFloat.is_nan x = false <-> is_number x = true.
Proof. unfold is_number. destruct (PrimFloat.is_nan x); cbn; split; congruence. Qed.

Lemma leb_refl x : is_number x = true -> (x <=? x)%float = true.
Proof.
  intros Hx. apply not_ltb_leb; try assumption.
  destruct (x <? x)%float eqn:E; [| reflexivity].
  pose proof (ltb_asym _ _ E). congruence.
Qed.

Lemma Math_max_spec x y :
  is_number x = true -> is_number y = true ->
  (Math_max x y = x \/ Math_max x y = y)
  /\ (x <=? Math_max x y)%float = true /\ (y <=? Math_max x y)%float = true.
Proof.
  intros Hx Hy. unfold Math_max.
  rewrite (proj2 (is_nan_number x) Hx), (proj2 (is_nan_number y) Hy). cbn [orb].
  destruct (x <? y)%float eqn:E1.
  { split; [now right |]. split; [now apply ltb_leb | now apply leb_refl]. }
  destruct (y <? x)%float eqn:E2.
  { split; [now left |]. split; [now apply leb_refl | now apply ltb_leb]. }
  pose proof (not_ltb_leb _ _ Hx Hy E1) as L1. pose proof (not_ltb_leb _ _ Hy Hx E2) as L2.
  destruct (PrimFloat.get_sign x).
  - split; [now right |]. split; [exact L2 | now apply leb_refl].
  - split; [now left |]. split; [now apply leb_refl | exact L1].
Qed.

Lemma Math_min_spec x y :
  is_number x = true -> is_number y = true ->
  (Math_min x y = x \/ Math_min x y = y)
  /\ (Math_min x y <=? x)%float = true /\ (Math_min x y <=? y)%float = true.
Proof.
  intros Hx Hy. unfold Math_min.
  rewrite (proj2 (is_nan_number x) Hx), (proj2 (is_nan_number y) Hy). cbn [orb].
  destruct (x <? y)%float eqn:E1.
  { split; [now left |]. split; [now apply leb_refl | now apply ltb_leb]. }
  destruct (y <? x)%float eqn:E2.
  { split; [now right |]. split; [now apply ltb_leb | now apply leb_refl]. }
  pose proof (not_ltb_leb _ _ Hx Hy E1) as L1. pose proof (not_ltb_leb _ _ Hy Hx E2) as L2.
  destruct (PrimFloat.get_sign x).
  - split; [now left |]. split; [now apply leb_refl | exact L2].
  - split; [now right |]. split; [exact L1 | now apply leb_refl].
Qed.

Lemma clamp_range s :
  let r := Math_min 1 (Math_max 0 s) in
  (PrimFloat.is_nan s = true -> PrimFloat.is_nan r = true)
  /\ (PrimFloat.is_nan s = false ->
      (0 <=? r)%float = true /\ (r <=? 1)%float = true).
Proof.
  intros r. split.
  - intros Hs. subst r. unfold Math_max. rewrite Hs, orb_true_r.
    unfold Math_min. rewrite orb_true_r. reflexivity.
  - intros Hs. apply is_nan_number in Hs.
    destruct (Math_max_spec 0 s eq_refl Hs) as (Hm & H0 & _).
    assert (Nm : is_number (Math_max 0 s) = true).
    { destruct Hm as [-> | ->]; [reflexivity | exact Hs]. }
    destruct (Math_min_spec 1 (Math_max 0 s) eq_refl Nm) as (Hr & H1 & _).
    fold r in Hr, H1. split; [| exact H1].
    destruct Hr as [-> | ->]; [reflexivity | exact H0].
Qed.

(** X22.  The similarity of the single-file build is clamped: it returns
    a number between 0 and 1, both included, or [NaN].  It returns [NaN]
    exactly when the scaled quotient
    [dot / (sqrt normA * sqrt normB) * 1.05] is [NaN], and the constant 0
    when a norm is zero. *)
Theorem clamped_similarity_range (a b : Float32Array) :
  let r := DemoSimilarity.cosineSimilarity a b in
  (PrimFloat.is_nan r = true \/ ((0 <=? r)%float = true /\ (r <=? 1)%float = true))
  /\ (forall num den, cosine_branch a b = Divide num den ->
      PrimFloat.is_nan r = PrimFloat.is_nan (num / den * 1.05)%float)
  /\ (cosine_branch a b = ReturnZero -> r = 0%float).
Proof.
  intros r. subst r. unfold DemoSimilarity.cosineSimilarity.
  destruct (cosine_branch a b) as [| num den].
  { split; [right; split; reflexivity |]. split; [discriminate | reflexivity]. }
  cbv zeta. destruct (clamp_range (num / den * 1.05)%float) as [H1 H2].
  cbv zeta in H1, H2.
  destruct (PrimFloat.is_nan (num / den * 1.05)%float) eqn:En.
  - specialize (H1 eq_refl). split; [now left |]. split; [| discriminate].
    intros num' den' [= <- <-]. now rewrite En.
  - destruct (H2 eq_refl) as [L0 L1]. split; [now right |]. split; [| discriminate].
    intros num' den' [= <- <-]. rewrite En.
    apply leb_true_numbers in L0 as [_ Hn]. now apply is_nan_number.
Qed.

End DemoSimilarityFacts.

(* ===================================================================== *)
(** * Runs of the facts about the store and the nearest-first order *)
(* ===================================================================== *)

Module FactsRuns.
Import JS Similarity Types MatryoshkaGenerator HNSWGraph UltraVectorDB FloatFacts
  GraphRuns PipelineFacts PipelineRuns PrefilterFacts StoreFacts NearestFacts
  ZeroBeamFacts.
Local Open Scope string_scope.

Lemma demo_keys_distinct : NoDup (map fst (dataStore demo_db)).
Proof. apply (bool_decide_unpack _). vm_compute. exact I. Qed.

Lemma getBinaryCandidates_nearest_witness :
  NoDup (map fst (dataStore demo_db))
  /\ exists B, getBinaryCandidates (dataStore demo_db) [5%Z] 2 = Ok B /\ length B = 2.
Proof.
  split; [exact demo_keys_distinct |].
  destruct (getBinaryCandidates_nearest (dataStore demo_db) [5%Z] 2 demo_keys_distinct)
    as (B & E & L & _).
  exists B. split; [exact E |]. rewrite L. vm_compute. reflexivity.
Defined.

Definition first_chunk : text := of_ascii_string "HNSW is a multi-layer graph.".

Lemma addChunk_lookup_witness :
  1 <= HNSWGraph.efConstruction (hnsw demo_db)
  /\ exists db', addChunk sin_taylor demo_db (Level 0) "B2" first_chunk meta0 = Ok db'
       /\ getStats db' = 4
       /\ Types.content <$> store_get (dataStore db') "B2" = Some first_chunk
       /\ store_get (dataStore db') "A1" = store_get (dataStore demo_db) "A1".
Proof.
  assert (H : 1 <= HNSWGraph.efConstruction (hnsw demo_db)) by (vm_compute; lia).
  split; [exact H |].
  destruct (addChunk_lookup sin_taylor demo_db (Level 0) "B2" first_chunk meta0 H)
    as (db' & E & Hget & Hother & Hs & _).
  exists db'. split; [exact E |]. split; [rewrite Hs; vm_compute; reflexivity |].
  split; [rewrite Hget; reflexivity | apply Hother; discriminate].
Defined.

Lemma demo_well_keyed : well_keyed (dataStore demo_db).
Proof.
  split; [exact demo_keys_distinct |].
  apply Forall_forall. apply (bool_decide_unpack _). vm_compute. exact I.
Qed.

Lemma ultraSearch_distinct_witness :
  well_keyed (dataStore demo_db)
  /\ exists res, ultraSearch sin_taylor demo_db demo_query 3 = Ok res
       /\ NoDup (map (fun r => Types.id (chunk r)) res).
Proof.
  split; [exact demo_well_keyed |].
  destruct (ultraSearch_distinct sin_taylor demo_db demo_query 3 demo_well_keyed)
    as (res & E & Hn & _).
  exists res. auto.
Defined.

(** The store after one call of [addChunk] on a new database. *)
Definition one_chunk : DB :=
  match addChunk sin_taylor (UltraVectorDB.create 16 200) (Level 0) "A1" first_chunk meta0 with
  | Ok d => d
  | _ => UltraVectorDB.create 16 200
  end.

Lemma added_chunk_found_witness :
  addChunk sin_taylor (UltraVectorDB.create 16 200) (Level 0) "A1" first_chunk meta0 = Ok one_chunk
  /\ exists res r, ultraSearch sin_taylor one_chunk demo_query 5 = Ok res
       /\ r ∈ res /\ Types.id (chunk r) = "A1".
Proof.
  assert (Ha : addChunk sin_taylor (UltraVectorDB.create 16 200) (Level 0) "A1" first_chunk meta0
               = Ok one_chunk) by (vm_compute; reflexivity).
  split; [exact Ha |].
  destruct (added_chunk_found sin_taylor (UltraVectorDB.create 16 200) one_chunk (Level 0) "A1"
              first_chunk meta0 demo_query 5 Ha)
    as (res & r & E & _ & Hr & Hi & _).
  - constructor.
  - apply Nat.leb_le. vm_compute. reflexivity.
  - apply Nat.leb_le. vm_compute. reflexivity.
  - vm_compute. discriminate.
  - exists res, r. auto.
Defined.

Definition four_ids : list string := ["A"; "B"; "C"; "D"].

Lemma four_ids_numeric (v : Float32Array) :
  bool_decide (Forall (fun i => is_number (distance_to (graph seven) v i) = true) four_ids)
  = true ->
  forall i, i ∈ four_ids -> is_number (distance_to (graph seven) v i) = true.
Proof. intros H. apply Forall_forall. now apply bool_decide_eq_true in H. Qed.

Lemma selectNeighbors_nearest_witness :
  NoDup four_ids
  /\ selectNeighbors (graph seven) four_ids 2 [0.5; 0.5]%float = ["D"; "C"]
  /\ (distance_to (graph seven) [0.5; 0.5]%float "C"
      <=? distance_to (graph seven) [0.5; 0.5]%float "A")%float = true.
Proof.
  assert (Hnd : NoDup four_ids) by (apply (bool_decide_unpack _); vm_compute; exact I).
  assert (Hsel : selectNeighbors (graph seven) four_ids 2 [0.5; 0.5]%float = ["D"; "C"])
    by (vm_compute; reflexivity).
  split; [exact Hnd |]. split; [exact Hsel |].
  destruct (selectNeighbors_nearest (graph seven) four_ids 2 [0.5; 0.5]%float Hnd)
    as (_ & _ & _ & Hnear).
  - apply four_ids_numeric. vm_compute. reflexivity.
  - apply Hnear.
    + rewrite Hsel. right. now left.
    + now left.
    + rewrite Hsel. apply (bool_decide_unpack _). vm_compute. exact I.
Defined.

(** The node stored under an id, or an empty node. *)
Definition node_of (h : HNSW) (i : string) : HNSWNode :=
  default {| HNSWGraph.id := i; vector := []; level := 0; neighbors := ∅ |} (graph h !! i).

Lemma trimNeighbors_nearest_witness :
  neighbors (node_of seven "A") !! 0 = Some ["C"; "B"]
  /\ exists T, neighbors (trimNeighbors (graph seven) (node_of seven "A") 0 1) !! 0 = Some T
       /\ length T = 1.
Proof.
  assert (HT : neighbors (node_of seven "A") !! 0 = Some ["C"; "B"])
    by (vm_compute; reflexivity).
  split; [exact HT |].
  destruct (trimNeighbors_nearest (graph seven) (node_of seven "A") 0 1 ["C"; "B"] HT)
    as (_ & _ & _ & _ & T & E & L & _).
  - apply (bool_decide_unpack _). vm_compute. exact I.
  - apply Forall_forall. apply (bool_decide_unpack _). vm_compute. exact I.
  - exists T. split; [exact E | exact L].
Defined.

Lemma seven_numeric :
  forall k n, graph seven !! k = Some n ->
    is_number (dist [0.5; 0.5]%float (vector n)) = true.
Proof.
  apply (bool_decide_unpack
           (map_Forall (fun (k : string) n =>
                          is_number (dist [0.5; 0.5]%float (vector n)) = true)
                       (graph seven))).
  vm_compute. exact I.
Qed.

Lemma search_sorted_witness :
  1 <= 3
  /\ search seven [0.5; 0.5]%float 3 0 = Ok ["E"; "C"; "B"]
  /\ StronglySorted
       (fun i j => (distance_to (graph seven) [0.5; 0.5]%float i
                    <=? distance_to (graph seven) [0.5; 0.5]%float j)%float = true)
       ["E"; "C"; "B"].
Proof.
  assert (Hs : search seven [0.5; 0.5]%float 3 0 = Ok ["E"; "C"; "B"])
    by (vm_compute; reflexivity).
  split; [lia |]. split; [exact Hs |].
  destruct (search_sorted seven [0.5; 0.5]%float 3 0 ltac:(lia) seven_numeric)
    as (res & E & Hsorted).
  rewrite Hs in E. inversion E; subst res. exact Hsorted.
Defined.

Lemma search_zero_ef_witness :
  entryPointId seven = Some "A"
  /\ descend (graph seven) [0.5; 0.5]%float (layers_down (maxLevel seven) 0) "A" = Ok "E"
  /\ search seven [0.5; 0.5]%float 0 0 = TypeError.
Proof.
  assert (He : entryPointId seven = Some "A") by (vm_compute; reflexivity).
  assert (Hd : descend (graph seven) [0.5; 0.5]%float (layers_down (maxLevel seven) 0) "A"
               = Ok "E") by (vm_compute; reflexivity).
  split; [exact He |]. split; [exact Hd |].
  apply (search_zero_ef seven [0.5; 0.5]%float 0 "A" "E" He ltac:(discriminate) Hd).
  exists (node_of seven "E"), "B".
  split; [vm_compute; reflexivity |].
  split; [apply (bool_decide_unpack _); vm_compute; exact I |].
  split; [discriminate | vm_compute; eauto].
Defined.

End FactsRuns.
